(** * A shallow embedding of rope.h (laluxx/rope)

    The rope is a binary tree whose leaves own UTF-8 byte buffers and whose
    branches cache the byte, character and newline totals of their left
    subtree.  The first part transcribes the C functions, each under the
    name it has in the source; the second part holds the definitions the
    properties are stated with; the properties follow.

    Conventions.
    - [size_t] values are integers of [Z]; the additions the C code performs
      on caller-supplied positions and lengths are wrapped modulo [2^64]
      ([wrap]).  Quantities that measure buffers held in memory (leaf
      lengths and their sums) are bounded by the address space and are not
      wrapped.
    - A byte is an integer; the cast [(uint8_t)] is [uint8].
    - A slice [(const char *str, size_t len)] is the list of its [len]
      bytes; [str + k] with length [len - k] is [skipn k str].
    - A [rope_node_t *] is a [rope_node_t] whose constructor [NULL] is the
      null pointer; a [rope_t *] is an [option rope_t].
    - The ropes are consumed by the mutating operations, so the functional
      model returns the new value and forgets the old one; [free], the node
      pool and the leaf capacity have no observable effect and are left out.
    - [rope_to_string] writes through a fixed array and into a buffer sized
      from the cached byte total; where the C code would write outside
      either, its behaviour is undefined and the model returns [None].  The
      same holds for the fixed arrays of [rope_copy_bytes] and of the
      iterator, and for reads outside a leaf.
    - [malloc] and [calloc] are taken to succeed, except in
      [rope_substring_bytes], which copes with a null buffer: there the
      outcome of the allocation is an argument of the model.
    - An output buffer [(char *buf, size_t bufsize)] is a boolean that tells
      whether the pointer is non-null; the function returns the bytes it
      stored along with its result.
    - The array [stack[64]] of the iterator with its index [sp] is a list,
      top first; the functions that update [*iter] return the new
      iterator. *)

From Stdlib Require Import ZArith List Bool Lia.
Import ListNotations.
Open Scope Z_scope.

(** ** Machine integers *)

Definition SIZE_BITS : Z := 64.
Definition SIZE_MAX1 : Z := 2 ^ SIZE_BITS.
Definition wrap (x : Z) : Z := x mod SIZE_MAX1.
Definition uint8 (x : Z) : Z := x mod 256.

(** [str[i]] *)
Definition byte_at (str : list Z) (i : Z) : Z := nth (Z.to_nat i) str 0.

(** [(size_t)] length of a slice *)
Definition zlen (str : list Z) : Z := Z.of_nat (length str).

(** [str + k] and the first [k] bytes of [str] *)
Definition drop (k : Z) (str : list Z) : list Z := skipn (Z.to_nat k) str.
Definition take (k : Z) (str : list Z) : list Z := firstn (Z.to_nat k) str.

(** ** UTF-8 utilities *)

Definition utf8_char_len (first_byte : Z) : Z :=
  if Z.land first_byte 0x80 =? 0 then 1
  else if Z.land first_byte 0xE0 =? 0xC0 then 2
  else if Z.land first_byte 0xF0 =? 0xE0 then 3
  else if Z.land first_byte 0xF8 =? 0xF0 then 4
  else 1.

(** [utf8_decode str len &bytes_read] returns the scalar and [bytes_read]. *)
Definition utf8_decode (str : list Z) : Z * Z :=
  let len := zlen str in
  if len =? 0 then (0, 0)
  else
    let first := uint8 (byte_at str 0) in
    let char_len := utf8_char_len first in
    if char_len >? len then (0xFFFD, 1)
    else
      let b i := uint8 (byte_at str i) in
      let scalar :=
        if char_len =? 1 then first
        else if char_len =? 2 then
          Z.lor (Z.shiftl (Z.land first 0x1F) 6) (Z.land (b 1) 0x3F)
        else if char_len =? 3 then
          Z.lor (Z.lor (Z.shiftl (Z.land first 0x0F) 12)
                       (Z.shiftl (Z.land (b 1) 0x3F) 6))
                (Z.land (b 2) 0x3F)
        else if char_len =? 4 then
          Z.lor (Z.lor (Z.lor (Z.shiftl (Z.land first 0x07) 18)
                              (Z.shiftl (Z.land (b 1) 0x3F) 12))
                       (Z.shiftl (Z.land (b 2) 0x3F) 6))
                (Z.land (b 3) 0x3F)
        else 0xFFFD in
      (scalar, char_len).

(** The [while] loops of the scanners advance by at least one byte per
    iteration, so [length str] iterations always reach the exit test; the
    loops are written with that many units of fuel. *)

Fixpoint utf8_char_count_loop (fuel : nat) (str : list Z) (pos count : Z) : Z :=
  match fuel with
  | O => count
  | S fuel' =>
      let byte_len := zlen str in
      if pos <? byte_len then
        let char_len := utf8_char_len (uint8 (byte_at str pos)) in
        let char_len :=
          if char_len >? byte_len - pos then byte_len - pos else char_len in
        utf8_char_count_loop fuel' str (pos + char_len) (count + 1)
      else count
  end.

Definition utf8_char_count (str : list Z) : Z :=
  utf8_char_count_loop (length str) str 0 0.

Fixpoint count_newlines (str : list Z) : Z :=
  match str with
  | [] => 0
  | c :: rest => (if c =? 10 then 1 else 0) + count_newlines rest
  end.

Fixpoint utf8_char_to_byte_loop (fuel : nat) (str : list Z)
    (char_pos byte_pos current_char : Z) : Z :=
  match fuel with
  | O => byte_pos
  | S fuel' =>
      let byte_len := zlen str in
      if (byte_pos <? byte_len) && (current_char <? char_pos) then
        let char_len := utf8_char_len (uint8 (byte_at str byte_pos)) in
        if char_len >? byte_len - byte_pos then byte_pos
        else utf8_char_to_byte_loop fuel' str char_pos
               (byte_pos + char_len) (current_char + 1)
      else byte_pos
  end.

Definition utf8_char_to_byte (str : list Z) (char_pos : Z) : Z :=
  utf8_char_to_byte_loop (length str) str char_pos 0 0.

Fixpoint utf8_byte_to_char_loop (fuel : nat) (str : list Z)
    (byte_pos char_pos current_byte : Z) : Z :=
  match fuel with
  | O => char_pos
  | S fuel' =>
      let byte_len := zlen str in
      if (current_byte <? byte_pos) && (current_byte <? byte_len) then
        let char_len := utf8_char_len (uint8 (byte_at str current_byte)) in
        if char_len >? byte_len - current_byte then char_pos
        else if current_byte + char_len >? byte_pos then char_pos
        else utf8_byte_to_char_loop fuel' str byte_pos
               (char_pos + 1) (current_byte + char_len)
      else char_pos
  end.

Definition utf8_byte_to_char (str : list Z) (byte_pos : Z) : Z :=
  if byte_pos >=? zlen str then utf8_char_count str
  else utf8_byte_to_char_loop (length str) str byte_pos 0 0.

(** ** Nodes *)

Inductive rb_color_t : Type := RB_RED | RB_BLACK.

Definition color_eqb (a b : rb_color_t) : bool :=
  match a, b with
  | RB_RED, RB_RED | RB_BLACK, RB_BLACK => true
  | _, _ => false
  end.

(** The three weights live outside the union, so a leaf carries them too
    (copies of its own totals); [leaf.byte_len] is the length of [data]. *)
Inductive rope_node_t : Type :=
| NULL
| Leaf (color : rb_color_t) (byte_weight char_weight newline_weight : Z)
       (data : list Z) (leaf_char_len leaf_newlines : Z)
| Branch (color : rb_color_t) (byte_weight char_weight newline_weight : Z)
         (left right : rope_node_t).

Record rope_t : Type := mk_rope {
  root : rope_node_t;
  byte_len : Z;
  char_len : Z;
  newlines : Z
}.

Definition is_null (n : rope_node_t) : bool :=
  match n with NULL => true | _ => false end.

(** [n && !n->is_leaf] *)
Definition is_branch (n : rope_node_t) : bool :=
  match n with Branch _ _ _ _ _ _ => true | _ => false end.

Definition branch_left (n : rope_node_t) : rope_node_t :=
  match n with Branch _ _ _ _ l _ => l | _ => NULL end.

Definition branch_right (n : rope_node_t) : rope_node_t :=
  match n with Branch _ _ _ _ _ r => r | _ => NULL end.

Definition node_new_leaf (str : list Z) : rope_node_t :=
  let cl := utf8_char_count str in
  let nl := count_newlines str in
  Leaf RB_RED (zlen str) cl nl str cl nl.

Fixpoint node_byte_len (node : rope_node_t) : Z :=
  match node with
  | NULL => 0
  | Leaf _ _ _ _ data _ _ => zlen data
  | Branch _ bw _ _ _ r => bw + node_byte_len r
  end.

Fixpoint node_char_len (node : rope_node_t) : Z :=
  match node with
  | NULL => 0
  | Leaf _ _ _ _ _ cl _ => cl
  | Branch _ _ cw _ _ r => cw + node_char_len r
  end.

Fixpoint node_newline_count (node : rope_node_t) : Z :=
  match node with
  | NULL => 0
  | Leaf _ _ _ _ _ _ nl => nl
  | Branch _ _ _ nw _ r => nw + node_newline_count r
  end.

(** [left] is never [NULL] where the C code calls [node_new_branch] (it
    dereferences [left] at once); the [NULL] line only makes the function
    total. *)
Definition node_new_branch (left right : rope_node_t) : rope_node_t :=
  match left with
  | NULL => Branch RB_RED 0 0 0 left right
  | Leaf _ bw cw nw _ _ _ => Branch RB_RED bw cw nw left right
  | Branch _ bw cw nw _ lr =>
      Branch RB_RED
        (bw + (if is_null lr then 0 else node_byte_len lr))
        (cw + (if is_null lr then 0 else node_char_len lr))
        (nw + (if is_null lr then 0 else node_newline_count lr))
        left right
  end.

Definition node_update_weights (node : rope_node_t) : rope_node_t :=
  match node with
  | Branch c _ _ _ l r =>
      if is_null l then Branch c 0 0 0 l r
      else Branch c (node_byte_len l) (node_char_len l) (node_newline_count l) l r
  | _ => node
  end.

(** ** Red-black operations *)

Definition node_color (node : rope_node_t) : rb_color_t :=
  match node with
  | NULL => RB_BLACK
  | Leaf c _ _ _ _ _ _ => c
  | Branch c _ _ _ _ _ => c
  end.

Definition node_set_color (node : rope_node_t) (c : rb_color_t) : rope_node_t :=
  match node with
  | NULL => NULL
  | Leaf _ bw cw nw d cl nl => Leaf c bw cw nw d cl nl
  | Branch _ bw cw nw l r => Branch c bw cw nw l r
  end.

Definition rotate_left (node : rope_node_t) : rope_node_t :=
  match node with
  | Branch c bw cw nw l (Branch rc rbw rcw rnw rl rr) =>
      let node' := node_update_weights (Branch RB_RED bw cw nw l rl) in
      node_update_weights (Branch c rbw rcw rnw node' rr)
  | _ => node
  end.

Definition rotate_right (node : rope_node_t) : rope_node_t :=
  match node with
  | Branch c bw cw nw (Branch lc lbw lcw lnw ll lr) r =>
      let node' := node_update_weights (Branch RB_RED bw cw nw lr r) in
      node_update_weights (Branch c lbw lcw lnw ll node')
  | _ => node
  end.

Definition flip_colors (node : rope_node_t) : rope_node_t :=
  match node with
  | Branch _ bw cw nw l r =>
      Branch RB_RED bw cw nw (node_set_color l RB_BLACK) (node_set_color r RB_BLACK)
  | _ => node
  end.

Definition balance (node : rope_node_t) : rope_node_t :=
  match node with
  | Branch _ _ _ _ l r =>
      let left_is_branch := is_branch l in
      let right_is_branch := is_branch r in
      let node :=
        if color_eqb (node_color (branch_right node)) RB_RED
           && color_eqb (node_color (branch_left node)) RB_BLACK
           && right_is_branch
        then rotate_left node else node in
      let node :=
        if color_eqb (node_color (branch_left node)) RB_RED
           && left_is_branch
           && negb (is_null (branch_left (branch_left node)))
           && color_eqb (node_color (branch_left (branch_left node))) RB_RED
        then rotate_right node else node in
      let node :=
        if color_eqb (node_color (branch_left node)) RB_RED
           && color_eqb (node_color (branch_right node)) RB_RED
        then flip_colors node else node in
      node
  | _ => node
  end.

(** ** Core rope operations *)

Definition rope_new : rope_t := mk_rope NULL 0 0 0.

Definition rope_new_from_str (str : list Z) : rope_t :=
  if zlen str >? 0 then
    let leaf := node_new_leaf str in
    mk_rope (node_set_color leaf RB_BLACK) (zlen str)
            (node_char_len leaf) (node_newline_count leaf)
  else rope_new.

Definition rope_byte_length (rope : option rope_t) : Z :=
  match rope with Some r => byte_len r | None => 0 end.

Definition rope_char_length (rope : option rope_t) : Z :=
  match rope with Some r => char_len r | None => 0 end.

Record rope_stats_t : Type := mk_stats {
  bytes : Z;
  chars : Z;
  stat_newlines : Z
}.

Definition rope_stats (rope : option rope_t) : rope_stats_t :=
  match rope with
  | Some r => mk_stats (byte_len r) (char_len r) (newlines r)
  | None => mk_stats 0 0 0
  end.

(** ** Character access *)

(** The [while (node && !node->is_leaf)] descent of [rope_char_to_byte],
    followed by the scan of the landing leaf. *)
Fixpoint char_to_byte_walk (node : rope_node_t) (char_pos byte_offset : Z) : Z :=
  match node with
  | NULL => byte_offset
  | Leaf _ _ _ _ data _ _ => byte_offset + utf8_char_to_byte data char_pos
  | Branch _ bw cw _ l r =>
      if char_pos <? cw then char_to_byte_walk l char_pos byte_offset
      else char_to_byte_walk r (char_pos - cw) (byte_offset + bw)
  end.

Definition rope_char_to_byte (rope : option rope_t) (char_pos : Z) : Z :=
  match rope with
  | None => 0
  | Some r =>
      if char_pos >=? char_len r then byte_len r
      else char_to_byte_walk (root r) char_pos 0
  end.

Fixpoint byte_to_char_walk (node : rope_node_t) (byte_pos char_offset : Z) : Z :=
  match node with
  | NULL => char_offset
  | Leaf _ _ _ _ data _ _ => char_offset + utf8_byte_to_char data byte_pos
  | Branch _ bw cw _ l r =>
      if byte_pos <? bw then byte_to_char_walk l byte_pos char_offset
      else byte_to_char_walk r (byte_pos - bw) (char_offset + cw)
  end.

Definition rope_byte_to_char (rope : option rope_t) (byte_pos : Z) : Z :=
  match rope with
  | None => 0
  | Some r =>
      if byte_pos >=? byte_len r then char_len r
      else byte_to_char_walk (root r) byte_pos 0
  end.

(** The second descent of [rope_char_at], by byte weight, and the decoding
    in the landing leaf. *)
Fixpoint char_at_walk (node : rope_node_t) (byte_pos : Z) : Z :=
  match node with
  | NULL => 0
  | Leaf _ _ _ _ data _ _ =>
      if byte_pos <? zlen data then fst (utf8_decode (drop byte_pos data)) else 0
  | Branch _ bw _ _ l r =>
      if byte_pos <? bw then char_at_walk l byte_pos
      else char_at_walk r (byte_pos - bw)
  end.

Definition rope_char_at (rope : option rope_t) (char_pos : Z) : Z :=
  match rope with
  | None => 0
  | Some r =>
      if char_pos >=? char_len r then 0
      else char_at_walk (root r) (rope_char_to_byte rope char_pos)
  end.

(** ** Concatenation *)

Definition rope_concat (left right : option rope_t) : option rope_t :=
  match left with
  | None => right
  | Some l =>
      if byte_len l =? 0 then right
      else
        match right with
        | None => left
        | Some r =>
            if byte_len r =? 0 then left
            else
              Some (mk_rope
                      (node_set_color (node_new_branch (root l) (root r)) RB_BLACK)
                      (byte_len l + byte_len r)
                      (char_len l + char_len r)
                      (newlines l + newlines r))
        end
  end.

(** ** Split *)

(** [split_leaf] is only called on a leaf. *)
Definition split_leaf (leaf : rope_node_t) (byte_pos : Z)
  : rope_node_t * rope_node_t :=
  match leaf with
  | Leaf c _ _ _ data _ _ =>
      if byte_pos =? 0 then (NULL, leaf)
      else if byte_pos >=? zlen data then (leaf, NULL)
      else
        (node_set_color (node_new_leaf (take byte_pos data)) c,
         node_set_color (node_new_leaf (drop byte_pos data)) c)
  | _ => (NULL, NULL)
  end.

Fixpoint node_split_recursive (node : rope_node_t) (byte_pos : Z)
  : rope_node_t * rope_node_t :=
  match node with
  | NULL => (NULL, NULL)
  | Leaf _ _ _ _ _ _ _ => split_leaf node byte_pos
  | Branch c bw _ _ l r =>
      if byte_pos <=? bw then
        let '(ll, lr) := node_split_recursive l byte_pos in
        if negb (is_null lr) && negb (is_null r) then
          (ll, node_set_color (node_new_branch lr r) c)
        else
          (ll, if negb (is_null lr) then lr else r)
      else
        let '(rl, rr) := node_split_recursive r (byte_pos - bw) in
        if negb (is_null rl) && negb (is_null l) then
          (node_set_color (node_new_branch l rl) c, rr)
        else
          (l, rr)
  end.

(** The rope a split returns for one of its two trees. *)
Definition rope_of_tree (tree : rope_node_t) : rope_t :=
  if is_null tree then rope_new
  else
    let t := node_set_color tree RB_BLACK in
    mk_rope t (node_byte_len t) (node_char_len t) (node_newline_count t).

(** [rope_split_bytes rope byte_pos &right] returns the left rope and
    [*right_out]; [right_out] is taken to be a valid pointer. *)
Definition rope_split_bytes (rope : option rope_t) (byte_pos : Z)
  : option rope_t * option rope_t :=
  match rope with
  | None => (None, None)
  | Some r =>
      if byte_pos =? 0 then (Some rope_new, rope)
      else if byte_pos >=? byte_len r then (rope, Some rope_new)
      else
        let '(left_tree, right_tree) := node_split_recursive (root r) byte_pos in
        (Some (rope_of_tree left_tree), Some (rope_of_tree right_tree))
  end.

Definition rope_split_chars (rope : option rope_t) (char_pos : Z)
  : option rope_t * option rope_t :=
  match rope with
  | None => (None, None)
  | Some _ => rope_split_bytes rope (rope_char_to_byte rope char_pos)
  end.

(** ** Insertion *)

(** [node] is never [NULL] here: the C function dereferences it at once. *)
Fixpoint node_insert_bytes (node : rope_node_t) (byte_pos : Z) (str : list Z)
  : rope_node_t :=
  match node with
  | NULL => NULL
  | Leaf _ _ _ _ data _ _ =>
      if byte_pos =? 0 then
        let new_leaf := node_new_leaf str in
        balance (node_new_branch new_leaf node)
      else if byte_pos >=? zlen data then
        let new_leaf := node_new_leaf str in
        balance (node_new_branch node new_leaf)
      else
        let left := node_new_leaf (take byte_pos data) in
        let mid := node_new_leaf str in
        let right := node_new_leaf (drop byte_pos data) in
        let left_branch := node_new_branch left mid in
        balance (node_new_branch left_branch right)
  | Branch c bw cw nw l r =>
      let node' :=
        if byte_pos <=? bw
        then Branch c bw cw nw (node_insert_bytes l byte_pos str) r
        else Branch c bw cw nw l (node_insert_bytes r (byte_pos - bw) str) in
      balance (node_update_weights node')
  end.

Definition rope_insert_bytes (rope : option rope_t) (byte_pos : Z) (str : list Z)
  : option rope_t :=
  match rope with
  | None => None
  | Some r =>
      let len := zlen str in
      if len =? 0 then rope
      else
        let byte_pos := if byte_pos >? byte_len r then byte_len r else byte_pos in
        let new_root :=
          if is_null (root r) then node_set_color (node_new_leaf str) RB_BLACK
          else node_set_color (node_insert_bytes (root r) byte_pos str) RB_BLACK in
        Some (mk_rope new_root
                (byte_len r + len)
                (char_len r + utf8_char_count str)
                (newlines r + count_newlines str))
  end.

Definition rope_insert_chars (rope : option rope_t) (char_pos : Z) (str : list Z)
  : option rope_t :=
  match rope with
  | None => None
  | Some _ => rope_insert_bytes rope (rope_char_to_byte rope char_pos) str
  end.

(** ** Deletion *)

Definition rope_delete_bytes (rope : option rope_t) (byte_start byte_len' : Z)
  : option rope_t :=
  match rope with
  | None => None
  | Some r =>
      if byte_start >=? byte_len r then rope
      else
        let byte_len' :=
          if wrap (byte_start + byte_len') >? byte_len r
          then byte_len r - byte_start else byte_len' in
        if byte_len' =? 0 then rope
        else
          let '(rope1, right_rope) := rope_split_bytes rope byte_start in
          match right_rope with
          | None => rope1
          | Some _ =>
              let '(_, rightmost) := rope_split_bytes right_rope byte_len' in
              match rightmost with
              | None => rope1
              | Some _ => rope_concat rope1 rightmost
              end
          end
  end.

Definition rope_delete_chars (rope : option rope_t) (char_start char_len' : Z)
  : option rope_t :=
  match rope with
  | None => None
  | Some r =>
      if char_start >=? char_len r then rope
      else
        let byte_start := rope_char_to_byte rope char_start in
        let byte_end := rope_char_to_byte rope (wrap (char_start + char_len')) in
        rope_delete_bytes rope byte_start (wrap (byte_end - byte_start))
  end.

(** ** Flattening *)

Definition STACK_SIZE : Z := 64.

(** The inner [while (current)] of [rope_to_string]: branches are pushed
    while going left.  [stack[sp++] = current] with [sp = 64] writes outside
    the array [stack[64]]: the behaviour is undefined and the model stops
    with [None]. *)
Fixpoint push_left (current : rope_node_t) (stack : list rope_node_t)
  : option (rope_node_t * list rope_node_t) :=
  match current with
  | Branch _ _ _ _ l _ =>
      if Z.of_nat (length stack) <? STACK_SIZE
      then push_left l (current :: stack) else None
  | _ => Some (current, stack)
  end.

(** One turn of the outer [while (current || sp > 0)] per unit of fuel.
    [out] is [str[0..pos)]; the buffer has [cap + 1] bytes, and a [memcpy]
    that would run past it is undefined, hence [None]. *)
Fixpoint to_string_loop (fuel : nat) (cap : Z) (current : rope_node_t)
    (stack : list rope_node_t) (out : list Z) : option (list Z) :=
  match fuel with
  | O => None
  | S fuel' =>
      if is_null current && (Z.of_nat (length stack) =? 0) then Some out
      else
        match push_left current stack with
        | None => None
        | Some (current, stack) =>
            match current with
            | Leaf _ _ _ _ data _ _ =>
                if zlen out + zlen data <=? cap then
                  match stack with
                  | top :: stack' =>
                      to_string_loop fuel' cap (branch_right top) stack' (out ++ data)
                  | [] => to_string_loop fuel' cap NULL [] (out ++ data)
                  end
                else None
            | _ =>
                match stack with
                | top :: stack' =>
                    to_string_loop fuel' cap (branch_right top) stack' out
                | [] => to_string_loop fuel' cap current [] out
                end
            end
        end
  end.

Fixpoint node_count (node : rope_node_t) : nat :=
  match node with
  | Branch _ _ _ _ l r => S (node_count l + node_count r)
  | _ => 1
  end.

(** [rope_to_string rope &len] returns the [len] bytes written ([NULL] and
    length 0 for an empty rope are the empty list).  Every turn of the outer
    loop but the last pops one branch, so [node_count + 1] turns suffice. *)
Definition rope_to_string (rope : option rope_t) : option (list Z) :=
  match rope with
  | None => Some []
  | Some r =>
      if byte_len r =? 0 then Some []
      else to_string_loop (S (node_count (root r))) (byte_len r) (root r) [] []
  end.

(** ** Line operations *)

Definition rope_line_count (rope : option rope_t) : Z :=
  match rope with Some r => newlines r + 1 | None => 1 end.

(** The [for] loop of [rope_line_to_char]; [i] runs from 0 to [char_len],
    so [char_len] units of fuel reach its exit. *)
Fixpoint line_to_char_loop (fuel : nat) (rope : rope_t) (line i current_line : Z)
  : Z :=
  match fuel with
  | O => char_len rope
  | S fuel' =>
      if i <? char_len rope then
        if current_line =? line then i
        else
          line_to_char_loop fuel' rope line (i + 1)
            (if rope_char_at (Some rope) i =? 10
             then current_line + 1 else current_line)
      else char_len rope
  end.

Definition rope_line_to_char (rope : option rope_t) (line : Z) : Z :=
  match rope with
  | None => 0
  | Some r => line_to_char_loop (Z.to_nat (char_len r)) r line 0 0
  end.

(** ** UTF-8 validation *)

(** The [for] loop of [validate_utf8] over the bytes that follow the lead
    byte at [pos]; [i] runs from 1 to [char_len], so [char_len] units of
    fuel reach its exit. *)
Fixpoint validate_utf8_cont (fuel : nat) (str : list Z) (pos char_len' i : Z)
  : bool :=
  match fuel with
  | O => true
  | S fuel' =>
      if i <? char_len' then
        if negb (Z.land (uint8 (byte_at str (pos + i))) 0xC0 =? 0x80) then false
        else validate_utf8_cont fuel' str pos char_len' (i + 1)
      else true
  end.

Fixpoint validate_utf8_loop (fuel : nat) (str : list Z) (pos : Z) : bool :=
  match fuel with
  | O => true
  | S fuel' =>
      let len := zlen str in
      if pos <? len then
        let char_len' := utf8_char_len (uint8 (byte_at str pos)) in
        if pos + char_len' >? len then false
        else if validate_utf8_cont (Z.to_nat char_len') str pos char_len' 1
        then validate_utf8_loop fuel' str (pos + char_len')
        else false
      else true
  end.

Definition validate_utf8 (str : list Z) : bool :=
  validate_utf8_loop (length str) str 0.

(** [rope_validate_utf8] validates [rope->byte_len] bytes of the buffer
    [rope_to_string] returns.  The traversal wrote [zlen str] of them; were
    that fewer than [byte_len], the validation would read bytes nobody
    wrote, hence [None]. *)
Definition rope_validate_utf8 (rope : option rope_t) : option bool :=
  match rope with
  | None => Some true
  | Some r =>
      if byte_len r =? 0 then Some true
      else
        match rope_to_string rope with
        | None => None
        | Some str =>
            if zlen str =? byte_len r then Some (validate_utf8 str) else None
        end
  end.

(** ** Copy operations *)

(** The descent [while (node && !node->is_leaf)] by byte weight of
    [rope_copy_bytes], [rope_iter_init] and [rope_iter_prev_char]: a branch
    is pushed when the walk goes to its left child.  The result is the node
    the walk stops at, the position inside it, the bytes skipped on the way
    and the stack; pushing onto the full [stack[64]] is undefined. *)
Fixpoint seek_leaf (node : rope_node_t) (byte_pos byte_offset : Z)
    (stack : list rope_node_t)
  : option (rope_node_t * Z * Z * list rope_node_t) :=
  match node with
  | Branch _ bw _ _ l r =>
      if byte_pos <? bw then
        if Z.of_nat (length stack) <? STACK_SIZE
        then seek_leaf l byte_pos byte_offset (node :: stack)
        else None
      else seek_leaf r (byte_pos - bw) (byte_offset + bw) stack
  | _ => Some (node, byte_pos, byte_offset, stack)
  end.

(** The loop [while (node && node->is_leaf && copied < byte_len)] of
    [rope_copy_bytes], one leaf per unit of fuel.  [buf] is
    [buf[0 .. copied)].  With [byte_start] past the end of the leaf the
    subtraction [leaf.byte_len - byte_start] wraps around and the [memcpy]
    reads outside the leaf: undefined, hence [None]. *)
Fixpoint copy_leaves (fuel : nat) (node : rope_node_t)
    (byte_start byte_len' copied : Z) (stack : list rope_node_t) (buf : list Z)
  : option (Z * list Z) :=
  match fuel with
  | O => None
  | S fuel' =>
      match node with
      | Leaf _ _ _ _ data _ _ =>
          if copied <? byte_len' then
            if byte_start <=? zlen data then
              let to_copy := zlen data - byte_start in
              let to_copy :=
                if to_copy >? byte_len' - copied then byte_len' - copied
                else to_copy in
              let buf := buf ++ take to_copy (drop byte_start data) in
              let copied := copied + to_copy in
              if copied <? byte_len' then
                match stack with
                | [] => Some (copied, buf)
                | parent :: stack' =>
                    if negb (is_null (branch_right parent)) then
                      match push_left (branch_right parent) stack' with
                      | Some (node', stack'') =>
                          copy_leaves fuel' node' 0 byte_len' copied stack'' buf
                      | None => None
                      end
                    else Some (copied, buf)
                end
              else Some (copied, buf)
            else None
          else Some (copied, buf)
      | _ => Some (copied, buf)
      end
  end.

(** [rope_copy_bytes rope byte_start byte_len buf bufsize] returns [copied]
    and the bytes it stored in [buf[0 .. copied)]; [buf] tells whether the
    buffer pointer is non-null.  Every leaf is visited at most once, so
    [node_count] units of fuel suffice. *)
Definition rope_copy_bytes (rope : option rope_t) (byte_start byte_len' : Z)
    (buf : bool) (bufsize : Z) : option (Z * list Z) :=
  match rope with
  | None => Some (0, [])
  | Some r =>
      if negb buf || (bufsize =? 0) || (byte_start >=? byte_len r)
      then Some (0, [])
      else
        let byte_len' :=
          if wrap (byte_start + byte_len') >? byte_len r
          then byte_len r - byte_start else byte_len' in
        let byte_len' := if byte_len' >? bufsize then bufsize else byte_len' in
        match seek_leaf (root r) byte_start 0 [] with
        | None => None
        | Some (node, byte_start, _, stack) =>
            copy_leaves (node_count (root r)) node byte_start byte_len' 0 stack []
        end
  end.

Definition rope_copy_chars (rope : option rope_t) (char_start char_len' : Z)
    (buf : bool) (bufsize : Z) : option (Z * list Z) :=
  match rope with
  | None => Some (0, [])
  | Some r =>
      if char_start >=? char_len r then Some (0, [])
      else
        let byte_start := rope_char_to_byte rope char_start in
        let byte_end := rope_char_to_byte rope (wrap (char_start + char_len')) in
        rope_copy_bytes rope byte_start (wrap (byte_end - byte_start)) buf bufsize
  end.

(** ** Substrings *)

(** [rope_substring_bytes] copies into a buffer of [len] bytes it gets
    from [malloc] and handles a null buffer (the copy then returns 0), so
    the outcome of that [malloc] is an input of the model: [buf] tells
    whether the pointer is non-null.  The function never returns a null
    handle; [None] is the undefined behaviour of the copy. *)
Definition rope_substring_bytes (rope : option rope_t) (start len : Z)
    (buf : bool) : option rope_t :=
  match rope with
  | None => Some rope_new
  | Some r =>
      if start >=? byte_len r then Some rope_new
      else
        let len :=
          if wrap (start + len) >? byte_len r then byte_len r - start else len in
        match rope_copy_bytes rope start len buf len with
        | None => None
        | Some (copied, bytes_copied) =>
            Some (rope_new_from_str (take copied bytes_copied))
        end
  end.

Definition rope_substring_chars (rope : option rope_t) (start len : Z)
    (buf : bool) : option rope_t :=
  match rope with
  | None => Some rope_new
  | Some r =>
      if start >=? char_len r then Some rope_new
      else
        let byte_start := rope_char_to_byte rope start in
        let byte_end := rope_char_to_byte rope (wrap (start + len)) in
        rope_substring_bytes rope byte_start (wrap (byte_end - byte_start)) buf
  end.

(** ** Line operations by character and by byte *)

(** The [for] loop of [rope_char_to_line]; [i] stops at [char_len] at the
    latest, so [char_len] units of fuel reach its exit. *)
Fixpoint char_to_line_loop (fuel : nat) (rope : rope_t) (char_pos i line : Z)
  : Z :=
  match fuel with
  | O => line
  | S fuel' =>
      if (i <? char_pos) && (i <? char_len rope) then
        char_to_line_loop fuel' rope char_pos (i + 1)
          (if rope_char_at (Some rope) i =? 10 then line + 1 else line)
      else line
  end.

Definition rope_char_to_line (rope : option rope_t) (char_pos : Z) : Z :=
  match rope with
  | None => 0
  | Some r => char_to_line_loop (Z.to_nat (char_len r)) r char_pos 0 0
  end.

Definition rope_byte_to_line (rope : option rope_t) (byte_pos : Z) : Z :=
  match rope with
  | None => 0
  | Some _ => rope_char_to_line rope (rope_byte_to_char rope byte_pos)
  end.

Definition rope_line_to_byte (rope : option rope_t) (line : Z) : Z :=
  match rope with
  | None => 0
  | Some _ => rope_char_to_byte rope (rope_line_to_char rope line)
  end.

(** ** Iterator *)

(** [stack[0 .. sp)] is the list [iter_stack], top first. *)
Record rope_iter_state_t : Type := mk_iter_state {
  iter_stack : list rope_node_t;
  current_leaf : rope_node_t;
  leaf_byte_pos : Z
}.

Record rope_iter_t : Type := mk_iter {
  iter_rope : option rope_t;
  iter_byte_pos : Z;
  iter_char_pos : Z;
  internal : option rope_iter_state_t
}.

(** [find_leftmost_leaf] is the walk [push_left]; [find_rightmost_leaf]
    goes right instead. *)
Definition find_leftmost_leaf (node : rope_node_t) (stack : list rope_node_t)
  : option (rope_node_t * list rope_node_t) :=
  push_left node stack.

Fixpoint find_rightmost_leaf (node : rope_node_t) (stack : list rope_node_t)
  : option (rope_node_t * list rope_node_t) :=
  match node with
  | Branch _ _ _ _ _ r =>
      if Z.of_nat (length stack) <? STACK_SIZE
      then find_rightmost_leaf r (node :: stack) else None
  | _ => Some (node, stack)
  end.

(** [next_leaf] and [prev_leaf] pop one branch per call of themselves. *)
Fixpoint next_leaf (stack : list rope_node_t)
  : option (rope_node_t * list rope_node_t) :=
  match stack with
  | [] => Some (NULL, [])
  | parent :: stack' =>
      if negb (is_null (branch_right parent))
      then find_leftmost_leaf (branch_right parent) stack'
      else next_leaf stack'
  end.

Fixpoint prev_leaf (stack : list rope_node_t)
  : option (rope_node_t * list rope_node_t) :=
  match stack with
  | [] => Some (NULL, [])
  | parent :: stack' =>
      if negb (is_null (branch_left parent))
      then find_rightmost_leaf (branch_left parent) stack'
      else prev_leaf stack'
  end.

(** [rope_iter_init iter rope char_pos] fills [*iter]; [iter] is taken to
    be a valid pointer. *)
Definition rope_iter_init (rope : option rope_t) (char_pos : Z)
  : option rope_iter_t :=
  let byte_pos :=
    match rope with Some _ => rope_char_to_byte rope char_pos | None => 0 end in
  let state := mk_iter_state [] NULL 0 in
  match rope with
  | None => Some (mk_iter rope byte_pos char_pos (Some state))
  | Some r =>
      if is_null (root r) then Some (mk_iter rope byte_pos char_pos (Some state))
      else
        match seek_leaf (root r) byte_pos 0 [] with
        | None => None
        | Some (node, target_byte, byte_offset, stack) =>
            match node with
            | Leaf _ _ _ _ _ _ _ =>
                Some (mk_iter rope (byte_offset + target_byte) char_pos
                        (Some (mk_iter_state stack node target_byte)))
            | _ =>
                Some (mk_iter rope byte_pos char_pos
                        (Some (mk_iter_state stack NULL 0)))
            end
        end
  end.

(** The data of the leaf an iterator stands on; a branch is never stored
    in [current_leaf]. *)
Definition leaf_data (node : rope_node_t) : list Z :=
  match node with Leaf _ _ _ _ data _ _ => data | _ => [] end.

(** [rope_iter_next_char iter &codepoint] returns the iterator as it leaves
    it, and [Some codepoint] when it returns [true], [None] when it returns
    [false] (and leaves [*codepoint] alone). *)
Definition rope_iter_next_char (iter : rope_iter_t)
  : option (option Z * rope_iter_t) :=
  match iter_rope iter with
  | None => Some (None, iter)
  | Some r =>
      if iter_char_pos iter >=? char_len r then Some (None, iter)
      else
        match internal iter with
        | None => Some (None, iter)
        | Some state =>
            if is_null (current_leaf state) then Some (None, iter)
            else
              let moved :=
                if leaf_byte_pos state >=? zlen (leaf_data (current_leaf state))
                then
                  match next_leaf (iter_stack state) with
                  | None => None
                  | Some (leaf, stack) => Some (mk_iter_state stack leaf 0)
                  end
                else Some state in
              match moved with
              | None => None
              | Some state =>
                  if is_null (current_leaf state)
                  then Some (None, mk_iter (iter_rope iter) (iter_byte_pos iter)
                                     (iter_char_pos iter) (Some state))
                  else
                    let '(codepoint, bytes_read) :=
                      utf8_decode (drop (leaf_byte_pos state)
                                        (leaf_data (current_leaf state))) in
                    Some (Some codepoint,
                          mk_iter (iter_rope iter)
                            (iter_byte_pos iter + bytes_read)
                            (iter_char_pos iter + 1)
                            (Some (mk_iter_state (iter_stack state)
                                     (current_leaf state)
                                     (leaf_byte_pos state + bytes_read))))
              end
        end
  end.

(** The scan of [rope_iter_prev_char] inside the current leaf, up to
    [leaf_byte_pos]. *)
Fixpoint prev_scan_loop (fuel : nat) (data : list Z) (leaf_byte_pos' scan_pos : Z)
  : Z :=
  match fuel with
  | O => scan_pos
  | S fuel' =>
      if (scan_pos <? leaf_byte_pos') && (scan_pos <? zlen data) then
        let char_len' := utf8_char_len (uint8 (byte_at data scan_pos)) in
        if scan_pos + char_len' >? leaf_byte_pos' then scan_pos
        else prev_scan_loop fuel' data leaf_byte_pos' (scan_pos + char_len')
      else scan_pos
  end.

Definition rope_iter_prev_char (iter : rope_iter_t)
  : option (option Z * rope_iter_t) :=
  match iter_rope iter with
  | None => Some (None, iter)
  | Some r =>
      if iter_char_pos iter =? 0 then Some (None, iter)
      else
        match internal iter with
        | None => Some (None, iter)
        | Some state =>
            let char_pos := iter_char_pos iter - 1 in
            let iter := mk_iter (iter_rope iter) (iter_byte_pos iter) char_pos
                          (Some state) in
            let moved :=
              if is_null (current_leaf state) || (leaf_byte_pos state =? 0) then
                match prev_leaf (iter_stack state) with
                | None => None
                | Some (leaf, stack) =>
                    if is_null leaf then
                      match seek_leaf (root r)
                              (rope_char_to_byte (Some r) char_pos) 0 [] with
                      | None => None
                      | Some (node, byte_pos, _, stack) =>
                          match node with
                          | Leaf _ _ _ _ _ _ _ =>
                              Some (mk_iter_state stack node byte_pos)
                          | _ => Some (mk_iter_state stack NULL 0)
                          end
                      end
                    else
                      Some (mk_iter_state stack leaf (zlen (leaf_data leaf)))
                end
              else Some state in
            match moved with
            | None => None
            | Some state =>
                if is_null (current_leaf state)
                then Some (None, mk_iter (iter_rope iter) (iter_byte_pos iter)
                                   char_pos (Some state))
                else
                  let data := leaf_data (current_leaf state) in
                  let scan_pos :=
                    prev_scan_loop (length data) data (leaf_byte_pos state) 0 in
                  if scan_pos >? zlen data then None
                  else
                    let '(codepoint, _) := utf8_decode (drop scan_pos data) in
                    Some (Some codepoint,
                          mk_iter (iter_rope iter)
                            (rope_char_to_byte (Some r) char_pos)
                            char_pos
                            (Some (mk_iter_state (iter_stack state)
                                     (current_leaf state) scan_pos)))
            end
        end
  end.

(** [rope_iter_seek_char] frees the state and initialises the iterator
    anew; [rope_iter_seek_byte] converts the byte position first. *)
Definition rope_iter_seek_char (iter : rope_iter_t) (char_pos : Z)
  : option rope_iter_t :=
  match iter_rope iter with
  | None => Some iter
  | Some _ => rope_iter_init (iter_rope iter) char_pos
  end.

Definition rope_iter_seek_byte (iter : rope_iter_t) (byte_pos : Z)
  : option rope_iter_t :=
  match iter_rope iter with
  | None => Some iter
  | Some _ =>
      rope_iter_seek_char iter (rope_byte_to_char (iter_rope iter) byte_pos)
  end.

Definition rope_iter_destroy (iter : rope_iter_t) : rope_iter_t :=
  mk_iter (iter_rope iter) (iter_byte_pos iter) (iter_char_pos iter) None.

(** * Specification-level definitions *)

(** ** Content and metric consistency *)

(** The length advertised by the lead byte of [s]. *)
Definition lead_len (s : list Z) : Z := utf8_char_len (uint8 (byte_at s 0)).

(** The loop of [utf8_byte_to_char], entered when [byte_pos < byte_len]. *)
Definition byte_to_char_scan (s : list Z) (byte_pos : Z) : Z :=
  utf8_byte_to_char_loop (length s) s byte_pos 0 0.

(** The bytes of a tree, leaf after leaf from left to right. *)
Fixpoint node_bytes (node : rope_node_t) : list Z :=
  match node with
  | NULL => []
  | Leaf _ _ _ _ data _ _ => data
  | Branch _ _ _ _ l r => node_bytes l ++ node_bytes r
  end.

(** The sum over the leaves of the character count recomputed from each
    leaf's bytes. *)
Fixpoint tree_chars (node : rope_node_t) : Z :=
  match node with
  | NULL => 0
  | Leaf _ _ _ _ data _ _ => utf8_char_count data
  | Branch _ _ _ _ l r => tree_chars l + tree_chars r
  end.

(** Metric consistency: a leaf's stored totals are those of its bytes, a
    branch's weights are the totals of its left subtree, and a branch has
    both children. *)
Fixpoint tree_wf (node : rope_node_t) : Prop :=
  match node with
  | NULL => True
  | Leaf _ bw cw nw data cl nl =>
      bw = zlen data /\ cw = utf8_char_count data /\ nw = count_newlines data
      /\ cl = utf8_char_count data /\ nl = count_newlines data
  | Branch _ bw cw nw l r =>
      bw = zlen (node_bytes l) /\ cw = tree_chars l
      /\ nw = count_newlines (node_bytes l)
      /\ l <> NULL /\ r <> NULL /\ tree_wf l /\ tree_wf r
  end.

(** A branch whose weights are read off its left child, as
    [node_update_weights] and [node_new_branch] compute them. *)
Definition weighed (c : rb_color_t) (l r : rope_node_t) : rope_node_t :=
  Branch c (node_byte_len l) (node_char_len l) (node_newline_count l) l r.

(** [same a b]: [b] is a consistent, non-null tree with the bytes and the
    leaf character total of [a]. *)
Definition same (a b : rope_node_t) : Prop :=
  tree_wf b /\ b <> NULL
  /\ node_bytes b = node_bytes a /\ tree_chars b = tree_chars a.

Definition rope_root (rope : option rope_t) : rope_node_t :=
  match rope with Some r => root r | None => NULL end.

(** The bytes of a rope. *)
Definition rope_bytes (rope : option rope_t) : list Z :=
  match rope with Some r => node_bytes (root r) | None => [] end.

(** [consistent full r]: the tree of [r] is metric-consistent and the cached
    byte and newline totals of the handle are those of the tree; with
    [full = true], so is the cached character total. *)
Definition consistent (full : bool) (r : rope_t) : Prop :=
  tree_wf (root r)
  /\ byte_len r = zlen (node_bytes (root r))
  /\ newlines r = count_newlines (node_bytes (root r))
  /\ (full = true -> char_len r = tree_chars (root r)).

(** The same for a handle; a NULL handle has nothing to be inconsistent. *)
Definition handle_ok (full : bool) (rope : option rope_t) : Prop :=
  match rope with Some r => consistent full r | None => True end.

(** All the cached totals of the rope are those of its leaves. *)
Definition rope_wf (r : rope_t) : Prop := consistent true r.

(** ** Insert positions that keep characters whole *)

(** The byte position at which [node_insert_bytes] cuts the leaf it lands
    in keeps that leaf's character count: the characters of the two halves
    add up to those of the leaf. *)
Fixpoint insert_aligned (node : rope_node_t) (byte_pos : Z) : Prop :=
  match node with
  | NULL => True
  | Leaf _ _ _ _ data _ _ =>
      utf8_char_count (take byte_pos data) + utf8_char_count (drop byte_pos data)
      = utf8_char_count data
  | Branch _ bw _ _ l r =>
      if byte_pos <=? bw then insert_aligned l byte_pos
      else insert_aligned r (byte_pos - bw)
  end.

(** The position [rope_insert_bytes] works at, after clamping. *)
Definition clamp_pos (r : rope_t) (byte_pos : Z) : Z :=
  if byte_pos >? byte_len r then byte_len r else byte_pos.

Definition rope_insert_aligned (rope : option rope_t) (byte_pos : Z) : Prop :=
  match rope with
  | Some r => insert_aligned (root r) (clamp_pos r byte_pos)
  | None => True
  end.

(** ** Ropes built by the public operations *)

(** The values of a [size_t] argument. *)
Definition size_t (x : Z) : Prop := 0 <= x < SIZE_MAX1.

Section Reachability.

(** [allowed rope p]: the byte positions [rope_insert_bytes] is called
    with. *)
Variable allowed : option rope_t -> Z -> Prop.

(** The handles a caller can hold after a sequence of public operations.
    [rope_substring_bytes] and [rope_substring_chars] return
    [rope_new_from_str] of a copied buffer, or [rope_new]; both are
    covered by [reach_new_from_str]. *)
Inductive reachable : option rope_t -> Prop :=
| reach_null : reachable None
| reach_new : reachable (Some rope_new)
| reach_new_from_str (str : list Z) : reachable (Some (rope_new_from_str str))
| reach_insert_bytes (rope : option rope_t) (byte_pos : Z) (str : list Z) :
    reachable rope -> size_t byte_pos -> allowed rope byte_pos ->
    reachable (rope_insert_bytes rope byte_pos str)
| reach_insert_chars (rope : option rope_t) (char_pos : Z) (str : list Z) :
    reachable rope -> size_t char_pos ->
    reachable (rope_insert_chars rope char_pos str)
| reach_delete_bytes (rope : option rope_t) (start len : Z) :
    reachable rope -> size_t start -> size_t len ->
    reachable (rope_delete_bytes rope start len)
| reach_delete_chars (rope : option rope_t) (start len : Z) :
    reachable rope -> size_t start -> size_t len ->
    reachable (rope_delete_chars rope start len)
| reach_concat (a b : option rope_t) :
    reachable a -> reachable b -> reachable (rope_concat a b)
| reach_split_bytes_left (rope : option rope_t) (byte_pos : Z) :
    reachable rope -> size_t byte_pos ->
    reachable (fst (rope_split_bytes rope byte_pos))
| reach_split_bytes_right (rope : option rope_t) (byte_pos : Z) :
    reachable rope -> size_t byte_pos ->
    reachable (snd (rope_split_bytes rope byte_pos))
| reach_split_chars_left (rope : option rope_t) (char_pos : Z) :
    reachable rope -> size_t char_pos ->
    reachable (fst (rope_split_chars rope char_pos))
| reach_split_chars_right (rope : option rope_t) (char_pos : Z) :
    reachable rope -> size_t char_pos ->
    reachable (snd (rope_split_chars rope char_pos)).

End Reachability.

(** Any position at all. *)
Definition any_position (rope : option rope_t) (byte_pos : Z) : Prop := True.

(** ** The traversal stack of [rope_to_string] *)

(** The number of stack entries the traversal of a tree needs: a branch
    stays on the stack while its left subtree is visited and is popped
    before its right subtree is. *)
Fixpoint stack_need (node : rope_node_t) : Z :=
  match node with
  | Branch _ _ _ _ l r => Z.max (stack_need l + 1) (stack_need r)
  | _ => 0
  end.

Definition rope_stack_need (rope : option rope_t) : Z :=
  match rope with Some r => stack_need (root r) | None => 0 end.

(** [fits node sp]: the traversal of [node], started with [sp] entries on
    the stack, never pushes onto a full stack. *)
Fixpoint fits (node : rope_node_t) (sp : Z) : Prop :=
  match node with
  | Branch _ _ _ _ l r => sp < STACK_SIZE /\ fits l (sp + 1) /\ fits r sp
  | _ => True
  end.

(** Every pending right subtree fits once its branch is popped. *)
Fixpoint stack_fits (stack : list rope_node_t) : Prop :=
  match stack with
  | [] => True
  | top :: rest =>
      fits (branch_right top) (Z.of_nat (length rest)) /\ stack_fits rest
  end.

(** What the traversal still has to output for the branches on the stack. *)
Fixpoint stack_bytes (stack : list rope_node_t) : list Z :=
  match stack with
  | [] => []
  | top :: rest => node_bytes (branch_right top) ++ stack_bytes rest
  end.

Fixpoint branch_count (node : rope_node_t) : nat :=
  match node with
  | Branch _ _ _ _ l r => S (branch_count l + branch_count r)
  | _ => 0
  end.

(** The number of pops the traversal still has to make. *)
Fixpoint stack_pops (stack : list rope_node_t) : nat :=
  match stack with
  | [] => 0
  | top :: rest => S (branch_count (branch_right top) + stack_pops rest)
  end.

(** ** Red-black colouring *)

Definition is_red (node : rope_node_t) : bool := color_eqb (node_color node) RB_RED.

(** No red node has a red child. *)
Fixpoint no_red_red (node : rope_node_t) : bool :=
  match node with
  | Branch c _ _ _ l r =>
      negb (color_eqb c RB_RED && (is_red l || is_red r))
      && no_red_red l && no_red_red r
  | _ => true
  end.

(** The colouring invariant: a BLACK root and no red node with a red
    child. *)
Definition rb_coloring (rope : option rope_t) : bool :=
  color_eqb (node_color (rope_root rope)) RB_BLACK && no_red_red (rope_root rope).

(** The half of the colouring invariant that does hold: after every
    sequence of public operations the root is BLACK (a missing root counts
    as BLACK). *)
Definition root_black (rope : option rope_t) : Prop :=
  node_color (rope_root rope) = RB_BLACK.

(** ** The characters of a byte string *)

(** No sequence of [str] is cut short by the end of the slice: the scan of
    [utf8_char_to_byte], which stops at a lead byte that advertises more
    bytes than remain, gets through all the characters of [str]. *)
Definition utf8_whole (str : list Z) : Prop :=
  utf8_char_to_byte str (utf8_char_count str) = zlen str.

Fixpoint leaves_whole (node : rope_node_t) : Prop :=
  match node with
  | NULL => True
  | Leaf _ _ _ _ data _ _ => utf8_whole data
  | Branch _ _ _ _ l r => leaves_whole l /\ leaves_whole r
  end.

(** A rope whose leaves hold whole characters caches the character total
    of its leaves. *)
Definition whole_consistent (rope : option rope_t) : Prop :=
  match rope with
  | Some r => leaves_whole (root r) -> char_len r = tree_chars (root r)
  | None => True
  end.

(** The scalars [utf8_decode] yields when it is applied from the front of
    [str] until the bytes run out, each call starting where the previous
    one stopped ([bytes_read] is at least 1 on a non-empty slice, so
    [length str] calls suffice). *)
Fixpoint utf8_scalars_fuel (fuel : nat) (str : list Z) : list Z :=
  match fuel with
  | O => []
  | S fuel' =>
      if zlen str =? 0 then []
      else
        let '(scalar, n) := utf8_decode str in
        scalar :: utf8_scalars_fuel fuel' (drop n str)
  end.

Definition utf8_scalars (str : list Z) : list Z :=
  utf8_scalars_fuel (length str) str.

(** The least scalar that needs [n] bytes. *)
Definition min_scalar (n : Z) : Z :=
  if n =? 2 then 0x80 else if n =? 3 then 0x800 else 0x10000.

(** The character at the front of [s] is well formed: it is complete, its
    bytes are bytes, a single byte is ASCII, the bytes after a lead byte
    are continuation bytes, and the scalar is not one a shorter sequence
    encodes. *)
Definition utf8_char_ok (s : list Z) : bool :=
  let n := lead_len s in
  (n <=? zlen s)
  && forallb (fun b => (0 <=? b) && (b <? 256)) (take n s)
  && (if n =? 1 then byte_at s 0 <? 0x80
      else forallb (fun b => Z.land b 0xC0 =? 0x80) (drop 1 (take n s))
           && (min_scalar n <=? fst (utf8_decode s))
           && (fst (utf8_decode s) <=? 0x10FFFF)).

(** Every character of [s] is well formed. *)
Fixpoint utf8_well_formed_fuel (fuel : nat) (s : list Z) : bool :=
  match s with
  | [] => true
  | _ :: _ =>
      match fuel with
      | O => false
      | S fuel' =>
          utf8_char_ok s && utf8_well_formed_fuel fuel' (drop (lead_len s) s)
      end
  end.

Definition utf8_well_formed (s : list Z) : Prop :=
  utf8_well_formed_fuel (length s) s = true.

Fixpoint leaves_well_formed (node : rope_node_t) : Prop :=
  match node with
  | NULL => True
  | Leaf _ _ _ _ data _ _ => utf8_well_formed data
  | Branch _ _ _ _ l r => leaves_well_formed l /\ leaves_well_formed r
  end.

(** The number of newline scalars in a list of scalars. *)
Fixpoint count_newline_scalars (l : list Z) : Z :=
  match l with
  | [] => 0
  | c :: rest => (if c =? 10 then 1 else 0) + count_newline_scalars rest
  end.

(** The number of characters among the first [n] that [rope_char_at] reads
    as a newline. *)
Fixpoint newline_chars (rope : rope_t) (n : nat) : Z :=
  match n with
  | O => 0
  | S m =>
      newline_chars rope m
      + (if rope_char_at (Some rope) (Z.of_nat m) =? 10 then 1 else 0)
  end.

(** ** Sample texts and ropes *)

Definition str_helo : list Z := [72; 101; 108; 111].
Definition str_hello : list Z := [72; 101; 108; 108; 111].
Definition str_hello_world : list Z :=
  [72; 101; 108; 108; 111; 44; 32; 87; 111; 114; 108; 100; 33].
Definition digits : list Z := [48; 49; 50; 51; 52; 53; 54; 55; 56; 57].

(** "caf\xC3\xA9" and "AB\xE6\x97\xA5\xE6\x9C\xAC". *)
Definition str_cafe : list Z := [99; 97; 102; 0xC3; 0xA9].
Definition str_nihon : list Z := [65; 66; 0xE6; 0x97; 0xA5; 0xE6; 0x9C; 0xAC].

(** "Line 1\nLine 2\nLine 3". *)
Definition str_three_lines : list Z :=
  [76; 105; 110; 101; 32; 49; 10; 76; 105; 110; 101; 32; 50; 10;
   76; 105; 110; 101; 32; 51].

(** The overlong encoding C0 8A of U+000A, followed by "x". *)
Definition str_overlong_newline : list Z := [0xC0; 0x8A; 120].
Definition rope_overlong_newline : option rope_t :=
  Some (rope_new_from_str str_overlong_newline).

(** "é", and the same rope after one byte was inserted between the two
    bytes of the character. *)
Definition str_e_acute : list Z := [0xC3; 0xA9].
Definition c2_rope : option rope_t :=
  rope_insert_bytes (Some (rope_new_from_str str_e_acute)) 1 [120].

(** "a" ++ "b", then "x" inserted at byte 1; and five one-byte insertions
    into an empty rope. *)
Definition c3_rope : option rope_t :=
  rope_insert_bytes
    (rope_concat (Some (rope_new_from_str [97])) (Some (rope_new_from_str [98])))
    1 [120].

Definition c3_rope_inserts : option rope_t :=
  rope_insert_bytes
    (rope_insert_bytes
       (rope_insert_bytes
          (rope_insert_bytes
             (rope_insert_bytes (Some rope_new) 0 [97]) 0 [98]) 1 [120]) 1 [121])
    3 [119].

(** The bytes C3 E6 41 42 count three characters (C3 takes E6 with it);
    cut after C3 they count one and one, so inserting "x" at byte 1 leaves
    a cached total of 4 over a tree of 3 characters. *)
Definition c4_rope : option rope_t :=
  rope_insert_bytes (Some (rope_new_from_str [0xC3; 0xE6; 0x41; 0x42])) 1 [120].

(** [n] one-byte ropes concatenated one after the other onto a first one:
    every [rope_concat] puts the rope so far under a new root, as its left
    child. *)
Fixpoint left_nested (n : nat) : option rope_t :=
  match n with
  | O => Some (rope_new_from_str [120])
  | S m => rope_concat (left_nested m) (Some (rope_new_from_str [120]))
  end.

(** "日" split after its first byte and put together again: the text is
    unchanged, the leaves are [E6] and [97 A5]. *)
Definition str_nichi : list Z := [0xE6; 0x97; 0xA5].
Definition rope_nichi_cut : option rope_t :=
  rope_concat (fst (rope_split_bytes (Some (rope_new_from_str str_nichi)) 1))
              (snd (rope_split_bytes (Some (rope_new_from_str str_nichi)) 1)).

(** ** Unicode text *)

(** The specification speaks of the Unicode scalar value of a character.
    The definitions of this section state that reading on its own terms,
    without the decoder of the code: a scalar value is a code point that is
    not a surrogate, and a text is the UTF-8 encoding of a sequence of
    scalar values. *)
Definition unicode_scalar_value (v : Z) : Prop :=
  0 <= v < 0xD800 \/ 0xE000 <= v <= 0x10FFFF.

(** The UTF-8 encoding of a scalar value (The Unicode Standard, table
    3-6): one byte up to U+007F, two up to U+07FF, three up to U+FFFF and
    four beyond; the lead byte carries the high bits under its length
    mark, every byte after it six bits under the mark [10]. *)
Definition utf8_encode (v : Z) : list Z :=
  if v <? 0x80 then [v]
  else if v <? 0x800 then [0xC0 + v / 64; 0x80 + v mod 64]
  else if v <? 0x10000 then
    [0xE0 + v / 4096; 0x80 + (v / 64) mod 64; 0x80 + v mod 64]
  else
    [0xF0 + v / 262144; 0x80 + (v / 4096) mod 64; 0x80 + (v / 64) mod 64;
     0x80 + v mod 64].

Definition utf8_encode_all (chars : list Z) : list Z :=
  flat_map utf8_encode chars.

(** [bytes] is well-formed UTF-8 and [chars] are its characters, in
    order. *)
Definition unicode_text (bytes chars : list Z) : Prop :=
  Forall unicode_scalar_value chars /\ bytes = utf8_encode_all chars.

(** Every leaf holds well-formed UTF-8. *)
Fixpoint leaves_unicode (node : rope_node_t) : Prop :=
  match node with
  | NULL => True
  | Leaf _ _ _ _ data _ _ => exists chars, unicode_text data chars
  | Branch _ _ _ _ l r => leaves_unicode l /\ leaves_unicode r
  end.


(** ** Definitions for the copies, the validation and the iterator *)

(** ** Validation *)

(** The bytes after the lead byte of [s], up to the length it advertises,
    are continuation bytes. *)
Definition cont_ok (s : list Z) : Prop :=
  forall j, 1 <= j < lead_len s -> Z.land (uint8 (byte_at s j)) 0xC0 = 0x80.

(** ** Traversals with the explicit stack *)

(** Every right subtree pending on the stack satisfies [Q]. *)
Definition stack_all (Q : rope_node_t -> Prop) (stack : list rope_node_t) : Prop :=
  Forall (fun top => Q (branch_right top)) stack.

(** A consistent tree that is there. *)
Definition tree_ok (node : rope_node_t) : Prop := tree_wf node /\ node <> NULL.

(** ** Cuts at character boundaries *)

(** The leaf that [node_insert_bytes] and [node_split_recursive] cut at
    [byte_pos] is cut between two characters. *)
Fixpoint cut_whole (node : rope_node_t) (byte_pos : Z) : Prop :=
  match node with
  | NULL => True
  | Leaf _ _ _ _ data _ _ =>
      utf8_whole (take byte_pos data) /\ utf8_whole (drop byte_pos data)
  | Branch _ bw _ _ l r =>
      if byte_pos <=? bw then cut_whole l byte_pos
      else cut_whole r (byte_pos - bw)
  end.

(** The characters of a rope: the scalars of its bytes. *)
Definition rope_scalars (rope : option rope_t) : list Z :=
  utf8_scalars (rope_bytes rope).

(** The bytes of the characters [start .. start + len) of a string. *)
Definition char_span (s : list Z) (start len : Z) : list Z :=
  take (utf8_char_to_byte s (start + len) - utf8_char_to_byte s start)
       (drop (utf8_char_to_byte s start) s).

(** ** Iteration *)

(** No leaf is empty. *)
Fixpoint leaves_nonempty (node : rope_node_t) : Prop :=
  match node with
  | NULL => True
  | Leaf _ _ _ _ data _ _ => data <> []
  | Branch _ _ _ _ l r => leaves_nonempty l /\ leaves_nonempty r
  end.

(** A consistent tree that is there, with whole characters in leaves none
    of which is empty. *)
Definition text_tree (node : rope_node_t) : Prop :=
  tree_ok node /\ leaves_whole node /\ leaves_nonempty node.

(** [n] calls of [rope_iter_next_char]: the code points returned up to the
    first call that returns [false], and the iterator after the last
    call. *)
Fixpoint iter_collect (n : nat) (iter : rope_iter_t)
  : option (list Z * rope_iter_t) :=
  match n with
  | O => Some ([], iter)
  | S m =>
      match rope_iter_next_char iter with
      | None => None
      | Some (None, iter') => Some ([], iter')
      | Some (Some c, iter') =>
          match iter_collect m iter' with
          | None => None
          | Some (l, iter'') => Some (c :: l, iter'')
          end
      end
  end.

(** The state of an iterator that stands at byte [byte_pos] of [content],
    on a character boundary of its current leaf, with the leaves to the
    right of that leaf pending on its stack. *)
Definition state_inv (content : list Z) (byte_pos : Z)
    (state : rope_iter_state_t) : Prop :=
  is_branch (current_leaf state) = false
  /\ text_tree (current_leaf state)
  /\ 0 <= leaf_byte_pos state <= zlen (leaf_data (current_leaf state))
  /\ utf8_whole (drop (leaf_byte_pos state) (leaf_data (current_leaf state)))
  /\ stack_all text_tree (iter_stack state)
  /\ stack_fits (iter_stack state)
  /\ drop (leaf_byte_pos state) (leaf_data (current_leaf state))
       ++ stack_bytes (iter_stack state)
     = drop byte_pos content.

Definition iter_inv (r : rope_t) (iter : rope_iter_t) : Prop :=
  iter_rope iter = Some r
  /\ 0 <= iter_char_pos iter
  /\ iter_byte_pos iter
     = utf8_char_to_byte (node_bytes (root r)) (iter_char_pos iter)
  /\ exists state,
       internal iter = Some state
       /\ state_inv (node_bytes (root r)) (iter_byte_pos iter) state.

(** "caf\xC3\xA9" and "\xE6\x97\xA5" concatenated: a rope of two leaves. *)
Definition rope_cafe_nichi : rope_t :=
  match rope_concat (Some (rope_new_from_str str_cafe))
                    (Some (rope_new_from_str str_nichi)) with
  | Some r => r
  | None => rope_new
  end.

(** * Properties *)

(** ** Slices *)

Lemma zlen_nonneg (s : list Z) : 0 <= zlen s.
Proof. unfold zlen; lia. Qed.

Lemma zlen_nil : zlen [] = 0.
Proof. reflexivity. Qed.

Lemma zlen_cons (b : Z) (s : list Z) : zlen (b :: s) = 1 + zlen s.
Proof. unfold zlen; simpl length; lia. Qed.

Lemma zlen_app (s t : list Z) : zlen (s ++ t) = zlen s + zlen t.
Proof. unfold zlen; rewrite length_app; lia. Qed.

Lemma zlen_zero (s : list Z) : zlen s = 0 -> s = [].
Proof. destruct s; [reflexivity | rewrite zlen_cons; pose proof (zlen_nonneg s); lia]. Qed.

Lemma zlen_drop (k : Z) (s : list Z) :
  0 <= k <= zlen s -> zlen (drop k s) = zlen s - k.
Proof. unfold zlen, drop; intros H; rewrite length_skipn; lia. Qed.

Lemma zlen_take (k : Z) (s : list Z) :
  0 <= k <= zlen s -> zlen (take k s) = k.
Proof. unfold zlen, take; intros H; rewrite length_firstn; lia. Qed.

Lemma drop_all (k : Z) (s : list Z) : zlen s <= k -> drop k s = [].
Proof. unfold zlen, drop; intros H; apply skipn_all2; lia. Qed.

Lemma take_all (k : Z) (s : list Z) : zlen s <= k -> take k s = s.
Proof. unfold zlen, take; intros H; apply firstn_all2; lia. Qed.

Lemma drop_0 (k : Z) (s : list Z) : k <= 0 -> drop k s = s.
Proof. unfold drop; intros H; replace (Z.to_nat k) with 0%nat by lia; reflexivity. Qed.

Lemma take_drop (k : Z) (s : list Z) : take k s ++ drop k s = s.
Proof. apply firstn_skipn. Qed.

Lemma drop_drop (j k : Z) (s : list Z) :
  0 <= j -> 0 <= k -> drop k (drop j s) = drop (j + k) s.
Proof.
  unfold drop; intros Hj Hk; rewrite skipn_skipn; f_equal; lia.
Qed.

Lemma drop_app_l (k : Z) (s t : list Z) :
  k <= zlen s -> drop k (s ++ t) = drop k s ++ t.
Proof.
  unfold drop, zlen; intros H; rewrite skipn_app.
  replace (Z.to_nat k - length s)%nat with 0%nat by lia; reflexivity.
Qed.

Lemma drop_app_r (k : Z) (s t : list Z) :
  zlen s <= k -> drop k (s ++ t) = drop (k - zlen s) t.
Proof.
  unfold drop, zlen; intros H; rewrite skipn_app, skipn_all2 by lia.
  simpl; f_equal; lia.
Qed.

Lemma take_app_l (k : Z) (s t : list Z) :
  k <= zlen s -> take k (s ++ t) = take k s.
Proof.
  unfold take, zlen; intros H; rewrite firstn_app.
  replace (Z.to_nat k - length s)%nat with 0%nat by lia.
  simpl; apply app_nil_r.
Qed.

Lemma take_app_r (k : Z) (s t : list Z) :
  zlen s <= k -> take k (s ++ t) = s ++ take (k - zlen s) t.
Proof.
  unfold take, zlen; intros H; rewrite firstn_app, firstn_all2 by lia.
  do 2 f_equal; lia.
Qed.

Lemma byte_at_drop (j k : Z) (s : list Z) :
  0 <= j -> 0 <= k -> byte_at (drop j s) k = byte_at s (j + k).
Proof.
  unfold byte_at, drop; intros Hj Hk.
  rewrite nth_skipn; f_equal; lia.
Qed.

Lemma byte_at_app_l (k : Z) (s t : list Z) :
  0 <= k < zlen s -> byte_at (s ++ t) k = byte_at s k.
Proof.
  unfold byte_at, zlen; intros H; apply app_nth1; lia.
Qed.

Lemma count_newlines_app (s t : list Z) :
  count_newlines (s ++ t) = count_newlines s + count_newlines t.
Proof. induction s as [|c s IH]; simpl; [reflexivity | rewrite IH; lia]. Qed.

Lemma count_newlines_take_drop (k : Z) (s : list Z) :
  count_newlines (take k s) + count_newlines (drop k s) = count_newlines s.
Proof. rewrite <- count_newlines_app, take_drop; reflexivity. Qed.

Lemma count_newlines_nonneg (s : list Z) : 0 <= count_newlines s.
Proof. induction s as [|c s IH]; simpl; [lia | destruct (c =? 10); lia]. Qed.

(** ** The UTF-8 scanners, one character at a time *)

Lemma utf8_char_len_range (b : Z) : 1 <= utf8_char_len b <= 4.
Proof.
  unfold utf8_char_len.
  repeat match goal with |- context [if ?c then _ else _] => destruct c end; lia.
Qed.

Lemma lead_len_range (s : list Z) : 1 <= lead_len s <= 4.
Proof. apply utf8_char_len_range. Qed.

Lemma lead_len_app (s t : list Z) : s <> [] -> lead_len (s ++ t) = lead_len s.
Proof. destruct s; [congruence | reflexivity]. Qed.

(** Induction over a byte string, one lead-byte length at a time. *)
Lemma utf8_ind (P : list Z -> Prop) :
  P [] ->
  (forall s, s <> [] -> P (drop (lead_len s) s) -> P s) ->
  forall s, P s.
Proof.
  intros Hnil Hstep s.
  remember (length s) as n eqn:Hn.
  revert s Hn; induction n as [n IH] using lt_wf_ind; intros s Hn.
  destruct s as [|b s']; [exact Hnil|].
  apply Hstep; [discriminate|].
  apply (IH (length (drop (lead_len (b :: s')) (b :: s')))); [|reflexivity].
  subst n; unfold drop; rewrite length_skipn.
  pose proof (lead_len_range (b :: s')); simpl length; lia.
Qed.

(** *** [utf8_char_count] *)

Lemma utf8_char_count_loop_shift (fuel : nat) :
  forall str pos count, 0 <= pos ->
    utf8_char_count_loop fuel str pos count
    = count + utf8_char_count_loop fuel (drop pos str) 0 0.
Proof.
  induction fuel as [|fuel IH]; intros str pos count Hpos; simpl; [lia|].
  destruct (Z.ltb_spec pos (zlen str)) as [Hlt|Hge].
  - rewrite (zlen_drop pos str) by lia.
    destruct (Z.ltb_spec 0 (zlen str - pos)); [|lia].
    rewrite byte_at_drop, Z.add_0_r, Z.sub_0_r by lia.
    set (cl := if _ >? _ then _ else _).
    assert (Hcl : 1 <= cl).
    { subst cl. pose proof (utf8_char_len_range (uint8 (byte_at str pos))).
      destruct (_ >? _); lia. }
    rewrite IH by lia.
    rewrite (IH (drop pos str) cl 1) by lia.
    rewrite drop_drop by lia. lia.
  - rewrite (drop_all pos str) by lia. rewrite zlen_nil. simpl. lia.
Qed.

Lemma utf8_char_count_loop_nil (fuel : nat) : utf8_char_count_loop fuel [] 0 0 = 0.
Proof. destruct fuel; reflexivity. Qed.

Lemma utf8_char_count_loop_step (fuel : nat) (s : list Z) :
  s <> [] ->
  utf8_char_count_loop (S fuel) s 0 0
  = 1 + utf8_char_count_loop fuel (drop (lead_len s) s) 0 0.
Proof.
  intros Hs. simpl.
  assert (0 < zlen s).
  { destruct s; [congruence | rewrite zlen_cons; pose proof (zlen_nonneg s); lia]. }
  destruct (Z.ltb_spec 0 (zlen s)); [|lia].
  rewrite Z.sub_0_r. fold (lead_len s).
  pose proof (lead_len_range s).
  rewrite utf8_char_count_loop_shift.
  2:{ destruct (_ >? _); lia. }
  rewrite Z.gtb_ltb. destruct (Z.ltb_spec (zlen s) (lead_len s)).
  - rewrite !drop_all by lia. simpl. lia.
  - simpl. lia.
Qed.

Lemma utf8_char_count_loop_fuel (f1 : nat) :
  forall f2 s, (length s <= f1)%nat -> (length s <= f2)%nat ->
    utf8_char_count_loop f1 s 0 0 = utf8_char_count_loop f2 s 0 0.
Proof.
  induction f1 as [|f1 IH]; intros f2 s H1 H2.
  - destruct s; [|simpl in H1; lia]. now rewrite !utf8_char_count_loop_nil.
  - destruct s as [|b s']; [now rewrite !utf8_char_count_loop_nil|].
    destruct f2 as [|f2]; [simpl in H2; lia|].
    rewrite !utf8_char_count_loop_step by discriminate.
    f_equal. pose proof (lead_len_range (b :: s')).
    apply IH; unfold drop; rewrite length_skipn; simpl length in *; lia.
Qed.

Lemma utf8_char_count_nil : utf8_char_count [] = 0.
Proof. reflexivity. Qed.

Lemma utf8_char_count_step (s : list Z) :
  s <> [] -> utf8_char_count s = 1 + utf8_char_count (drop (lead_len s) s).
Proof.
  intros Hs. unfold utf8_char_count.
  destruct s as [|b s']; [congruence|].
  simpl length. rewrite utf8_char_count_loop_step by discriminate.
  f_equal. pose proof (lead_len_range (b :: s')).
  apply utf8_char_count_loop_fuel; unfold drop; rewrite length_skipn;
    simpl length; lia.
Qed.

Lemma utf8_char_count_nonneg (s : list Z) : 0 <= utf8_char_count s.
Proof.
  induction s as [|s Hs IH] using utf8_ind.
  - rewrite utf8_char_count_nil; lia.
  - rewrite utf8_char_count_step by assumption; lia.
Qed.

(** *** [utf8_char_to_byte] *)

Lemma utf8_char_to_byte_loop_shift (fuel : nat) :
  forall str char_pos byte_pos current_char, 0 <= byte_pos ->
    utf8_char_to_byte_loop fuel str char_pos byte_pos current_char
    = byte_pos
      + utf8_char_to_byte_loop fuel (drop byte_pos str) (char_pos - current_char) 0 0.
Proof.
  induction fuel as [|fuel IH]; intros str k bp cc Hbp; simpl; [lia|].
  destruct (Z.ltb_spec bp (zlen str)) as [Hlt|Hge].
  - rewrite (zlen_drop bp str) by lia.
    destruct (Z.ltb_spec 0 (zlen str - bp)); [|lia].
    destruct (Z.ltb_spec cc k); destruct (Z.ltb_spec 0 (k - cc)); try lia; simpl;
      [|lia].
    rewrite byte_at_drop, Z.add_0_r, Z.sub_0_r by lia.
    pose proof (utf8_char_len_range (uint8 (byte_at str bp))).
    destruct (_ >? _); [lia|].
    rewrite IH by lia.
    rewrite (IH (drop bp str) (k - cc) _ 1) by lia.
    rewrite drop_drop by lia.
    replace (k - cc - 1) with (k - (cc + 1)) by lia. lia.
  - rewrite (drop_all bp str) by lia. rewrite zlen_nil. simpl. lia.
Qed.

Lemma utf8_char_to_byte_loop_nil (fuel : nat) (k : Z) :
  utf8_char_to_byte_loop fuel [] k 0 0 = 0.
Proof. destruct fuel; reflexivity. Qed.

Lemma utf8_char_to_byte_loop_step (fuel : nat) (s : list Z) (k : Z) :
  s <> [] ->
  utf8_char_to_byte_loop (S fuel) s k 0 0
  = if 0 <? k then
      if lead_len s >? zlen s then 0
      else lead_len s + utf8_char_to_byte_loop fuel (drop (lead_len s) s) (k - 1) 0 0
    else 0.
Proof.
  intros Hs. simpl.
  assert (0 < zlen s).
  { destruct s; [congruence | rewrite zlen_cons; pose proof (zlen_nonneg s); lia]. }
  destruct (Z.ltb_spec 0 (zlen s)); [|lia].
  destruct (Z.ltb_spec 0 k); simpl; [|reflexivity].
  rewrite Z.sub_0_r. fold (lead_len s).
  pose proof (lead_len_range s).
  destruct (_ >? _); [reflexivity|].
  rewrite utf8_char_to_byte_loop_shift by lia.
  rewrite ?Z.add_0_l, ?Z.sub_0_r. reflexivity.
Qed.

Lemma utf8_char_to_byte_loop_fuel (f1 : nat) :
  forall f2 s k, (length s <= f1)%nat -> (length s <= f2)%nat ->
    utf8_char_to_byte_loop f1 s k 0 0 = utf8_char_to_byte_loop f2 s k 0 0.
Proof.
  induction f1 as [|f1 IH]; intros f2 s k H1 H2.
  - destruct s; [|simpl in H1; lia]. now rewrite !utf8_char_to_byte_loop_nil.
  - destruct s as [|b s']; [now rewrite !utf8_char_to_byte_loop_nil|].
    destruct f2 as [|f2]; [simpl in H2; lia|].
    rewrite !utf8_char_to_byte_loop_step by discriminate.
    destruct (0 <? k); [|reflexivity].
    destruct (_ >? _); [reflexivity|].
    f_equal. pose proof (lead_len_range (b :: s')).
    apply IH; unfold drop; rewrite length_skipn; simpl length in *; lia.
Qed.

Lemma utf8_char_to_byte_nil (k : Z) : utf8_char_to_byte [] k = 0.
Proof. reflexivity. Qed.

Lemma utf8_char_to_byte_step (s : list Z) (k : Z) :
  s <> [] ->
  utf8_char_to_byte s k
  = if 0 <? k then
      if lead_len s >? zlen s then 0
      else lead_len s + utf8_char_to_byte (drop (lead_len s) s) (k - 1)
    else 0.
Proof.
  intros Hs. unfold utf8_char_to_byte.
  destruct s as [|b s']; [congruence|].
  simpl length. rewrite utf8_char_to_byte_loop_step by discriminate.
  destruct (0 <? k); [|reflexivity].
  destruct (_ >? _); [reflexivity|].
  f_equal. pose proof (lead_len_range (b :: s')).
  apply utf8_char_to_byte_loop_fuel; unfold drop; rewrite length_skipn;
    simpl length; lia.
Qed.

(** *** [utf8_byte_to_char] *)

Lemma utf8_byte_to_char_loop_shift (fuel : nat) :
  forall str byte_pos char_pos current_byte, 0 <= current_byte ->
    utf8_byte_to_char_loop fuel str byte_pos char_pos current_byte
    = char_pos
      + utf8_byte_to_char_loop fuel (drop current_byte str)
          (byte_pos - current_byte) 0 0.
Proof.
  induction fuel as [|fuel IH]; intros str bp cp cb Hcb; simpl; [lia|].
  destruct (Z.ltb_spec cb (zlen str)) as [Hlt|Hge].
  - rewrite (zlen_drop cb str) by lia.
    destruct (Z.ltb_spec 0 (zlen str - cb)); [|lia].
    destruct (Z.ltb_spec cb bp); destruct (Z.ltb_spec 0 (bp - cb)); try lia; simpl;
      [|lia].
    rewrite byte_at_drop, Z.add_0_r, Z.sub_0_r by lia.
    pose proof (utf8_char_len_range (uint8 (byte_at str cb))).
    destruct (_ >? _); [lia|].
    rewrite !Z.gtb_ltb.
    destruct (Z.ltb_spec bp (cb + utf8_char_len (uint8 (byte_at str cb))));
      destruct (Z.ltb_spec (bp - cb) (utf8_char_len (uint8 (byte_at str cb))));
      try lia.
    rewrite IH by lia.
    rewrite (IH (drop cb str) (bp - cb) 1 _) by lia.
    rewrite drop_drop by lia.
    replace (bp - cb - utf8_char_len (uint8 (byte_at str cb)))
      with (bp - (cb + utf8_char_len (uint8 (byte_at str cb)))) by lia. lia.
  - rewrite (drop_all cb str) by lia. rewrite zlen_nil.
    rewrite !andb_false_r. lia.
Qed.

Lemma utf8_byte_to_char_loop_nil (fuel : nat) (b : Z) :
  utf8_byte_to_char_loop fuel [] b 0 0 = 0.
Proof. destruct fuel; simpl; [|rewrite andb_false_r]; reflexivity. Qed.

Lemma utf8_byte_to_char_loop_step (fuel : nat) (s : list Z) (b : Z) :
  s <> [] ->
  utf8_byte_to_char_loop (S fuel) s b 0 0
  = if 0 <? b then
      if lead_len s >? zlen s then 0
      else if lead_len s >? b then 0
      else 1 + utf8_byte_to_char_loop fuel (drop (lead_len s) s) (b - lead_len s) 0 0
    else 0.
Proof.
  intros Hs. simpl.
  assert (0 < zlen s).
  { destruct s; [congruence | rewrite zlen_cons; pose proof (zlen_nonneg s); lia]. }
  destruct (Z.ltb_spec 0 (zlen s)); [|lia].
  destruct (Z.ltb_spec 0 b); simpl; [|reflexivity].
  rewrite Z.sub_0_r. fold (lead_len s).
  pose proof (lead_len_range s).
  destruct (_ >? _); [reflexivity|].
  rewrite ?Z.add_0_l.
  destruct (_ >? _); [reflexivity|].
  rewrite utf8_byte_to_char_loop_shift by lia.
  rewrite ?Z.add_0_l, ?Z.sub_0_r. reflexivity.
Qed.

Lemma utf8_byte_to_char_loop_fuel (f1 : nat) :
  forall f2 s b, (length s <= f1)%nat -> (length s <= f2)%nat ->
    utf8_byte_to_char_loop f1 s b 0 0 = utf8_byte_to_char_loop f2 s b 0 0.
Proof.
  induction f1 as [|f1 IH]; intros f2 s b H1 H2.
  - destruct s; [|simpl in H1; lia]. now rewrite !utf8_byte_to_char_loop_nil.
  - destruct s as [|c s']; [now rewrite !utf8_byte_to_char_loop_nil|].
    destruct f2 as [|f2]; [simpl in H2; lia|].
    rewrite !utf8_byte_to_char_loop_step by discriminate.
    destruct (0 <? b); [|reflexivity].
    destruct (_ >? _); [reflexivity|].
    destruct (_ >? _); [reflexivity|].
    f_equal. pose proof (lead_len_range (c :: s')).
    apply IH; unfold drop; rewrite length_skipn; simpl length in *; lia.
Qed.

Lemma byte_to_char_scan_nil (b : Z) : byte_to_char_scan [] b = 0.
Proof. reflexivity. Qed.

Lemma byte_to_char_scan_step (s : list Z) (b : Z) :
  s <> [] ->
  byte_to_char_scan s b
  = if 0 <? b then
      if lead_len s >? zlen s then 0
      else if lead_len s >? b then 0
      else 1 + byte_to_char_scan (drop (lead_len s) s) (b - lead_len s)
    else 0.
Proof.
  intros Hs. unfold byte_to_char_scan.
  destruct s as [|c s']; [congruence|].
  simpl length. rewrite utf8_byte_to_char_loop_step by discriminate.
  destruct (0 <? b); [|reflexivity].
  destruct (_ >? _); [reflexivity|].
  destruct (_ >? _); [reflexivity|].
  f_equal. pose proof (lead_len_range (c :: s')).
  apply utf8_byte_to_char_loop_fuel; unfold drop; rewrite length_skipn;
    simpl length; lia.
Qed.

(** ** Content and metric consistency of a tree *)

Lemma is_null_true (n : rope_node_t) : is_null n = true <-> n = NULL.
Proof. destruct n; simpl; split; congruence. Qed.

Lemma is_null_false (n : rope_node_t) : is_null n = false <-> n <> NULL.
Proof. destruct n; simpl; split; congruence. Qed.

Lemma tree_chars_nonneg (t : rope_node_t) : 0 <= tree_chars t.
Proof.
  induction t; simpl; try lia.
  apply utf8_char_count_nonneg.
Qed.

Lemma wf_totals (t : rope_node_t) :
  tree_wf t ->
  node_byte_len t = zlen (node_bytes t)
  /\ node_char_len t = tree_chars t
  /\ node_newline_count t = count_newlines (node_bytes t).
Proof.
  induction t as [|c bw cw nw d cl nl|c bw cw nw l IHl r IHr]; simpl.
  - auto.
  - intros (-> & -> & -> & -> & ->); auto.
  - intros (-> & -> & -> & _ & _ & Hl & Hr).
    destruct (IHr Hr) as (-> & -> & ->).
    rewrite zlen_app, count_newlines_app; auto.
Qed.

Lemma weighed_wf (c : rb_color_t) (l r : rope_node_t) :
  tree_wf l -> tree_wf r -> l <> NULL -> r <> NULL -> tree_wf (weighed c l r).
Proof.
  intros Hl Hr Nl Nr; simpl.
  destruct (wf_totals l Hl) as (-> & -> & ->); auto 10.
Qed.

Lemma wf_branch (c : rb_color_t) (bw cw nw : Z) (l r : rope_node_t) :
  tree_wf (Branch c bw cw nw l r) ->
  Branch c bw cw nw l r = weighed c l r
  /\ tree_wf l /\ tree_wf r /\ l <> NULL /\ r <> NULL.
Proof.
  simpl; intros (-> & -> & -> & Nl & Nr & Hl & Hr).
  unfold weighed; destruct (wf_totals l Hl) as (-> & -> & ->); auto.
Qed.

Lemma node_update_weights_branch (c : rb_color_t) (bw cw nw : Z) (l r : rope_node_t) :
  node_update_weights (Branch c bw cw nw l r) = weighed c l r.
Proof. simpl; destruct l; reflexivity. Qed.

Lemma node_new_branch_weighed (l r : rope_node_t) :
  tree_wf l -> l <> NULL -> node_new_branch l r = weighed RB_RED l r.
Proof.
  destruct l as [|c bw cw nw d cl nl|c bw cw nw ll lr]; intros Hl Nl.
  - congruence.
  - simpl in Hl; destruct Hl as (-> & -> & -> & -> & ->); reflexivity.
  - unfold node_new_branch, weighed; simpl.
    destruct lr; reflexivity.
Qed.

Lemma node_new_leaf_wf (str : list Z) : tree_wf (node_new_leaf str).
Proof. simpl; auto. Qed.

(** Colour changes touch nothing else. *)
Lemma node_set_color_bytes (n : rope_node_t) (c : rb_color_t) :
  node_bytes (node_set_color n c) = node_bytes n.
Proof. destruct n; reflexivity. Qed.

Lemma node_set_color_chars (n : rope_node_t) (c : rb_color_t) :
  tree_chars (node_set_color n c) = tree_chars n.
Proof. destruct n; reflexivity. Qed.

Lemma node_set_color_wf (n : rope_node_t) (c : rb_color_t) :
  tree_wf (node_set_color n c) <-> tree_wf n.
Proof. destruct n; simpl; tauto. Qed.

Lemma node_set_color_null (n : rope_node_t) (c : rb_color_t) :
  node_set_color n c = NULL <-> n = NULL.
Proof. destruct n; simpl; split; congruence. Qed.

Lemma same_refl (a : rope_node_t) : tree_wf a -> a <> NULL -> same a a.
Proof. unfold same; auto. Qed.

Lemma same_trans (a b c : rope_node_t) : same a b -> same b c -> same a c.
Proof. unfold same; intros (?&?&?&?) (?&?&?&?); repeat split; congruence. Qed.

Lemma rotate_left_same (n : rope_node_t) :
  tree_wf n -> n <> NULL -> same n (rotate_left n).
Proof.
  intros Hn Nn.
  destruct n as [|? ? ? ? ? ? ?|c bw cw nw l r]; try (apply same_refl; assumption).
  destruct r as [|? ? ? ? ? ? ?|rc rbw rcw rnw rl rr]; try (apply same_refl; assumption).
  destruct (wf_branch _ _ _ _ _ _ Hn) as (_ & Hl & Hr & Nl & _).
  destruct (wf_branch _ _ _ _ _ _ Hr) as (_ & Hrl & Hrr & Nrl & Nrr).
  unfold rotate_left. rewrite !node_update_weights_branch.
  assert (Hin : tree_wf (weighed RB_RED l rl)) by (apply weighed_wf; assumption).
  split; [|split; [|split]].
  - apply weighed_wf; try assumption. discriminate.
  - discriminate.
  - simpl. now rewrite app_assoc.
  - simpl. lia.
Qed.

Lemma rotate_right_same (n : rope_node_t) :
  tree_wf n -> n <> NULL -> same n (rotate_right n).
Proof.
  intros Hn Nn.
  destruct n as [|? ? ? ? ? ? ?|c bw cw nw l r]; try (apply same_refl; assumption).
  destruct l as [|? ? ? ? ? ? ?|lc lbw lcw lnw ll lr]; try (apply same_refl; assumption).
  destruct (wf_branch _ _ _ _ _ _ Hn) as (_ & Hl & Hr & _ & Nr).
  destruct (wf_branch _ _ _ _ _ _ Hl) as (_ & Hll & Hlr & Nll & Nlr).
  unfold rotate_right. rewrite !node_update_weights_branch.
  assert (Hin : tree_wf (weighed RB_RED lr r)) by (apply weighed_wf; assumption).
  split; [|split; [|split]].
  - apply weighed_wf; try assumption. discriminate.
  - discriminate.
  - simpl. now rewrite app_assoc.
  - simpl. lia.
Qed.

Lemma flip_colors_same (n : rope_node_t) :
  tree_wf n -> n <> NULL -> same n (flip_colors n).
Proof.
  intros Hn Nn.
  destruct n as [|? ? ? ? ? ? ?|c bw cw nw l r]; try (apply same_refl; assumption).
  simpl in Hn. destruct Hn as (-> & -> & -> & Nl & Nr & Hl & Hr).
  unfold flip_colors, same; simpl.
  rewrite !node_set_color_bytes, !node_set_color_chars, !node_set_color_wf,
    !node_set_color_null.
  repeat split; auto; discriminate.
Qed.

Lemma same_if (b : bool) (f : rope_node_t -> rope_node_t) (a n : rope_node_t) :
  (forall m, tree_wf m -> m <> NULL -> same m (f m)) ->
  same a n -> same a (if b then f n else n).
Proof.
  intros Hf Han. destruct b; [|assumption].
  eapply same_trans; [exact Han|]. apply Hf; apply Han.
Qed.

Lemma balance_same (n : rope_node_t) :
  tree_wf n -> n <> NULL -> same n (balance n).
Proof.
  intros Hn Nn.
  destruct n as [|? ? ? ? ? ? ?|c bw cw nw l r]; try (apply same_refl; assumption).
  unfold balance.
  apply same_if; [exact flip_colors_same|].
  apply same_if; [exact rotate_right_same|].
  apply same_if; [exact rotate_left_same|].
  apply same_refl; assumption.
Qed.

(** ** Insertion into a tree *)

Arguments balance : simpl never.
Arguments node_new_branch : simpl never.
Arguments node_new_leaf : simpl never.
Arguments node_update_weights : simpl never.

Lemma node_new_branch_same (l r : rope_node_t) :
  tree_wf l -> tree_wf r -> l <> NULL -> r <> NULL ->
  tree_wf (node_new_branch l r)
  /\ node_bytes (node_new_branch l r) = node_bytes l ++ node_bytes r
  /\ tree_chars (node_new_branch l r) = tree_chars l + tree_chars r.
Proof.
  intros Hl Hr Nl Nr. rewrite node_new_branch_weighed by assumption.
  split; [apply weighed_wf; assumption | split; reflexivity].
Qed.

Lemma node_new_branch_not_null (l r : rope_node_t) : node_new_branch l r <> NULL.
Proof. destruct l; discriminate. Qed.

Lemma node_new_leaf_not_null (str : list Z) : node_new_leaf str <> NULL.
Proof. discriminate. Qed.

Lemma node_insert_bytes_spec (str : list Z) (t : rope_node_t) :
  forall p, tree_wf t -> t <> NULL ->
    tree_wf (node_insert_bytes t p str)
    /\ node_insert_bytes t p str <> NULL
    /\ node_bytes (node_insert_bytes t p str)
       = take p (node_bytes t) ++ str ++ drop p (node_bytes t)
    /\ (insert_aligned t p ->
        tree_chars (node_insert_bytes t p str) = tree_chars t + utf8_char_count str).
Proof.
  induction t as [|c bw cw nw d cl nl|c bw cw nw l IHl r IHr]; intros p Ht Nt.
  - congruence.
  - pose proof (node_new_leaf_wf str) as Hs.
    pose proof (node_new_leaf_not_null str) as Ns.
    set (leaf := Leaf c bw cw nw d cl nl) in *.
    assert (Hfin : forall n bs ch,
               tree_wf n -> n <> NULL -> node_bytes n = bs ->
               (insert_aligned leaf p -> tree_chars n = ch) ->
               tree_wf (balance n) /\ balance n <> NULL
               /\ node_bytes (balance n) = bs
               /\ (insert_aligned leaf p -> tree_chars (balance n) = ch)).
    { intros n bs ch Hn Nn Hb Hc.
      destruct (balance_same n Hn Nn) as (? & ? & ? & ?).
      repeat split; try assumption; try congruence.
      intros Ha; rewrite <- (Hc Ha); assumption. }
    change (node_bytes leaf) with d. change (tree_chars leaf) with (utf8_char_count d).
    simpl node_insert_bytes. fold leaf.
    destruct (Z.eqb_spec p 0) as [->|Hp0].
    + destruct (node_new_branch_same (node_new_leaf str) leaf Hs Ht Ns Nt)
        as (Hw & Hb & Hc).
      apply Hfin; [assumption | apply node_new_branch_not_null | |].
      * rewrite Hb. reflexivity.
      * intros _. rewrite Hc. simpl. lia.
    + rewrite Z.geb_leb. destruct (Z.leb_spec (zlen d) p) as [Hge|Hlt].
      * destruct (node_new_branch_same leaf (node_new_leaf str) Ht Hs Nt Ns)
          as (Hw & Hb & Hc).
        apply Hfin; [assumption | apply node_new_branch_not_null | |].
        -- rewrite Hb, take_all, drop_all by lia. simpl. now rewrite app_nil_r.
        -- intros _. rewrite Hc. simpl. lia.
      * pose proof (node_new_leaf_wf (take p d)) as Ha.
        pose proof (node_new_leaf_wf (drop p d)) as Hd.
        destruct (node_new_branch_same (node_new_leaf (take p d)) (node_new_leaf str)
                    Ha Hs (node_new_leaf_not_null _) Ns) as (Hw1 & Hb1 & Hc1).
        destruct (node_new_branch_same _ (node_new_leaf (drop p d))
                    Hw1 Hd (node_new_branch_not_null _ _) (node_new_leaf_not_null _))
          as (Hw & Hb & Hc).
        apply Hfin; [assumption | apply node_new_branch_not_null | |].
        -- rewrite Hb, Hb1. simpl. now rewrite <- app_assoc.
        -- intros Hal. rewrite Hc, Hc1. simpl in *. lia.
  - destruct (wf_branch _ _ _ _ _ _ Ht) as (_ & Hl & Hr & Nl & Nr).
    simpl in Ht. destruct Ht as (Hbw & _).
    simpl node_insert_bytes.
    assert (Hfin : forall l' r' bs ch,
               tree_wf l' -> tree_wf r' -> l' <> NULL -> r' <> NULL ->
               node_bytes l' ++ node_bytes r' = bs ->
               (insert_aligned (Branch c bw cw nw l r) p ->
                tree_chars l' + tree_chars r' = ch) ->
               let n := balance (node_update_weights (Branch c bw cw nw l' r')) in
               tree_wf n /\ n <> NULL /\ node_bytes n = bs
               /\ (insert_aligned (Branch c bw cw nw l r) p -> tree_chars n = ch)).
    { intros l' r' bs ch Hl' Hr' Nl' Nr' Hb Hc n. subst n.
      rewrite node_update_weights_branch.
      destruct (balance_same (weighed c l' r')) as (? & ? & ? & ?);
        [apply weighed_wf; assumption | discriminate |].
      repeat split; try assumption; try (simpl in *; congruence).
      intros Ha; rewrite <- (Hc Ha); assumption. }
    simpl node_bytes. simpl tree_chars.
    destruct (Z.leb_spec p bw) as [Hle|Hgt].
    + destruct (IHl p Hl Nl) as (Hw & Nn & Hb & Hc).
      apply Hfin; try assumption.
      * rewrite Hb, take_app_l, drop_app_l by lia. now rewrite <- !app_assoc.
      * simpl. destruct (Z.leb_spec p bw); [|lia]. intros Ha. rewrite (Hc Ha). lia.
    + destruct (IHr (p - bw) Hr Nr) as (Hw & Nn & Hb & Hc).
      apply Hfin; try assumption.
      * rewrite Hb, take_app_r, drop_app_r by lia. rewrite Hbw. now rewrite <- !app_assoc.
      * simpl. destruct (Z.leb_spec p bw); [lia|]. intros Ha. rewrite (Hc Ha). lia.
Qed.

(** ** Splitting a tree *)

Lemma split_leaf_spec (c : rb_color_t) (bw cw nw : Z) (d : list Z) (cl nl p : Z) :
  let leaf := Leaf c bw cw nw d cl nl in
  tree_wf leaf ->
  tree_wf (fst (split_leaf leaf p)) /\ tree_wf (snd (split_leaf leaf p))
  /\ node_bytes (fst (split_leaf leaf p)) = take p d
  /\ node_bytes (snd (split_leaf leaf p)) = drop p d.
Proof.
  intros leaf Hw. unfold split_leaf, leaf.
  destruct (Z.eqb_spec p 0) as [->|Hp0]; simpl fst; simpl snd.
  - repeat split; simpl; auto; apply Hw.
  - rewrite Z.geb_leb. destruct (Z.leb_spec (zlen d) p); simpl fst; simpl snd.
    + simpl node_bytes. rewrite take_all, drop_all by lia.
      repeat split; simpl; auto; apply Hw.
    + repeat split; simpl; auto.
Qed.

Lemma node_split_recursive_spec (t : rope_node_t) :
  forall p, tree_wf t ->
    tree_wf (fst (node_split_recursive t p))
    /\ tree_wf (snd (node_split_recursive t p))
    /\ node_bytes (fst (node_split_recursive t p)) = take p (node_bytes t)
    /\ node_bytes (snd (node_split_recursive t p)) = drop p (node_bytes t).
Proof.
  induction t as [|c bw cw nw d cl nl|c bw cw nw l IHl r IHr]; intros p Ht.
  - simpl. unfold take, drop. rewrite firstn_nil, skipn_nil. auto.
  - apply split_leaf_spec; assumption.
  - destruct (wf_branch _ _ _ _ _ _ Ht) as (_ & Hl & Hr & Nl & Nr).
    simpl in Ht. destruct Ht as (Hbw & _).
    simpl node_split_recursive. simpl node_bytes.
    destruct (Z.leb_spec p bw) as [Hle|Hgt].
    + destruct (IHl p Hl) as (Hw1 & Hw2 & Hb1 & Hb2).
      destruct (node_split_recursive l p) as [ll lr]. simpl fst in *; simpl snd in *.
      rewrite take_app_l, drop_app_l by lia.
      destruct (is_null lr) eqn:Elr; simpl.
      * apply is_null_true in Elr. subst lr. simpl in Hb2. rewrite <- Hb2.
        repeat split; auto.
      * apply is_null_false in Elr.
        destruct (is_null r) eqn:Er; [apply is_null_true in Er; congruence|].
        simpl. rewrite node_set_color_wf, node_set_color_bytes.
        destruct (node_new_branch_same lr r Hw2 Hr Elr Nr) as (Hw & Hb & _).
        rewrite Hb, Hb2. auto.
    + destruct (IHr (p - bw) Hr) as (Hw1 & Hw2 & Hb1 & Hb2).
      destruct (node_split_recursive r (p - bw)) as [rl rr].
      simpl fst in *; simpl snd in *.
      rewrite take_app_r, drop_app_r by lia. rewrite <- Hbw.
      destruct (is_null rl) eqn:Erl; simpl.
      * apply is_null_true in Erl. subst rl. simpl in Hb1. rewrite <- Hb1, app_nil_r.
        repeat split; auto.
      * apply is_null_false in Erl.
        destruct (is_null l) eqn:El; [apply is_null_true in El; congruence|].
        simpl. rewrite node_set_color_wf, node_set_color_bytes.
        destruct (node_new_branch_same l rl Hl Hw1 Nl Erl) as (Hw & Hb & _).
        rewrite Hb, Hb1. auto.
Qed.

(** ** Consistency of a rope handle *)

Lemma rope_new_consistent (full : bool) : consistent full rope_new.
Proof. unfold consistent; simpl; auto. Qed.

Lemma rope_new_from_str_consistent (full : bool) (str : list Z) :
  consistent full (rope_new_from_str str).
Proof.
  unfold rope_new_from_str.
  destruct (zlen str >? 0); [|apply rope_new_consistent].
  unfold consistent; simpl; auto 10.
Qed.

Lemma rope_of_tree_consistent (full : bool) (t : rope_node_t) :
  tree_wf t -> consistent full (rope_of_tree t).
Proof.
  intros Ht. unfold rope_of_tree.
  destruct (is_null t); [apply rope_new_consistent|].
  assert (Hc : tree_wf (node_set_color t RB_BLACK)) by now apply node_set_color_wf.
  destruct (wf_totals _ Hc) as (Hb & Hch & Hn).
  unfold consistent; simpl. auto.
Qed.

Lemma rope_of_tree_bytes (t : rope_node_t) :
  node_bytes (root (rope_of_tree t)) = node_bytes t.
Proof.
  unfold rope_of_tree. destruct (is_null t) eqn:E.
  - apply is_null_true in E; subst; reflexivity.
  - simpl. apply node_set_color_bytes.
Qed.

Lemma consistent_root_not_null (full : bool) (r : rope_t) :
  consistent full r -> byte_len r <> 0 -> root r <> NULL.
Proof.
  intros (_ & Hb & _) Hne E. rewrite E in Hb. simpl in Hb.
  rewrite zlen_nil in Hb. contradiction.
Qed.

(** *** Split *)

Lemma rope_split_bytes_spec (full : bool) (rope : option rope_t) (p : Z) :
  handle_ok full rope ->
  handle_ok full (fst (rope_split_bytes rope p))
  /\ handle_ok full (snd (rope_split_bytes rope p))
  /\ (0 <= p ->
      rope_bytes (fst (rope_split_bytes rope p)) = take p (rope_bytes rope)
      /\ rope_bytes (snd (rope_split_bytes rope p)) = drop p (rope_bytes rope)).
Proof.
  destruct rope as [r|]; simpl; [|intros _; unfold take, drop;
                                  rewrite firstn_nil, skipn_nil; auto].
  intros Hr.
  destruct (Z.eqb_spec p 0) as [->|Hp0]; simpl.
  - split; [apply rope_new_consistent | split; [assumption | auto]].
  - rewrite Z.geb_leb. destruct (Z.leb_spec (byte_len r) p) as [Hge|Hlt]; simpl.
    + split; [assumption | split; [apply rope_new_consistent |]].
      destruct Hr as (Hw & Hb & Hrest).
      rewrite take_all, drop_all by lia. auto.
    + destruct Hr as (Hw & Hb & Hrest).
      destruct (node_split_recursive_spec (root r) p Hw) as (H1 & H2 & H3 & H4).
      destruct (node_split_recursive (root r) p) as [lt rt]; simpl in *.
      rewrite !rope_of_tree_bytes.
      split; [now apply rope_of_tree_consistent |
              split; [now apply rope_of_tree_consistent | auto]].
Qed.

(** *** Concatenation *)

Lemma rope_concat_spec (full : bool) (a b : option rope_t) :
  handle_ok full a -> handle_ok full b ->
  handle_ok full (rope_concat a b)
  /\ rope_bytes (rope_concat a b) = rope_bytes a ++ rope_bytes b.
Proof.
  intros Ha Hb. unfold rope_concat.
  destruct a as [l|]; [|simpl; auto].
  destruct (Z.eqb_spec (byte_len l) 0) as [El|Nl].
  { split; [assumption|]. simpl. destruct Ha as (_ & Hbl & _).
    rewrite El in Hbl. symmetry in Hbl. apply zlen_zero in Hbl. now rewrite Hbl. }
  destruct b as [r|]; [|simpl; rewrite app_nil_r; auto].
  destruct (Z.eqb_spec (byte_len r) 0) as [Er|Nr].
  { split; [assumption|]. simpl. destruct Hb as (_ & Hbr & _).
    rewrite Er in Hbr. symmetry in Hbr. apply zlen_zero in Hbr.
    now rewrite Hbr, app_nil_r. }
  pose proof (consistent_root_not_null _ _ Ha Nl) as Rl.
  pose proof (consistent_root_not_null _ _ Hb Nr) as Rr.
  destruct Ha as (Wl & Bl & Ll & Cl). destruct Hb as (Wr & Br & Lr & Cr).
  destruct (node_new_branch_same _ _ Wl Wr Rl Rr) as (Hw & Hby & Hch).
  unfold handle_ok, consistent; simpl.
  rewrite node_set_color_wf, node_set_color_bytes, node_set_color_chars.
  rewrite Hby, Hch, zlen_app, count_newlines_app.
  split; [|reflexivity].
  split; [assumption|]. split; [lia|]. split; [lia|].
  intros Hf. rewrite (Cl Hf), (Cr Hf). reflexivity.
Qed.

(** *** Insertion *)

Lemma rope_insert_bytes_spec (full : bool) (rope : option rope_t) (p : Z) (str : list Z) :
  handle_ok full rope ->
  (full = true -> rope_insert_aligned rope p) ->
  handle_ok full (rope_insert_bytes rope p str)
  /\ (0 <= p -> rope <> None ->
      rope_bytes (rope_insert_bytes rope p str)
      = take p (rope_bytes rope) ++ str ++ drop p (rope_bytes rope)).
Proof.
  destruct rope as [r|]; [|simpl; intros _ _; split; [exact I | congruence]].
  intros Hr Hal. unfold rope_insert_bytes.
  destruct (Z.eqb_spec (zlen str) 0) as [E|Ne].
  { split; [assumption|]. intros _ _. apply zlen_zero in E. subst str.
    simpl. now rewrite take_drop. }
  fold (clamp_pos r p).
  destruct Hr as (Hw & Hb & Hn & Hc).
  destruct (is_null (root r)) eqn:Enull.
  - apply is_null_true in Enull.
    unfold handle_ok, consistent, rope_bytes; simpl. rewrite Enull in *. simpl in *.
    rewrite zlen_nil in Hb.
    split; [split; [auto | split; [lia | split; [lia|]]]|].
    + intros Hf. rewrite (Hc Hf). lia.
    + intros _ _. unfold take, drop. rewrite firstn_nil, skipn_nil. simpl.
      now rewrite app_nil_r.
  - apply is_null_false in Enull.
    destruct (node_insert_bytes_spec str (root r) (clamp_pos r p) Hw Enull)
      as (Hw' & Nn & Hby & Hch).
    unfold handle_ok, consistent; simpl.
    rewrite node_set_color_wf, node_set_color_bytes, node_set_color_chars.
    assert (Hlen : zlen (node_bytes (node_insert_bytes (root r) (clamp_pos r p) str))
                   = byte_len r + zlen str).
    { rewrite Hby, !zlen_app, Hb.
      rewrite <- (take_drop (clamp_pos r p) (node_bytes (root r))) at 3.
      rewrite zlen_app. lia. }
    assert (Hnl : count_newlines (node_bytes (node_insert_bytes (root r) (clamp_pos r p) str))
                  = newlines r + count_newlines str).
    { rewrite Hby, !count_newlines_app, Hn.
      rewrite <- (count_newlines_take_drop (clamp_pos r p) (node_bytes (root r))). lia. }
    split; [split; [assumption | split; [lia | split; [lia|]]]|].
    + intros Hf. rewrite (Hc Hf). symmetry. apply Hch. apply (Hal Hf).
    + intros Hp _. rewrite Hby. unfold clamp_pos. rewrite Z.gtb_ltb.
      destruct (Z.ltb_spec (byte_len r) p); [|reflexivity].
      rewrite !take_all, !drop_all by lia. reflexivity.
Qed.

(** *** Deletion *)

Lemma rope_delete_bytes_ok (full : bool) (rope : option rope_t) (start len : Z) :
  handle_ok full rope -> handle_ok full (rope_delete_bytes rope start len).
Proof.
  destruct rope as [r|]; [|simpl; auto].
  intros Hr. unfold rope_delete_bytes.
  destruct (start >=? byte_len r); [assumption|].
  set (len' := if _ >? _ then _ else _).
  destruct (len' =? 0); [assumption|].
  destruct (rope_split_bytes_spec full (Some r) start Hr) as (H1 & H2 & _).
  destruct (rope_split_bytes (Some r) start) as [rope1 right_rope]. simpl in H1, H2.
  destruct right_rope as [rr|]; [|assumption].
  destruct (rope_split_bytes_spec full (Some rr) len' H2) as (_ & H3 & _).
  destruct (rope_split_bytes (Some rr) len') as [mid rightmost]. simpl in H3.
  destruct rightmost as [rm|]; [|assumption].
  apply rope_concat_spec; assumption.
Qed.

(** ** Character positions inside one leaf *)

Lemma take_add (a b : Z) (s : list Z) :
  0 <= a <= zlen s -> 0 <= b -> take (a + b) s = take a s ++ take b (drop a s).
Proof.
  intros Ha Hb.
  rewrite <- (take_drop a s) at 1.
  rewrite take_app_r by (rewrite zlen_take; lia).
  rewrite zlen_take by lia. do 2 f_equal. lia.
Qed.

Lemma nonempty_zlen (s : list Z) : s <> [] -> 0 < zlen s.
Proof.
  destruct s; [congruence | intros _; rewrite zlen_cons; pose proof (zlen_nonneg s); lia].
Qed.

Lemma lead_len_take (k : Z) (s : list Z) : 0 < k -> lead_len (take k s) = lead_len s.
Proof.
  intros Hk. unfold lead_len, byte_at, take.
  destruct s as [|b s']; [now rewrite firstn_nil|].
  destruct (Z.to_nat k) eqn:E; [lia | reflexivity].
Qed.

(** A whole character in front of [x] counts for one. *)
Lemma utf8_char_count_lead_app (s x : list Z) :
  s <> [] -> lead_len s <= zlen s ->
  utf8_char_count (take (lead_len s) s ++ x) = 1 + utf8_char_count x.
Proof.
  intros Hs Hle. pose proof (lead_len_range s) as Hr.
  assert (Hz : zlen (take (lead_len s) s) = lead_len s) by (apply zlen_take; lia).
  assert (Hne : take (lead_len s) s <> []).
  { intros E. rewrite E, zlen_nil in Hz. lia. }
  rewrite utf8_char_count_step.
  2:{ intros E. apply app_eq_nil in E. tauto. }
  rewrite lead_len_app, lead_len_take by (assumption || lia).
  rewrite drop_app_r by lia. rewrite Hz, Z.sub_diag, drop_0 by lia. reflexivity.
Qed.

Lemma utf8_char_to_byte_props (s : list Z) :
  forall k,
    0 <= utf8_char_to_byte s k <= zlen s
    /\ utf8_char_count (take (utf8_char_to_byte s k) s)
       + utf8_char_count (drop (utf8_char_to_byte s k) s)
       = utf8_char_count s.
Proof.
  induction s as [|s Hs IH] using utf8_ind; intros k.
  - rewrite utf8_char_to_byte_nil, zlen_nil. split; [lia | reflexivity].
  - pose proof (nonempty_zlen s Hs) as Hlen.
    pose proof (lead_len_range s) as Hr.
    assert (H0 : utf8_char_count (take 0 s) + utf8_char_count (drop 0 s)
                 = utf8_char_count s) by reflexivity.
    rewrite utf8_char_to_byte_step by assumption.
    destruct (Z.ltb_spec 0 k); [|split; [lia | exact H0]].
    rewrite Z.gtb_ltb. destruct (Z.ltb_spec (zlen s) (lead_len s));
      [split; [lia | exact H0]|].
    destruct (IH (k - 1)) as (Hb & Hc).
    rewrite zlen_drop in Hb by lia.
    set (p' := utf8_char_to_byte (drop (lead_len s) s) (k - 1)) in *.
    split; [lia|].
    rewrite take_add by lia.
    rewrite utf8_char_count_lead_app by assumption.
    rewrite <- drop_drop by lia.
    rewrite (utf8_char_count_step s) by assumption. lia.
Qed.

Lemma utf8_char_to_byte_roundtrip (s : list Z) :
  forall k, 0 <= k < utf8_char_count s ->
    utf8_char_to_byte s k < zlen s
    /\ byte_to_char_scan s (utf8_char_to_byte s k) = k.
Proof.
  induction s as [|s Hs IH] using utf8_ind; intros k Hk.
  - rewrite utf8_char_count_nil in Hk. lia.
  - pose proof (nonempty_zlen s Hs) as Hlen.
    pose proof (lead_len_range s) as Hr.
    rewrite utf8_char_to_byte_step by assumption.
    rewrite utf8_char_count_step in Hk by assumption.
    destruct (Z.ltb_spec 0 k) as [Hpos|Hz].
    + rewrite Z.gtb_ltb. destruct (Z.ltb_spec (zlen s) (lead_len s)) as [Hcut|Hfit].
      * rewrite drop_all, utf8_char_count_nil in Hk by lia. lia.
      * destruct (IH (k - 1)) as (Hb & Hc); [lia|].
        rewrite zlen_drop in Hb by lia.
        destruct (utf8_char_to_byte_props (drop (lead_len s) s) (k - 1)) as ((Hp0 & _) & _).
        set (p' := utf8_char_to_byte (drop (lead_len s) s) (k - 1)) in *.
        split; [lia|].
        rewrite byte_to_char_scan_step by assumption.
        destruct (Z.ltb_spec 0 (lead_len s + p')); [|lia].
        rewrite !Z.gtb_ltb.
        destruct (Z.ltb_spec (zlen s) (lead_len s)); [lia|].
        destruct (Z.ltb_spec (lead_len s + p') (lead_len s)); [lia|].
        replace (lead_len s + p' - lead_len s) with p' by lia.
        rewrite Hc. lia.
    + split; [lia|].
      rewrite byte_to_char_scan_step by assumption.
      destruct (Z.ltb_spec 0 0); [lia|]. lia.
Qed.

(** ** Character positions in a tree *)

Lemma char_to_byte_walk_offset (t : rope_node_t) :
  forall k bo, char_to_byte_walk t k bo = bo + char_to_byte_walk t k 0.
Proof.
  induction t as [|c bw cw nw d cl nl|c bw cw nw l IHl r IHr]; intros k bo; simpl.
  - lia.
  - lia.
  - destruct (k <? cw); [apply IHl|].
    rewrite (IHr _ (bo + bw)), (IHr _ bw). lia.
Qed.

Lemma byte_to_char_walk_offset (t : rope_node_t) :
  forall p co, byte_to_char_walk t p co = co + byte_to_char_walk t p 0.
Proof.
  induction t as [|c bw cw nw d cl nl|c bw cw nw l IHl r IHr]; intros p co; simpl.
  - lia.
  - lia.
  - destruct (p <? bw); [apply IHl|].
    rewrite (IHr _ (co + cw)), (IHr _ cw). lia.
Qed.

(** Inserting at or after the end of a tree never cuts a character. *)
Lemma insert_aligned_end (t : rope_node_t) :
  forall p, tree_wf t -> zlen (node_bytes t) <= p -> insert_aligned t p.
Proof.
  induction t as [|c bw cw nw d cl nl|c bw cw nw l IHl r IHr]; intros p Ht Hp.
  - exact I.
  - simpl in *. rewrite take_all, drop_all by lia.
    rewrite utf8_char_count_nil. lia.
  - destruct (wf_branch _ _ _ _ _ _ Ht) as (_ & Hl & Hr & _ & _).
    simpl in Ht. destruct Ht as (Hbw & _).
    simpl in *. rewrite zlen_app in Hp. pose proof (zlen_nonneg (node_bytes r)).
    destruct (Z.leb_spec p bw); [apply IHl | apply IHr]; auto; lia.
Qed.

Lemma char_to_byte_walk_props (t : rope_node_t) :
  tree_wf t ->
  forall k,
    0 <= char_to_byte_walk t k 0 <= zlen (node_bytes t)
    /\ insert_aligned t (char_to_byte_walk t k 0).
Proof.
  induction t as [|c bw cw nw d cl nl|c bw cw nw l IHl r IHr]; intros Ht k.
  - simpl. rewrite zlen_nil. split; [lia | exact I].
  - simpl. rewrite ?Z.add_0_l. apply utf8_char_to_byte_props.
  - destruct (wf_branch _ _ _ _ _ _ Ht) as (_ & Hl & Hr & _ & _).
    simpl in Ht. destruct Ht as (Hbw & _).
    simpl. rewrite zlen_app.
    pose proof (zlen_nonneg (node_bytes l)). pose proof (zlen_nonneg (node_bytes r)).
    destruct (k <? cw).
    + destruct (IHl Hl k) as (Hb & Ha).
      split; [lia|]. destruct (Z.leb_spec (char_to_byte_walk l k 0) bw); [assumption | lia].
    + rewrite char_to_byte_walk_offset. rewrite ?Z.add_0_l.
      destruct (IHr Hr (k - cw)) as (Hb & Ha).
      split; [lia|].
      destruct (Z.leb_spec (bw + char_to_byte_walk r (k - cw) 0) bw).
      * apply insert_aligned_end; [assumption | lia].
      * replace (bw + char_to_byte_walk r (k - cw) 0 - bw)
          with (char_to_byte_walk r (k - cw) 0) by lia. assumption.
Qed.

Lemma char_to_byte_walk_roundtrip (t : rope_node_t) :
  tree_wf t ->
  forall k, 0 <= k < tree_chars t ->
    char_to_byte_walk t k 0 < zlen (node_bytes t)
    /\ byte_to_char_walk t (char_to_byte_walk t k 0) 0 = k.
Proof.
  induction t as [|c bw cw nw d cl nl|c bw cw nw l IHl r IHr]; intros Ht k Hk.
  - simpl in Hk. lia.
  - simpl in *. rewrite ?Z.add_0_l.
    destruct (utf8_char_to_byte_roundtrip d k Hk) as (Hlt & Hrt).
    split; [assumption|].
    unfold utf8_byte_to_char. rewrite Z.geb_leb.
    destruct (Z.leb_spec (zlen d) (utf8_char_to_byte d k)); [lia | exact Hrt].
  - destruct (wf_branch _ _ _ _ _ _ Ht) as (_ & Hl & Hr & _ & _).
    simpl in Ht. destruct Ht as (Hbw & Hcw & _).
    simpl in *. rewrite zlen_app.
    pose proof (zlen_nonneg (node_bytes l)). pose proof (zlen_nonneg (node_bytes r)).
    destruct (Z.ltb_spec k cw).
    + destruct (IHl Hl k) as (Hlt & Hrt); [lia|].
      split; [lia|].
      destruct (Z.ltb_spec (char_to_byte_walk l k 0) bw); [assumption | lia].
    + rewrite char_to_byte_walk_offset. rewrite ?Z.add_0_l.
      destruct (IHr Hr (k - cw)) as (Hlt & Hrt); [lia|].
      destruct (char_to_byte_walk_props r Hr (k - cw)) as ((Hp0 & _) & _).
      split; [lia|].
      destruct (Z.ltb_spec (bw + char_to_byte_walk r (k - cw) 0) bw); [lia|].
      rewrite byte_to_char_walk_offset.
      replace (bw + char_to_byte_walk r (k - cw) 0 - bw)
        with (char_to_byte_walk r (k - cw) 0) by lia.
      rewrite Hrt. lia.
Qed.

(** The position [rope_char_to_byte] returns is in range and never cuts a
    character of the leaf an insertion there lands in. *)
Lemma rope_char_to_byte_props (full : bool) (r : rope_t) (k : Z) :
  consistent full r ->
  0 <= rope_char_to_byte (Some r) k <= byte_len r
  /\ rope_insert_aligned (Some r) (rope_char_to_byte (Some r) k).
Proof.
  intros (Hw & Hb & _).
  assert (Hcl : forall p, 0 <= p <= byte_len r -> clamp_pos r p = p).
  { intros p Hp. unfold clamp_pos. rewrite Z.gtb_ltb.
    destruct (Z.ltb_spec (byte_len r) p); lia. }
  pose proof (zlen_nonneg (node_bytes (root r))).
  unfold rope_insert_aligned, rope_char_to_byte.
  destruct (k >=? char_len r).
  - split; [lia|]. rewrite Hcl by lia. apply insert_aligned_end; [assumption | lia].
  - destruct (char_to_byte_walk_props (root r) Hw k) as (Hr & Ha).
    split; [lia|]. rewrite Hcl by lia. assumption.
Qed.

(** ** Ropes built by the public operations *)

Lemma reachable_handle_ok (allowed : option rope_t -> Z -> Prop) (full : bool) :
  (full = true -> forall rope p, allowed rope p -> rope_insert_aligned rope p) ->
  forall rope, reachable allowed rope -> handle_ok full rope.
Proof.
  intros allowed_aligned rope.
  induction 1 as [| |str|rope p str _ IH _ Hal|rope k str _ IH _
                  |rope a n _ IH _ _|rope a n _ IH _ _|a b _ IHa _ IHb
                  |rope p _ IH _|rope p _ IH _|rope k _ IH _|rope k _ IH _].
  - exact I.
  - apply rope_new_consistent.
  - apply rope_new_from_str_consistent.
  - apply rope_insert_bytes_spec; [assumption|].
    intros Hf. apply (allowed_aligned Hf). assumption.
  - destruct rope as [r|]; [|exact I].
    apply rope_insert_bytes_spec; [assumption|].
    intros _. apply (rope_char_to_byte_props full r k IH).
  - apply rope_delete_bytes_ok; assumption.
  - destruct rope as [r|]; [|exact I].
    unfold rope_delete_chars.
    destruct (a >=? char_len r); [assumption|].
    apply rope_delete_bytes_ok; assumption.
  - apply rope_concat_spec; assumption.
  - apply rope_split_bytes_spec; assumption.
  - apply rope_split_bytes_spec; assumption.
  - destruct rope as [r|]; [|exact I].
    apply rope_split_bytes_spec; assumption.
  - destruct rope as [r|]; [|exact I].
    apply rope_split_bytes_spec; assumption.
Qed.

(** Whatever the positions, the tree stays metric-consistent and the cached
    byte and newline totals stay those of the tree. *)
Lemma reachable_consistent (rope : option rope_t) :
  reachable any_position rope -> handle_ok false rope.
Proof.
  apply reachable_handle_ok. discriminate.
Qed.

(** ** Flattening a tree with the explicit stack *)

Arguments Z.max : simpl never.

Lemma stack_need_nonneg (t : rope_node_t) : 0 <= stack_need t.
Proof. induction t; simpl; lia. Qed.

Lemma stack_need_fits (t : rope_node_t) :
  forall sp, stack_need t + sp <= STACK_SIZE -> fits t sp.
Proof.
  induction t as [| |c bw cw nw l IHl r IHr]; intros sp H; simpl; auto.
  simpl in H. pose proof (stack_need_nonneg l). pose proof (stack_need_nonneg r).
  split; [lia|]. split; [apply IHl | apply IHr]; lia.
Qed.

Lemma push_left_spec (current : rope_node_t) :
  forall stack,
    fits current (Z.of_nat (length stack)) -> stack_fits stack ->
    exists bottom stack',
      push_left current stack = Some (bottom, stack')
      /\ is_branch bottom = false
      /\ stack_fits stack'
      /\ node_bytes bottom ++ stack_bytes stack'
         = node_bytes current ++ stack_bytes stack
      /\ stack_pops stack' = (branch_count current + stack_pops stack)%nat.
Proof.
  induction current as [| |c bw cw nw l IHl r _]; intros stack Hf Hs.
  - exists NULL, stack. simpl. auto.
  - eexists _, stack. simpl. auto.
  - simpl in Hf. destruct Hf as (Hsp & Hfl & Hfr).
    simpl push_left.
    destruct (Z.ltb_spec (Z.of_nat (length stack)) STACK_SIZE); [|lia].
    destruct (IHl (Branch c bw cw nw l r :: stack)) as (bottom & stack' & E & Hb & Hs' & Hby & Hp).
    + simpl length. rewrite Nat2Z.inj_succ. unfold Z.succ. assumption.
    + simpl. auto.
    + exists bottom, stack'. repeat split; try assumption.
      * rewrite Hby. simpl. now rewrite app_assoc.
      * rewrite Hp. simpl. lia.
Qed.

Lemma to_string_loop_spec (cap : Z) (fuel : nat) :
  forall current stack out,
    (stack_pops stack + branch_count current
     + (if is_null current && (Z.of_nat (length stack) =? 0)%Z then 1 else 2)
     <= fuel)%nat ->
    fits current (Z.of_nat (length stack)) -> stack_fits stack ->
    zlen out + zlen (node_bytes current ++ stack_bytes stack) <= cap ->
    to_string_loop fuel cap current stack out
    = Some (out ++ node_bytes current ++ stack_bytes stack).
Proof.
  induction fuel as [|fuel IH]; intros current stack out Hfuel Hf Hs Hcap.
  - destruct (is_null current && (Z.of_nat (length stack) =? 0)); lia.
  - simpl to_string_loop.
    destruct (is_null current && (Z.of_nat (length stack) =? 0)) eqn:Eend.
    + apply andb_true_iff in Eend. destruct Eend as (En & Es).
      apply is_null_true in En. subst current.
      destruct stack; [|simpl in Es; discriminate].
      simpl. now rewrite app_nil_r.
    + destruct (push_left_spec current stack Hf Hs)
        as (bottom & stack' & E & Hb & Hs' & Hby & Hp).
      rewrite E. rewrite <- Hby in *.
      assert (Hnext : forall out',
                 zlen out' + zlen (stack_bytes stack') <= cap ->
                 match stack' with
                 | top :: rest => to_string_loop fuel cap (branch_right top) rest out'
                 | [] => to_string_loop fuel cap NULL [] out'
                 end = Some (out' ++ stack_bytes stack')).
      { intros out' Hcap'. destruct stack' as [|top rest].
        - rewrite (IH NULL [] out'); simpl; auto; lia.
        - simpl in Hs', Hp. destruct Hs' as (Hft & Hsr).
          rewrite (IH (branch_right top) rest out'); auto.
          destruct (is_null (branch_right top) && _); lia. }
      destruct bottom as [|c bw cw nw d cl nl|]; [| |discriminate].
      * simpl in *. destruct stack' as [|top rest]; apply (Hnext out); exact Hcap.
      * simpl node_bytes in *. rewrite zlen_app in Hcap.
        pose proof (zlen_nonneg (stack_bytes stack')).
        destruct (Z.leb_spec (zlen out + zlen d) cap); [|lia].
        rewrite (app_assoc out d).
        destruct stack' as [|top rest]; apply (Hnext (out ++ d));
          rewrite zlen_app; lia.
Qed.

Lemma branch_count_node_count (t : rope_node_t) :
  (branch_count t + 1 <= node_count t)%nat.
Proof. induction t; simpl; lia. Qed.

(** Within the 64 entries of its stack, [rope_to_string] returns the bytes
    of the rope. *)
Lemma rope_to_string_bytes (full : bool) (rope : option rope_t) :
  handle_ok full rope -> rope_stack_need rope <= STACK_SIZE ->
  rope_to_string rope = Some (rope_bytes rope).
Proof.
  destruct rope as [r|]; [|reflexivity].
  intros (Hw & Hb & _) Hh. unfold rope_to_string, rope_bytes.
  destruct (Z.eqb_spec (byte_len r) 0) as [E|_].
  - rewrite E in Hb. symmetry in Hb. apply zlen_zero in Hb. now rewrite Hb.
  - rewrite to_string_loop_spec; simpl.
    + now rewrite app_nil_r.
    + pose proof (branch_count_node_count (root r)).
      destruct (is_null (root r) && true); lia.
    + apply stack_need_fits. simpl in Hh. lia.
    + exact I.
    + rewrite app_nil_r. lia.
Qed.

(** The stack need under split and concatenation. *)
Lemma node_set_color_stack_need (n : rope_node_t) (c : rb_color_t) :
  stack_need (node_set_color n c) = stack_need n.
Proof. destruct n; reflexivity. Qed.

Lemma node_new_branch_stack_need (l r : rope_node_t) :
  stack_need (node_new_branch l r) = Z.max (stack_need l + 1) (stack_need r).
Proof. destruct l; reflexivity. Qed.

Lemma node_split_recursive_stack_need (t : rope_node_t) :
  forall p,
    stack_need (fst (node_split_recursive t p)) <= stack_need t
    /\ stack_need (snd (node_split_recursive t p)) <= stack_need t.
Proof.
  induction t as [|c bw cw nw d cl nl|c bw cw nw l IHl r IHr]; intros p.
  - simpl. lia.
  - simpl. destruct (p =? 0); [simpl; lia|].
    destruct (p >=? zlen d); simpl; lia.
  - simpl node_split_recursive. simpl stack_need.
    pose proof (stack_need_nonneg l). pose proof (stack_need_nonneg r).
    destruct (p <=? bw).
    + specialize (IHl p). destruct (node_split_recursive l p) as [ll lr].
      simpl fst in *; simpl snd in *.
      destruct (negb (is_null lr) && negb (is_null r)); simpl fst; simpl snd.
      * rewrite node_set_color_stack_need, node_new_branch_stack_need. lia.
      * destruct (negb (is_null lr)); lia.
    + specialize (IHr (p - bw)). destruct (node_split_recursive r (p - bw)) as [rl rr].
      simpl fst in *; simpl snd in *.
      destruct (negb (is_null rl) && negb (is_null l)); simpl fst; simpl snd.
      * rewrite node_set_color_stack_need, node_new_branch_stack_need. lia.
      * lia.
Qed.

Lemma rope_of_tree_stack_need (t : rope_node_t) :
  stack_need (root (rope_of_tree t)) = stack_need t.
Proof.
  unfold rope_of_tree. destruct (is_null t) eqn:E.
  - apply is_null_true in E; subst; reflexivity.
  - simpl. apply node_set_color_stack_need.
Qed.

Lemma rope_split_bytes_stack_need (rope : option rope_t) (p : Z) :
  rope_stack_need (fst (rope_split_bytes rope p)) <= rope_stack_need rope
  /\ rope_stack_need (snd (rope_split_bytes rope p)) <= rope_stack_need rope.
Proof.
  destruct rope as [r|]; simpl; [|lia].
  pose proof (stack_need_nonneg (root r)).
  destruct (p =? 0); [simpl; lia|].
  destruct (p >=? byte_len r); [simpl; lia|].
  pose proof (node_split_recursive_stack_need (root r) p) as Hh.
  destruct (node_split_recursive (root r) p) as [lt rt]. simpl in *.
  rewrite !rope_of_tree_stack_need. exact Hh.
Qed.

Lemma rope_concat_stack_need (a b : option rope_t) :
  rope_stack_need (rope_concat a b) <= Z.max (rope_stack_need a) (rope_stack_need b) + 1.
Proof.
  unfold rope_concat.
  destruct a as [l|]; simpl.
  2:{ destruct b as [r|]; simpl; [pose proof (stack_need_nonneg (root r))|]; lia. }
  pose proof (stack_need_nonneg (root l)).
  destruct (byte_len l =? 0).
  { destruct b as [r|]; simpl; [pose proof (stack_need_nonneg (root r))|]; lia. }
  destruct b as [r|]; simpl; [|lia].
  pose proof (stack_need_nonneg (root r)).
  destruct (byte_len r =? 0); simpl; [lia|].
  rewrite node_set_color_stack_need, node_new_branch_stack_need. lia.
Qed.

(** ** Leaves that hold whole characters *)

Lemma utf8_whole_nil : utf8_whole [].
Proof. reflexivity. Qed.

Lemma utf8_whole_step (s : list Z) :
  s <> [] ->
  (utf8_whole s <-> lead_len s <= zlen s /\ utf8_whole (drop (lead_len s) s)).
Proof.
  intros Hs. unfold utf8_whole.
  pose proof (nonempty_zlen s Hs). pose proof (lead_len_range s).
  pose proof (utf8_char_count_nonneg (drop (lead_len s) s)).
  rewrite utf8_char_to_byte_step, utf8_char_count_step by assumption.
  destruct (Z.ltb_spec 0 (1 + utf8_char_count (drop (lead_len s) s))); [|lia].
  rewrite Z.gtb_ltb. destruct (Z.ltb_spec (zlen s) (lead_len s)).
  - split; [lia | intros (? & _); lia].
  - rewrite zlen_drop by lia.
    replace (1 + utf8_char_count (drop (lead_len s) s) - 1)
      with (utf8_char_count (drop (lead_len s) s)) by lia.
    split; [intros E; split; lia | intros (_ & E); lia].
Qed.

Lemma utf8_whole_app_count (s1 s2 : list Z) :
  utf8_whole s1 ->
  utf8_char_count (s1 ++ s2) = utf8_char_count s1 + utf8_char_count s2.
Proof.
  induction s1 as [|s1 Hs IH] using utf8_ind; intros Hw.
  - rewrite app_nil_l, utf8_char_count_nil. lia.
  - apply utf8_whole_step in Hw; [|assumption]. destruct Hw as (Hle & Hw).
    rewrite (utf8_char_count_step (s1 ++ s2)).
    2:{ intros E. apply app_eq_nil in E. tauto. }
    rewrite (utf8_char_count_step s1) by assumption.
    rewrite lead_len_app by assumption.
    rewrite drop_app_l by lia. rewrite (IH Hw). lia.
Qed.

Lemma utf8_whole_app (s1 s2 : list Z) :
  utf8_whole s1 -> utf8_whole s2 -> utf8_whole (s1 ++ s2).
Proof.
  induction s1 as [|s1 Hs IH] using utf8_ind; intros Hw1 Hw2.
  - exact Hw2.
  - apply utf8_whole_step in Hw1; [|assumption]. destruct Hw1 as (Hle & Hw1).
    apply utf8_whole_step.
    { intros E. apply app_eq_nil in E. tauto. }
    rewrite lead_len_app by assumption. rewrite zlen_app.
    pose proof (zlen_nonneg s2).
    split; [lia|]. rewrite drop_app_l by lia. apply IH; assumption.
Qed.

Lemma leaves_whole_bytes (t : rope_node_t) :
  leaves_whole t ->
  utf8_whole (node_bytes t) /\ utf8_char_count (node_bytes t) = tree_chars t.
Proof.
  induction t as [| |c bw cw nw l IHl r IHr]; simpl.
  - intros _. split; reflexivity.
  - intros H. split; [assumption | reflexivity].
  - intros (Hl & Hr). destruct (IHl Hl) as (Wl & Cl). destruct (IHr Hr) as (Wr & Cr).
    split; [apply utf8_whole_app; assumption|].
    rewrite utf8_whole_app_count by assumption. lia.
Qed.

(** *** Whole leaves and the cached character total *)

Lemma node_set_color_whole (n : rope_node_t) (c : rb_color_t) :
  leaves_whole (node_set_color n c) <-> leaves_whole n.
Proof. destruct n; simpl; tauto. Qed.

Lemma node_new_branch_whole (l r : rope_node_t) :
  leaves_whole (node_new_branch l r) <-> leaves_whole l /\ leaves_whole r.
Proof. destruct l; simpl; tauto. Qed.

Lemma node_update_weights_whole (n : rope_node_t) :
  leaves_whole (node_update_weights n) <-> leaves_whole n.
Proof.
  destruct n as [| |c bw cw nw l r]; try tauto.
  unfold node_update_weights. destruct (is_null l); simpl; tauto.
Qed.

Lemma rotate_left_whole (n : rope_node_t) :
  leaves_whole (rotate_left n) <-> leaves_whole n.
Proof.
  destruct n as [| |c bw cw nw l r]; try tauto.
  destruct r as [| |rc rbw rcw rnw rl rr]; try tauto.
  unfold rotate_left. rewrite !node_update_weights_branch. simpl. tauto.
Qed.

Lemma rotate_right_whole (n : rope_node_t) :
  leaves_whole (rotate_right n) <-> leaves_whole n.
Proof.
  destruct n as [| |c bw cw nw l r]; try tauto.
  destruct l as [| |lc lbw lcw lnw ll lr]; try tauto.
  unfold rotate_right. rewrite !node_update_weights_branch. simpl. tauto.
Qed.

Lemma flip_colors_whole (n : rope_node_t) :
  leaves_whole (flip_colors n) <-> leaves_whole n.
Proof.
  destruct n as [| |c bw cw nw l r]; try tauto.
  simpl. rewrite !node_set_color_whole. tauto.
Qed.

Lemma whole_if (b : bool) (f : rope_node_t -> rope_node_t) (n : rope_node_t) :
  (forall m, leaves_whole (f m) <-> leaves_whole m) ->
  (leaves_whole (if b then f n else n) <-> leaves_whole n).
Proof. intros Hf. destruct b; [apply Hf | tauto]. Qed.

Lemma balance_whole (n : rope_node_t) :
  leaves_whole (balance n) <-> leaves_whole n.
Proof.
  destruct n as [| |c bw cw nw l r]; try tauto.
  unfold balance.
  rewrite whole_if by exact flip_colors_whole.
  rewrite whole_if by exact rotate_right_whole.
  rewrite whole_if by exact rotate_left_whole.
  tauto.
Qed.

(** If the leaves are whole after an insertion, they were whole before it
    and the insertion did not cut a character. *)
Lemma node_insert_bytes_whole (str : list Z) (t : rope_node_t) :
  forall p, leaves_whole (node_insert_bytes t p str) ->
    leaves_whole t /\ insert_aligned t p.
Proof.
  induction t as [|c bw cw nw d cl nl|c bw cw nw l IHl r IHr]; intros p.
  - simpl. tauto.
  - cbn [node_insert_bytes].
    destruct (Z.eqb_spec p 0) as [->|Hp0].
    + rewrite balance_whole, node_new_branch_whole. intros (_ & Hd).
      split; [exact Hd | reflexivity].
    + rewrite Z.geb_leb. destruct (Z.leb_spec (zlen d) p).
      * rewrite balance_whole, node_new_branch_whole. intros (Hd & _).
        split; [exact Hd|]. simpl. rewrite take_all, drop_all by lia.
        rewrite utf8_char_count_nil. lia.
      * rewrite balance_whole, !node_new_branch_whole.
        unfold node_new_leaf. simpl. intros ((Ha & _) & Hb).
        split.
        -- rewrite <- (take_drop p d). apply utf8_whole_app; assumption.
        -- rewrite <- (take_drop p d) at 3. symmetry.
           apply utf8_whole_app_count. assumption.
  - cbn [node_insert_bytes insert_aligned].
    rewrite balance_whole, node_update_weights_whole.
    destruct (p <=? bw); simpl.
    + intros (Hl & Hr). destruct (IHl p Hl). tauto.
    + intros (Hl & Hr). destruct (IHr (p - bw) Hr). tauto.
Qed.

Lemma rope_of_tree_whole_consistent (t : rope_node_t) :
  tree_wf t -> whole_consistent (Some (rope_of_tree t)).
Proof.
  intros Ht _. apply (rope_of_tree_consistent true t Ht). reflexivity.
Qed.

Lemma rope_split_bytes_whole (rope : option rope_t) (p : Z) :
  handle_ok false rope -> whole_consistent rope ->
  whole_consistent (fst (rope_split_bytes rope p))
  /\ whole_consistent (snd (rope_split_bytes rope p)).
Proof.
  intros Hok Hw. destruct rope as [r|]; simpl; [|split; exact I].
  assert (Hnew : whole_consistent (Some rope_new)) by (intros _; reflexivity).
  destruct (p =? 0); simpl; [split; assumption|].
  destruct (p >=? byte_len r); simpl; [split; assumption|].
  destruct Hok as (Ht & _).
  destruct (node_split_recursive_spec (root r) p Ht) as (H1 & H2 & _).
  destruct (node_split_recursive (root r) p) as [lt rt]. simpl in *.
  split; apply rope_of_tree_whole_consistent; assumption.
Qed.

Lemma rope_concat_whole (a b : option rope_t) :
  handle_ok false a -> handle_ok false b ->
  whole_consistent a -> whole_consistent b ->
  whole_consistent (rope_concat a b).
Proof.
  intros Ha Hb Wa Wb. unfold rope_concat.
  destruct a as [l|]; [|assumption].
  destruct (Z.eqb_spec (byte_len l) 0) as [|Nl]; [assumption|].
  destruct b as [r|]; [|assumption].
  destruct (Z.eqb_spec (byte_len r) 0) as [|Nr]; [assumption|].
  pose proof (consistent_root_not_null _ _ Ha Nl) as Rl.
  pose proof (consistent_root_not_null _ _ Hb Nr) as Rr.
  destruct Ha as (Tl & _). destruct Hb as (Tr & _).
  destruct (node_new_branch_same _ _ Tl Tr Rl Rr) as (_ & _ & Hch).
  simpl. rewrite node_set_color_whole, node_new_branch_whole, node_set_color_chars, Hch.
  intros (Hl & Hr). simpl in Wa, Wb. rewrite (Wa Hl), (Wb Hr). reflexivity.
Qed.

Lemma rope_insert_bytes_whole (rope : option rope_t) (p : Z) (str : list Z) :
  handle_ok false rope -> whole_consistent rope ->
  whole_consistent (rope_insert_bytes rope p str).
Proof.
  intros Hok Hw. destruct rope as [r|]; [|exact I].
  unfold rope_insert_bytes.
  destruct (zlen str =? 0); [assumption|].
  fold (clamp_pos r p). destruct Hok as (Ht & _).
  destruct (is_null (root r)) eqn:Enull; simpl.
  - apply is_null_true in Enull. simpl in Hw. rewrite Enull in Hw. simpl in Hw.
    intros _. rewrite Hw by exact I. unfold node_new_leaf. simpl. lia.
  - apply is_null_false in Enull.
    rewrite node_set_color_whole, node_set_color_chars. intros Hwh.
    destruct (node_insert_bytes_whole str (root r) (clamp_pos r p) Hwh) as (Hold & Hal).
    destruct (node_insert_bytes_spec str (root r) (clamp_pos r p) Ht Enull)
      as (_ & _ & _ & Hch).
    rewrite (Hch Hal). simpl in Hw. rewrite (Hw Hold). reflexivity.
Qed.

Lemma rope_delete_bytes_whole (rope : option rope_t) (start len : Z) :
  handle_ok false rope -> whole_consistent rope ->
  whole_consistent (rope_delete_bytes rope start len).
Proof.
  intros Hok Hw. destruct rope as [r|]; [|exact I].
  unfold rope_delete_bytes.
  destruct (start >=? byte_len r); [assumption|].
  set (len' := if _ >? _ then _ else _).
  destruct (len' =? 0); [assumption|].
  destruct (rope_split_bytes_spec false (Some r) start Hok) as (H1 & H2 & _).
  destruct (rope_split_bytes_whole (Some r) start Hok Hw) as (W1 & W2).
  destruct (rope_split_bytes (Some r) start) as [rope1 right_rope]. simpl in H1, H2, W1, W2.
  destruct right_rope as [rr|]; [|assumption].
  destruct (rope_split_bytes_spec false (Some rr) len' H2) as (_ & H3 & _).
  destruct (rope_split_bytes_whole (Some rr) len' H2 W2) as (_ & W3).
  destruct (rope_split_bytes (Some rr) len') as [mid rightmost]. simpl in H3, W3.
  destruct rightmost as [rm|]; [|assumption].
  apply rope_concat_whole; assumption.
Qed.

(** Whatever the positions of the insertions, a rope built by the public
    operations whose leaves hold whole characters has all its cached totals
    right. *)
Lemma reachable_whole_consistent (rope : option rope_t) :
  reachable any_position rope -> whole_consistent rope.
Proof.
  induction 1 as [| |str|rope p str Hr IH _ _|rope k str Hr IH _
                  |rope a n Hr IH _ _|rope a n Hr IH _ _|a b Ha IHa Hb IHb
                  |rope p Hr IH _|rope p Hr IH _|rope k Hr IH _|rope k Hr IH _];
    try (pose proof (reachable_consistent _ Hr) as Hok).
  - exact I.
  - intros _. reflexivity.
  - intros _. apply (rope_new_from_str_consistent true str). reflexivity.
  - apply rope_insert_bytes_whole; assumption.
  - destruct rope as [r|]; [|exact I].
    apply rope_insert_bytes_whole; assumption.
  - apply rope_delete_bytes_whole; assumption.
  - destruct rope as [r|]; [|exact I].
    unfold rope_delete_chars.
    destruct (a >=? char_len r); [assumption|].
    apply rope_delete_bytes_whole; assumption.
  - apply rope_concat_whole; try assumption; apply reachable_consistent; assumption.
  - apply rope_split_bytes_whole; assumption.
  - apply rope_split_bytes_whole; assumption.
  - destruct rope as [r|]; [|exact I].
    apply rope_split_bytes_whole; assumption.
  - destruct rope as [r|]; [|exact I].
    apply rope_split_bytes_whole; assumption.
Qed.

Lemma reachable_whole_wf (r : rope_t) :
  reachable any_position (Some r) -> leaves_whole (root r) -> rope_wf r.
Proof.
  intros Hr Hwh.
  pose proof (reachable_consistent _ Hr) as (Ht & Hb & Hn & _).
  pose proof (reachable_whole_consistent _ Hr) as Hc. simpl in Hc.
  unfold rope_wf, consistent. auto.
Qed.

(** ** The characters of a byte string *)

Lemma utf8_decode_read (s : list Z) :
  s <> [] ->
  snd (utf8_decode s) = if lead_len s >? zlen s then 1 else lead_len s.
Proof.
  intros Hs. pose proof (nonempty_zlen s Hs).
  unfold utf8_decode. fold (lead_len s).
  destruct (Z.eqb_spec (zlen s) 0); [lia|].
  destruct (lead_len s >? zlen s); reflexivity.
Qed.

Lemma utf8_decode_read_range (s : list Z) :
  s <> [] -> 1 <= snd (utf8_decode s) <= 4.
Proof.
  intros Hs. rewrite utf8_decode_read by assumption.
  pose proof (lead_len_range s). destruct (_ >? _); lia.
Qed.

Lemma utf8_scalars_fuel_nil (fuel : nat) : utf8_scalars_fuel fuel [] = [].
Proof. destruct fuel; reflexivity. Qed.

Lemma utf8_scalars_fuel_step (fuel : nat) (s : list Z) :
  s <> [] ->
  utf8_scalars_fuel (S fuel) s
  = fst (utf8_decode s) :: utf8_scalars_fuel fuel (drop (snd (utf8_decode s)) s).
Proof.
  intros Hs. pose proof (nonempty_zlen s Hs). simpl.
  destruct (Z.eqb_spec (zlen s) 0); [lia|].
  destruct (utf8_decode s); reflexivity.
Qed.

Lemma utf8_scalars_fuel_enough (f1 : nat) :
  forall f2 s, (length s <= f1)%nat -> (length s <= f2)%nat ->
    utf8_scalars_fuel f1 s = utf8_scalars_fuel f2 s.
Proof.
  induction f1 as [|f1 IH]; intros f2 s H1 H2.
  - destruct s; [|simpl in H1; lia]. now rewrite !utf8_scalars_fuel_nil.
  - destruct s as [|b s']; [now rewrite !utf8_scalars_fuel_nil|].
    destruct f2 as [|f2]; [simpl in H2; lia|].
    rewrite !utf8_scalars_fuel_step by discriminate.
    f_equal. pose proof (utf8_decode_read_range (b :: s') ltac:(discriminate)).
    apply IH; unfold drop; rewrite length_skipn; simpl length in *; lia.
Qed.

Lemma utf8_scalars_nil : utf8_scalars [] = [].
Proof. reflexivity. Qed.

Lemma utf8_scalars_step (s : list Z) :
  s <> [] ->
  utf8_scalars s
  = fst (utf8_decode s) :: utf8_scalars (drop (snd (utf8_decode s)) s).
Proof.
  intros Hs. unfold utf8_scalars.
  destruct s as [|b s']; [congruence|].
  simpl length. rewrite utf8_scalars_fuel_step by discriminate.
  f_equal. pose proof (utf8_decode_read_range (b :: s') ltac:(discriminate)).
  apply utf8_scalars_fuel_enough; unfold drop; rewrite length_skipn;
    simpl length; lia.
Qed.

(** Decoding a whole character does not look past it. *)
Lemma utf8_decode_app (s1 s2 : list Z) :
  s1 <> [] -> lead_len s1 <= zlen s1 ->
  utf8_decode (s1 ++ s2) = utf8_decode s1.
Proof.
  intros Hs Hle. pose proof (nonempty_zlen s1 Hs). pose proof (zlen_nonneg s2).
  pose proof (lead_len_range s1).
  unfold utf8_decode. rewrite zlen_app.
  rewrite (byte_at_app_l 0) by lia. fold (lead_len s1).
  destruct (Z.eqb_spec (zlen s1 + zlen s2) 0); [lia|].
  destruct (Z.eqb_spec (zlen s1) 0); [lia|].
  rewrite !Z.gtb_ltb.
  destruct (Z.ltb_spec (zlen s1 + zlen s2) (lead_len s1)); [lia|].
  destruct (Z.ltb_spec (zlen s1) (lead_len s1)); [lia|].
  f_equal.
  destruct (Z.eqb_spec (lead_len s1) 1); [reflexivity|].
  destruct (Z.eqb_spec (lead_len s1) 2).
  { rewrite (byte_at_app_l 1) by lia. reflexivity. }
  destruct (Z.eqb_spec (lead_len s1) 3).
  { rewrite (byte_at_app_l 1), (byte_at_app_l 2) by lia. reflexivity. }
  destruct (Z.eqb_spec (lead_len s1) 4).
  { rewrite (byte_at_app_l 1), (byte_at_app_l 2), (byte_at_app_l 3) by lia.
    reflexivity. }
  reflexivity.
Qed.

Lemma utf8_scalars_whole_step (s : list Z) :
  s <> [] -> lead_len s <= zlen s ->
  utf8_scalars s = fst (utf8_decode s) :: utf8_scalars (drop (lead_len s) s).
Proof.
  intros Hs Hle. rewrite utf8_scalars_step by assumption.
  rewrite utf8_decode_read by assumption. rewrite Z.gtb_ltb.
  destruct (Z.ltb_spec (zlen s) (lead_len s)); [lia | reflexivity].
Qed.

Lemma utf8_scalars_app (s1 s2 : list Z) :
  utf8_whole s1 -> utf8_scalars (s1 ++ s2) = utf8_scalars s1 ++ utf8_scalars s2.
Proof.
  induction s1 as [|s1 Hs IH] using utf8_ind; intros Hw.
  - reflexivity.
  - apply utf8_whole_step in Hw; [|assumption]. destruct Hw as (Hle & Hw).
    pose proof (zlen_nonneg s2).
    rewrite (utf8_scalars_whole_step (s1 ++ s2)).
    + rewrite lead_len_app, utf8_decode_app, drop_app_l by (assumption || lia).
      rewrite (IH Hw), (utf8_scalars_whole_step s1) by assumption. reflexivity.
    + intros E. apply app_eq_nil in E. tauto.
    + rewrite lead_len_app, zlen_app by assumption. lia.
Qed.

Lemma utf8_scalars_length (s : list Z) :
  utf8_whole s -> Z.of_nat (length (utf8_scalars s)) = utf8_char_count s.
Proof.
  induction s as [|s Hs IH] using utf8_ind; intros Hw.
  - reflexivity.
  - apply utf8_whole_step in Hw; [|assumption]. destruct Hw as (Hle & Hw).
    rewrite utf8_scalars_whole_step, utf8_char_count_step by assumption.
    simpl length. rewrite Nat2Z.inj_succ, (IH Hw). lia.
Qed.

(** The character [utf8_char_to_byte] points at is the one the front-to-back
    decoding numbers the same. *)
Lemma utf8_decode_at_char (s : list Z) :
  utf8_whole s ->
  forall k, 0 <= k < utf8_char_count s ->
    fst (utf8_decode (drop (utf8_char_to_byte s k) s))
    = nth (Z.to_nat k) (utf8_scalars s) 0.
Proof.
  induction s as [|s Hs IH] using utf8_ind; intros Hw k Hk.
  - rewrite utf8_char_count_nil in Hk. lia.
  - apply utf8_whole_step in Hw; [|assumption]. destruct Hw as (Hle & Hw).
    pose proof (lead_len_range s).
    rewrite utf8_char_count_step in Hk by assumption.
    rewrite utf8_char_to_byte_step, utf8_scalars_whole_step by assumption.
    destruct (Z.ltb_spec 0 k) as [Hpos|Hz].
    + rewrite Z.gtb_ltb. destruct (Z.ltb_spec (zlen s) (lead_len s)); [lia|].
      destruct (utf8_char_to_byte_props (drop (lead_len s) s) (k - 1)) as ((Hp0 & _) & _).
      rewrite <- drop_drop by lia.
      rewrite (IH Hw (k - 1)) by lia.
      replace (Z.to_nat k) with (S (Z.to_nat (k - 1))) by lia. reflexivity.
    + replace k with 0 by lia. reflexivity.
Qed.

(** ** Well-formed text: newline characters are newline bytes *)

Lemma count_newline_scalars_app (l1 l2 : list Z) :
  count_newline_scalars (l1 ++ l2)
  = count_newline_scalars l1 + count_newline_scalars l2.
Proof. induction l1 as [|c l1 IH]; simpl; [reflexivity | rewrite IH; lia]. Qed.

Lemma utf8_well_formed_fuel_enough (f1 : nat) :
  forall f2 s, (length s <= f1)%nat -> (length s <= f2)%nat ->
    utf8_well_formed_fuel f1 s = utf8_well_formed_fuel f2 s.
Proof.
  induction f1 as [|f1 IH]; intros f2 s H1 H2.
  - destruct s; [|simpl in H1; lia]. destruct f2; reflexivity.
  - destruct s as [|b s']; [destruct f2; reflexivity|].
    destruct f2 as [|f2]; [simpl in H2; lia|].
    simpl. f_equal. pose proof (lead_len_range (b :: s')).
    apply IH; unfold drop; rewrite length_skipn; simpl length in *; lia.
Qed.

Lemma utf8_well_formed_step (s : list Z) :
  s <> [] ->
  (utf8_well_formed s
   <-> utf8_char_ok s = true /\ utf8_well_formed (drop (lead_len s) s)).
Proof.
  intros Hs. unfold utf8_well_formed.
  destruct s as [|b s']; [congruence|].
  simpl length. cbn [utf8_well_formed_fuel].
  rewrite andb_true_iff.
  pose proof (lead_len_range (b :: s')).
  rewrite (utf8_well_formed_fuel_enough (length s')
             (length (drop (lead_len (b :: s')) (b :: s')))).
  - reflexivity.
  - unfold drop; rewrite length_skipn; simpl length; lia.
  - lia.
Qed.

Lemma utf8_well_formed_whole (s : list Z) : utf8_well_formed s -> utf8_whole s.
Proof.
  induction s as [|s Hs IH] using utf8_ind; intros Hw.
  - apply utf8_whole_nil.
  - apply utf8_well_formed_step in Hw; [|assumption]. destruct Hw as (Hok & Hw).
    apply utf8_whole_step; [assumption|]. split; [|apply IH; assumption].
    unfold utf8_char_ok in Hok. rewrite !andb_true_iff in Hok.
    destruct Hok as ((Hle & _) & _). apply Z.leb_le. exact Hle.
Qed.

Lemma count_newlines_zero (l : list Z) :
  Forall (fun b => b <> 10) l -> count_newlines l = 0.
Proof.
  induction 1 as [|b l Hb _ IH]; simpl; [reflexivity|].
  destruct (Z.eqb_spec b 10); lia.
Qed.

Lemma lead_len_newline (s : list Z) : byte_at s 0 = 10 -> lead_len s = 1.
Proof. intros E. unfold lead_len. rewrite E. reflexivity. Qed.

Lemma take_cons_drop (n : Z) (s : list Z) :
  s <> [] -> 1 <= n -> take n s = byte_at s 0 :: drop 1 (take n s).
Proof.
  intros Hs Hn. destruct s as [|b s']; [congruence|].
  unfold take, drop, byte_at.
  destruct (Z.to_nat n) eqn:E; [lia|]. reflexivity.
Qed.

(** In a well-formed character, exactly the one-byte newline reads as a
    newline and holds a newline byte. *)
Lemma utf8_char_ok_newline (s : list Z) :
  s <> [] -> utf8_char_ok s = true ->
  count_newlines (take (lead_len s) s)
  = if fst (utf8_decode s) =? 10 then 1 else 0.
Proof.
  intros Hs Hok. pose proof (lead_len_range s) as Hr.
  pose proof (nonempty_zlen s Hs) as Hlen.
  unfold utf8_char_ok in Hok. rewrite !andb_true_iff in Hok.
  destruct Hok as ((Hle & Hbytes) & Hshape). apply Z.leb_le in Hle.
  rewrite (take_cons_drop (lead_len s) s) in Hbytes |- * by (assumption || lia).
  simpl in Hbytes. rewrite !andb_true_iff in Hbytes.
  destruct Hbytes as ((Hb0 & Hb1) & _).
  apply Z.leb_le in Hb0. apply Z.ltb_lt in Hb1.
  destruct (Z.eqb_spec (lead_len s) 1) as [E1|N1].
  - assert (Hd : utf8_decode s = (byte_at s 0, 1)).
    { unfold utf8_decode. fold (lead_len s). rewrite E1.
      destruct (Z.eqb_spec (zlen s) 0); [lia|].
      rewrite Z.gtb_ltb. destruct (Z.ltb_spec (zlen s) 1); [lia|].
      simpl. unfold uint8. rewrite Z.mod_small by lia. reflexivity. }
    rewrite Hd, E1. simpl fst.
    rewrite (drop_all 1 (take 1 s)) by (rewrite zlen_take; lia).
    simpl. lia.
  - rewrite !andb_true_iff in Hshape. destruct Hshape as ((Hcont & Hmin) & _).
    apply Z.leb_le in Hmin.
    assert (Hscalar : 0x80 <= fst (utf8_decode s)).
    { unfold min_scalar in Hmin.
      destruct (lead_len s =? 2); [lia|]. destruct (lead_len s =? 3); lia. }
    destruct (Z.eqb_spec (fst (utf8_decode s)) 10); [lia|].
    simpl count_newlines.
    destruct (Z.eqb_spec (byte_at s 0) 10) as [E|_].
    { apply lead_len_newline in E. contradiction. }
    rewrite count_newlines_zero; [reflexivity|].
    rewrite forallb_forall in Hcont. apply Forall_forall.
    intros b Hin E. subst b. specialize (Hcont 10 Hin). discriminate.
Qed.

Lemma utf8_well_formed_newlines (s : list Z) :
  utf8_well_formed s ->
  count_newline_scalars (utf8_scalars s) = count_newlines s.
Proof.
  induction s as [|s Hs IH] using utf8_ind; intros Hw.
  - reflexivity.
  - apply utf8_well_formed_step in Hw; [|assumption]. destruct Hw as (Hok & Hw).
    assert (Hle : lead_len s <= zlen s).
    { unfold utf8_char_ok in Hok. rewrite !andb_true_iff in Hok.
      destruct Hok as ((Hle & _) & _). apply Z.leb_le. exact Hle. }
    rewrite utf8_scalars_whole_step by assumption.
    simpl count_newline_scalars. rewrite (IH Hw).
    rewrite <- (count_newlines_take_drop (lead_len s) s).
    rewrite utf8_char_ok_newline by assumption. reflexivity.
Qed.

Lemma leaves_well_formed_whole (t : rope_node_t) :
  leaves_well_formed t -> leaves_whole t.
Proof.
  induction t; simpl; auto using utf8_well_formed_whole.
  intros (? & ?); auto.
Qed.

Lemma leaves_well_formed_newlines (t : rope_node_t) :
  leaves_well_formed t ->
  count_newline_scalars (utf8_scalars (node_bytes t)) = count_newlines (node_bytes t).
Proof.
  induction t as [| |c bw cw nw l IHl r IHr]; simpl.
  - reflexivity.
  - apply utf8_well_formed_newlines.
  - intros (Hl & Hr).
    destruct (leaves_whole_bytes l (leaves_well_formed_whole l Hl)) as (Wl & _).
    rewrite utf8_scalars_app by assumption.
    rewrite count_newline_scalars_app, count_newlines_app, IHl, IHr by assumption.
    reflexivity.
Qed.

Lemma count_newline_scalars_firstn_succ (l : list Z) (m : nat) :
  (m < length l)%nat ->
  count_newline_scalars (firstn (S m) l)
  = count_newline_scalars (firstn m l) + (if nth m l 0 =? 10 then 1 else 0).
Proof.
  revert l; induction m as [|m IH]; intros l Hm.
  - destruct l; simpl in *; [lia|]. destruct (z =? 10); lia.
  - destruct l as [|c l]; simpl in Hm; [lia|].
    change (firstn (S (S m)) (c :: l)) with (c :: firstn (S m) l).
    change (firstn (S m) (c :: l)) with (c :: firstn m l).
    cbn [count_newline_scalars nth]. rewrite IH by lia. lia.
Qed.

(** ** The root colour *)

Lemma node_set_color_black (n : rope_node_t) :
  node_color (node_set_color n RB_BLACK) = RB_BLACK.
Proof. destruct n; reflexivity. Qed.

Lemma rope_of_tree_black (t : rope_node_t) : root_black (Some (rope_of_tree t)).
Proof.
  unfold root_black, rope_of_tree. destruct (is_null t); simpl;
    [reflexivity | apply node_set_color_black].
Qed.

Lemma rope_split_bytes_black (rope : option rope_t) (p : Z) :
  root_black rope ->
  root_black (fst (rope_split_bytes rope p))
  /\ root_black (snd (rope_split_bytes rope p)).
Proof.
  intros Hb. destruct rope as [r|]; simpl; [|split; reflexivity].
  destruct (p =? 0); simpl; [split; [reflexivity | assumption]|].
  destruct (p >=? byte_len r); simpl; [split; [assumption | reflexivity]|].
  destruct (node_split_recursive (root r) p); simpl.
  split; apply rope_of_tree_black.
Qed.

Lemma rope_concat_black (a b : option rope_t) :
  root_black a -> root_black b -> root_black (rope_concat a b).
Proof.
  intros Ha Hb. unfold rope_concat.
  destruct a as [l|]; [|assumption].
  destruct (byte_len l =? 0); [assumption|].
  destruct b as [r|]; [|assumption].
  destruct (byte_len r =? 0); [assumption|].
  apply node_set_color_black.
Qed.

Lemma rope_insert_bytes_black (rope : option rope_t) (p : Z) (str : list Z) :
  root_black rope -> root_black (rope_insert_bytes rope p str).
Proof.
  intros Hb. destruct rope as [r|]; [|reflexivity].
  unfold rope_insert_bytes.
  destruct (zlen str =? 0); [assumption|].
  unfold root_black; cbn [rope_root root].
  destruct (is_null (root r)); apply node_set_color_black.
Qed.

Lemma rope_delete_bytes_black (rope : option rope_t) (start len : Z) :
  root_black rope -> root_black (rope_delete_bytes rope start len).
Proof.
  intros Hb. destruct rope as [r|]; [|reflexivity].
  unfold rope_delete_bytes.
  destruct (start >=? byte_len r); [assumption|].
  set (len' := if _ >? _ then _ else _).
  destruct (len' =? 0); [assumption|].
  destruct (rope_split_bytes_black (Some r) start Hb) as (H1 & H2).
  destruct (rope_split_bytes (Some r) start) as [rope1 right_rope]. simpl in H1, H2.
  destruct right_rope as [rr|]; [|assumption].
  destruct (rope_split_bytes_black (Some rr) len' H2) as (_ & H3).
  destruct (rope_split_bytes (Some rr) len') as [mid rightmost]. simpl in H3.
  destruct rightmost as [rm|]; [|assumption].
  apply rope_concat_black; assumption.
Qed.

Lemma reachable_root_black (allowed : option rope_t -> Z -> Prop)
    (rope : option rope_t) :
  reachable allowed rope -> root_black rope.
Proof.
  induction 1 as [| |str|rope p str _ IH _ _|rope k str _ IH _
                  |rope a n _ IH _ _|rope a n _ IH _ _|a b _ IHa _ IHb
                  |rope p _ IH _|rope p _ IH _|rope k _ IH _|rope k _ IH _].
  - reflexivity.
  - reflexivity.
  - unfold root_black, rope_new_from_str. destruct (zlen str >? 0); reflexivity.
  - apply rope_insert_bytes_black; assumption.
  - destruct rope as [r|]; [|reflexivity].
    apply rope_insert_bytes_black; assumption.
  - apply rope_delete_bytes_black; assumption.
  - destruct rope as [r|]; [|reflexivity].
    unfold rope_delete_chars.
    destruct (a >=? char_len r); [assumption|].
    apply rope_delete_bytes_black; assumption.
  - apply rope_concat_black; assumption.
  - apply rope_split_bytes_black; assumption.
  - apply rope_split_bytes_black; assumption.
  - destruct rope as [r|]; [|reflexivity].
    apply rope_split_bytes_black; assumption.
  - destruct rope as [r|]; [|reflexivity].
    apply rope_split_bytes_black; assumption.
Qed.

(** * The claims *)

(** ** C1: split then concat keeps the content *)




(** ** C2: metric consistency after every sequence of operations *)

(** As long as [rope_insert_bytes] is only called at positions that do not
    cut a character of the leaf they land in, every cached total, the
    character total included, stays that of the leaves. *)
Lemma reachable_aligned_wf (rope : option rope_t) :
  reachable rope_insert_aligned rope -> handle_ok true rope.
Proof.
  apply reachable_handle_ok. intros _ h p H. exact H.
Qed.

(** C2.  [rope_insert_bytes] at byte 1 of "é" leaves the cached character
    total at 2 while the three leaves it builds recount to 3 characters:
    the cached [char_len] is not the sum over the leaves. *)
Theorem C2_insert_inside_character :
  reachable any_position c2_rope
  /\ tree_wf (rope_root c2_rope)
  /\ rope_char_length c2_rope = 2
  /\ tree_chars (rope_root c2_rope) = 3.
Proof.
  split.
  - apply reach_insert_bytes; [apply reach_new_from_str | | exact I].
    unfold size_t. vm_compute. split; [discriminate | reflexivity].
  - vm_compute. intuition discriminate.
Qed.

(** ** C3: red-black colouring *)

(** C3.  After [rope_concat] of two one-leaf ropes and one
    [rope_insert_bytes] at the end of the left leaf, the root's left child
    is a red branch whose right child is the new red leaf.  Five insertions
    alone reach the same pattern. *)
Theorem C3_red_branch_with_red_leaf :
  reachable any_position c3_rope
  /\ rope_root c3_rope
     = Branch RB_BLACK 2 2 0
         (Branch RB_RED 1 1 0 (Leaf RB_BLACK 1 1 0 [97] 1 0)
                              (Leaf RB_RED 1 1 0 [120] 1 0))
         (Leaf RB_BLACK 1 1 0 [98] 1 0)
  /\ rb_coloring c3_rope = false
  /\ reachable any_position c3_rope_inserts
  /\ rb_coloring c3_rope_inserts = false.
Proof.
  assert (Hs : forall x, (0 <=? x) && (x <? SIZE_MAX1) = true -> size_t x).
  { intros x H. apply andb_true_iff in H. destruct H as (H1 & H2).
    apply Z.leb_le in H1. apply Z.ltb_lt in H2. split; assumption. }
  split; [|split; [|split; [|split]]].
  - apply reach_insert_bytes; [|apply Hs; reflexivity | exact I].
    apply reach_concat; apply reach_new_from_str.
  - reflexivity.
  - reflexivity.
  - repeat (apply reach_insert_bytes; [|apply Hs; reflexivity | exact I]).
    apply reach_new.
  - reflexivity.
Qed.

(** ** C4: character to byte and back *)

(** With a consistent character total the round trip holds. *)
Lemma char_byte_roundtrip (r : rope_t) (k : Z) :
  rope_wf r -> 0 <= k <= char_len r ->
  rope_byte_to_char (Some r) (rope_char_to_byte (Some r) k) = k.
Proof.
  intros (Hw & Hb & _ & Hc) Hk. specialize (Hc eq_refl).
  unfold rope_char_to_byte, rope_byte_to_char.
  rewrite !Z.geb_leb.
  destruct (Z.leb_spec (char_len r) k).
  - destruct (Z.leb_spec (byte_len r) (byte_len r)); lia.
  - destruct (char_to_byte_walk_roundtrip (root r) Hw k) as (Hlt & Hrt); [lia|].
    destruct (Z.leb_spec (byte_len r) (char_to_byte_walk (root r) k 0)); [lia|].
    exact Hrt.
Qed.

(** C4.  On [c4_rope] character index 3 is within [[0, char_len]], maps to
    byte 5, and byte 5 maps back to character 4. *)
Theorem C4_roundtrip_stale_total :
  reachable any_position c4_rope
  /\ rope_char_length c4_rope = 4
  /\ rope_char_to_byte c4_rope 3 = 5
  /\ rope_byte_to_char c4_rope (rope_char_to_byte c4_rope 3) = 4.
Proof.
  split.
  - apply reach_insert_bytes; [apply reach_new_from_str | | exact I].
    unfold size_t. vm_compute. split; [discriminate | reflexivity].
  - vm_compute. auto.
Qed.

(** ** C5: decoding invalid sequences *)

(** A sequence cut short by the end of the slice decodes to U+FFFD and
    consumes one byte. *)
Lemma utf8_decode_truncated (str : list Z) :
  str <> [] -> zlen str < lead_len str -> utf8_decode str = (0xFFFD, 1).
Proof.
  intros Hs Hlt. pose proof (nonempty_zlen str Hs).
  unfold utf8_decode. fold (lead_len str).
  destruct (Z.eqb_spec (zlen str) 0); [lia|].
  rewrite Z.gtb_ltb. destruct (Z.ltb_spec (zlen str) (lead_len str)); [reflexivity | lia].
Qed.

(** C5.  An invalid lead byte is not replaced: [0xFF] and [0x80] decode to
    themselves, and a lead byte followed by a byte that is no continuation
    byte is decoded as if it were one ([C3 41] gives U+00C1 and consumes
    two bytes). *)
Theorem C5_invalid_lead_byte_not_replaced :
  utf8_decode [0xFF] = (0xFF, 1)
  /\ utf8_decode [0x80] = (0x80, 1)
  /\ utf8_decode [0xC3; 0x41] = (0xC1, 2)
  /\ utf8_decode [0xE6; 0x97] = (0xFFFD, 1).
Proof. repeat split; reflexivity. Qed.

(** ** C6: the character at a position *)

Lemma rope_char_at_walk (t : rope_node_t) :
  tree_wf t -> leaves_whole t ->
  forall k, 0 <= k < tree_chars t ->
    char_at_walk t (char_to_byte_walk t k 0)
    = nth (Z.to_nat k) (utf8_scalars (node_bytes t)) 0.
Proof.
  induction t as [|c bw cw nw d cl nl|c bw cw nw l IHl r IHr]; intros Ht Hwh k Hk.
  - simpl in Hk. lia.
  - simpl in *. rewrite ?Z.add_0_l.
    destruct (utf8_char_to_byte_roundtrip d k Hk) as (Hlt & _).
    destruct (Z.ltb_spec (utf8_char_to_byte d k) (zlen d)); [|lia].
    apply utf8_decode_at_char; assumption.
  - destruct (wf_branch _ _ _ _ _ _ Ht) as (_ & Hl & Hr & _ & _).
    simpl in Ht. destruct Ht as (Hbw & Hcw & _).
    simpl in Hwh. destruct Hwh as (Wl & Wr).
    destruct (leaves_whole_bytes l Wl) as (Wbl & Cl).
    pose proof (utf8_scalars_length _ Wbl) as Hlen.
    simpl in Hk. simpl char_to_byte_walk. simpl node_bytes.
    rewrite utf8_scalars_app by assumption.
    destruct (Z.ltb_spec k cw).
    + destruct (char_to_byte_walk_roundtrip l Hl k) as (Hlt & _); [lia|].
      simpl char_at_walk.
      destruct (Z.ltb_spec (char_to_byte_walk l k 0) bw); [|lia].
      rewrite app_nth1 by lia. apply IHl; auto; lia.
    + rewrite char_to_byte_walk_offset. rewrite ?Z.add_0_l.
      destruct (char_to_byte_walk_props r Hr (k - cw)) as ((Hp0 & _) & _).
      simpl char_at_walk.
      destruct (Z.ltb_spec (bw + char_to_byte_walk r (k - cw) 0) bw); [lia|].
      replace (bw + char_to_byte_walk r (k - cw) 0 - bw)
        with (char_to_byte_walk r (k - cw) 0) by lia.
      rewrite app_nth2 by lia.
      rewrite IHr by (auto; lia). f_equal. lia.
Qed.

Lemma rope_char_at_scalars (r : rope_t) (p : Z) :
  rope_wf r -> leaves_whole (root r) -> 0 <= p ->
  (p < char_len r ->
   rope_char_at (Some r) p = nth (Z.to_nat p) (utf8_scalars (node_bytes (root r))) 0)
  /\ Z.of_nat (length (utf8_scalars (node_bytes (root r)))) = char_len r.
Proof.
  intros (Hw & Hb & _ & Hc) Hwh Hp. specialize (Hc eq_refl).
  destruct (leaves_whole_bytes _ Hwh) as (Wb & Cb).
  split.
  - intros Hlt. unfold rope_char_at, rope_char_to_byte. rewrite Z.geb_leb.
    destruct (Z.leb_spec (char_len r) p); [lia|].
    apply rope_char_at_walk; auto; lia.
  - rewrite utf8_scalars_length by assumption. lia.
Qed.

(** ** Decoding what the Unicode encoding produces *)

Lemma lor_add (x y n : Z) :
  0 <= n -> 0 <= x -> x mod 2 ^ n = 0 -> 0 <= y < 2 ^ n -> Z.lor x y = x + y.
Proof.
  intros Hn Hx Hm Hy.
  assert (Hland : Z.land x y = 0).
  2:{ rewrite <- (Z.lxor_lor _ _ Hland). symmetry. apply Z.add_nocarry_lxor. exact Hland. }
  apply Z.bits_inj'. intros k Hk. rewrite Z.land_spec, Z.bits_0.
  destruct (Z.lt_ge_cases k n) as [Hlt|Hge].
  - assert (E : x = x / 2 ^ n * 2 ^ n).
    { pose proof (Z.div_mod x (2 ^ n) ltac:(lia)). lia. }
    rewrite E, Z.mul_pow2_bits_low by lia. reflexivity.
  - assert (Ey : Z.testbit y k = false).
    { destruct (Z.eq_dec y 0) as [->|Ny]; [apply Z.bits_0|].
      apply Z.bits_above_log2; [lia|].
      apply Z.lt_le_trans with n; [|assumption].
      apply Z.log2_lt_pow2; lia. }
    rewrite Ey. apply andb_false_r.
Qed.

Lemma byte_forall (P : Z -> bool) :
  forallb P (map Z.of_nat (seq 0 256)) = true ->
  forall x, 0 <= x < 256 -> P x = true.
Proof.
  intros H x Hx. rewrite forallb_forall in H. apply H.
  rewrite in_map_iff. exists (Z.to_nat x). split; [lia|].
  apply in_seq. lia.
Qed.

(** The length [utf8_char_len] reads off a byte. *)
Lemma utf8_char_len_byte (x : Z) :
  0 <= x < 256 ->
  utf8_char_len x
  = if x <? 0xC0 then 1 else if x <? 0xE0 then 2 else if x <? 0xF0 then 3
    else if x <? 0xF8 then 4 else 1.
Proof.
  intros Hx.
  apply Z.eqb_eq.
  apply (byte_forall
           (fun x => utf8_char_len x
                     =? (if x <? 0xC0 then 1 else if x <? 0xE0 then 2
                         else if x <? 0xF0 then 3 else if x <? 0xF8 then 4 else 1)));
    [vm_compute; reflexivity | exact Hx].
Qed.

Lemma uint8_small (x : Z) : 0 <= x < 256 -> uint8 x = x.
Proof. intros H. unfold uint8. apply Z.mod_small. exact H. Qed.

(** The six bits of a byte [10xxxxxx]. *)
Lemma cont_bits (b : Z) : 0 <= b < 64 -> Z.land (uint8 (0x80 + b)) 0x3F = b.
Proof.
  intros Hb. rewrite uint8_small by lia.
  change 0x3F with (Z.ones 6). rewrite Z.land_ones by lia.
  change (2 ^ 6) with 64. Z.div_mod_to_equations. lia.
Qed.

(** The bits of a lead byte under a mark that leaves [n] of them. *)
Lemma lead_bits (mark a n : Z) :
  0 <= n -> 0 <= a < 2 ^ n -> mark mod 2 ^ n = 0 -> 0 <= mark -> mark + a < 256 ->
  Z.land (uint8 (mark + a)) (Z.ones n) = a.
Proof.
  intros Hn Ha Hm H0 Hlt. rewrite uint8_small by lia.
  rewrite Z.land_ones by lia.
  rewrite Z.add_mod by lia. rewrite Hm, Z.add_0_l, Z.mod_mod by lia.
  apply Z.mod_small. exact Ha.
Qed.

(** [utf8_decode] reads back what [utf8_encode] wrote, whatever follows. *)
Lemma utf8_decode_encode (v : Z) (t : list Z) :
  0 <= v <= 0x10FFFF ->
  utf8_encode v <> []
  /\ lead_len (utf8_encode v ++ t) = zlen (utf8_encode v)
  /\ utf8_decode (utf8_encode v ++ t) = (v, zlen (utf8_encode v)).
Proof.
  intros Hv. unfold utf8_encode.
  pose proof (zlen_nonneg t) as Ht.
  destruct (Z.ltb_spec v 0x80) as [H1|H1].
  { split; [discriminate|].
    assert (L : lead_len ([v] ++ t) = 1).
    { unfold lead_len. cbn [app]. change (byte_at (v :: t) 0) with v.
      rewrite uint8_small, utf8_char_len_byte by lia.
      destruct (Z.ltb_spec v 0xC0); [reflexivity | lia]. }
    split; [exact L|].
    unfold utf8_decode. fold (lead_len ([v] ++ t)). rewrite L.
    cbn [app]. rewrite zlen_cons.
    destruct (Z.eqb_spec (1 + zlen t) 0); [lia|].
    rewrite Z.gtb_ltb. destruct (Z.ltb_spec (1 + zlen t) 1); [lia|].
    change (byte_at (v :: t) 0) with v. rewrite uint8_small by lia. reflexivity. }
  destruct (Z.ltb_spec v 0x800) as [H2|H2].
  { split; [discriminate|].
    set (a := v / 64). set (c := v mod 64).
    assert (Ha : 2 <= a < 32) by (unfold a; Z.div_mod_to_equations; lia).
    assert (Hc : 0 <= c < 64) by (unfold c; Z.div_mod_to_equations; lia).
    assert (Ev : a * 64 + c = v) by (unfold a, c; Z.div_mod_to_equations; lia).
    assert (L : lead_len ([0xC0 + a; 0x80 + c] ++ t) = 2).
    { unfold lead_len. cbn [app]. change (byte_at (0xC0 + a :: 0x80 + c :: t) 0) with (0xC0 + a).
      rewrite uint8_small, utf8_char_len_byte by lia.
      destruct (Z.ltb_spec (0xC0 + a) 0xC0); [lia|].
      destruct (Z.ltb_spec (0xC0 + a) 0xE0); [reflexivity | lia]. }
    split; [exact L|].
    unfold utf8_decode. fold (lead_len ([0xC0 + a; 0x80 + c] ++ t)). rewrite L.
    cbn [app]. rewrite !zlen_cons.
    destruct (Z.eqb_spec (1 + (1 + zlen t)) 0); [lia|].
    rewrite Z.gtb_ltb. destruct (Z.ltb_spec (1 + (1 + zlen t)) 2); [lia|].
    change (2 =? 1) with false. change (2 =? 2) with true. cbv iota.
    change (byte_at (0xC0 + a :: 0x80 + c :: t) 0) with (0xC0 + a).
    change (byte_at (0xC0 + a :: 0x80 + c :: t) 1) with (0x80 + c).
    rewrite cont_bits by assumption.
    change 0x1F with (Z.ones 5).
    rewrite (lead_bits 0xC0 a 5) by (try reflexivity; lia).
    rewrite Z.shiftl_mul_pow2 by lia.
    change (2 ^ 6) with 64.
    assert (E1 : Z.lor (a * 64) c = a * 64 + c).
    { apply (lor_add _ _ 6); [lia | lia | | change (2 ^ 6) with 64; lia].
      change (2 ^ 6) with 64. Z.div_mod_to_equations. lia. }
    rewrite E1, Ev. reflexivity. }
  destruct (Z.ltb_spec v 0x10000) as [H3|H3].
  { split; [discriminate|].
    set (a := v / 4096). set (b := (v / 64) mod 64). set (c := v mod 64).
    assert (Ha : 0 <= a < 16) by (unfold a; Z.div_mod_to_equations; lia).
    assert (Hb : 0 <= b < 64) by (unfold b; Z.div_mod_to_equations; lia).
    assert (Hc : 0 <= c < 64) by (unfold c; Z.div_mod_to_equations; lia).
    assert (Ev : a * 4096 + b * 64 + c = v)
      by (unfold a, b, c; Z.div_mod_to_equations; lia).
    assert (L : lead_len ([0xE0 + a; 0x80 + b; 0x80 + c] ++ t) = 3).
    { unfold lead_len. cbn [app].
      change (byte_at (0xE0 + a :: 0x80 + b :: 0x80 + c :: t) 0) with (0xE0 + a).
      rewrite uint8_small, utf8_char_len_byte by lia.
      destruct (Z.ltb_spec (0xE0 + a) 0xC0); [lia|].
      destruct (Z.ltb_spec (0xE0 + a) 0xE0); [lia|].
      destruct (Z.ltb_spec (0xE0 + a) 0xF0); [reflexivity | lia]. }
    split; [exact L|].
    unfold utf8_decode. fold (lead_len ([0xE0 + a; 0x80 + b; 0x80 + c] ++ t)). rewrite L.
    cbn [app]. rewrite !zlen_cons.
    destruct (Z.eqb_spec (1 + (1 + (1 + zlen t))) 0); [lia|].
    rewrite Z.gtb_ltb. destruct (Z.ltb_spec (1 + (1 + (1 + zlen t))) 3); [lia|].
    change (3 =? 1) with false. change (3 =? 2) with false.
    change (3 =? 3) with true. cbv iota.
    change (byte_at (0xE0 + a :: 0x80 + b :: 0x80 + c :: t) 0) with (0xE0 + a).
    change (byte_at (0xE0 + a :: 0x80 + b :: 0x80 + c :: t) 1) with (0x80 + b).
    change (byte_at (0xE0 + a :: 0x80 + b :: 0x80 + c :: t) 2) with (0x80 + c).
    rewrite !cont_bits by assumption.
    change 0x0F with (Z.ones 4).
    rewrite (lead_bits 0xE0 a 4) by (try reflexivity; lia).
    rewrite !Z.shiftl_mul_pow2 by lia.
    change (2 ^ 12) with 4096. change (2 ^ 6) with 64.
    assert (E1 : Z.lor (a * 4096) (b * 64) = a * 4096 + b * 64).
    { apply (lor_add _ _ 12); [lia | lia | | change (2 ^ 12) with 4096; lia].
      change (2 ^ 12) with 4096. Z.div_mod_to_equations. lia. }
    assert (E2 : Z.lor (a * 4096 + b * 64) c = a * 4096 + b * 64 + c).
    { apply (lor_add _ _ 6); [lia | lia | | change (2 ^ 6) with 64; lia].
      change (2 ^ 6) with 64. Z.div_mod_to_equations. lia. }
    rewrite E1, E2, Ev. reflexivity. }
  split; [discriminate|].
  set (a := v / 262144). set (b := (v / 4096) mod 64).
  set (c := (v / 64) mod 64). set (d := v mod 64).
  assert (Ha : 0 <= a < 8) by (unfold a; Z.div_mod_to_equations; lia).
  assert (Hb : 0 <= b < 64) by (unfold b; Z.div_mod_to_equations; lia).
  assert (Hc : 0 <= c < 64) by (unfold c; Z.div_mod_to_equations; lia).
  assert (Hd : 0 <= d < 64) by (unfold d; Z.div_mod_to_equations; lia).
  assert (Ev : a * 262144 + b * 4096 + c * 64 + d = v)
    by (unfold a, b, c, d; Z.div_mod_to_equations; lia).
  assert (L : lead_len ([0xF0 + a; 0x80 + b; 0x80 + c; 0x80 + d] ++ t) = 4).
  { unfold lead_len. cbn [app].
    change (byte_at (0xF0 + a :: 0x80 + b :: 0x80 + c :: 0x80 + d :: t) 0)
      with (0xF0 + a).
    rewrite uint8_small, utf8_char_len_byte by lia.
    destruct (Z.ltb_spec (0xF0 + a) 0xC0); [lia|].
    destruct (Z.ltb_spec (0xF0 + a) 0xE0); [lia|].
    destruct (Z.ltb_spec (0xF0 + a) 0xF0); [lia|].
    destruct (Z.ltb_spec (0xF0 + a) 0xF8); [reflexivity | lia]. }
  split; [exact L|].
  unfold utf8_decode.
  fold (lead_len ([0xF0 + a; 0x80 + b; 0x80 + c; 0x80 + d] ++ t)). rewrite L.
  cbn [app]. rewrite !zlen_cons.
  destruct (Z.eqb_spec (1 + (1 + (1 + (1 + zlen t)))) 0); [lia|].
  rewrite Z.gtb_ltb. destruct (Z.ltb_spec (1 + (1 + (1 + (1 + zlen t)))) 4); [lia|].
  change (4 =? 1) with false. change (4 =? 2) with false.
  change (4 =? 3) with false. change (4 =? 4) with true. cbv iota.
  change (byte_at (0xF0 + a :: 0x80 + b :: 0x80 + c :: 0x80 + d :: t) 0)
    with (0xF0 + a).
  change (byte_at (0xF0 + a :: 0x80 + b :: 0x80 + c :: 0x80 + d :: t) 1)
    with (0x80 + b).
  change (byte_at (0xF0 + a :: 0x80 + b :: 0x80 + c :: 0x80 + d :: t) 2)
    with (0x80 + c).
  change (byte_at (0xF0 + a :: 0x80 + b :: 0x80 + c :: 0x80 + d :: t) 3)
    with (0x80 + d).
  rewrite !cont_bits by assumption.
  change 0x07 with (Z.ones 3).
  rewrite (lead_bits 0xF0 a 3) by (try reflexivity; lia).
  rewrite !Z.shiftl_mul_pow2 by lia.
  change (2 ^ 18) with 262144. change (2 ^ 12) with 4096. change (2 ^ 6) with 64.
  assert (E1 : Z.lor (a * 262144) (b * 4096) = a * 262144 + b * 4096).
  { apply (lor_add _ _ 18); [lia | lia | | change (2 ^ 18) with 262144; lia].
    change (2 ^ 18) with 262144. Z.div_mod_to_equations. lia. }
  assert (E2 : Z.lor (a * 262144 + b * 4096) (c * 64)
               = a * 262144 + b * 4096 + c * 64).
  { apply (lor_add _ _ 12); [lia | lia | | change (2 ^ 12) with 4096; lia].
    change (2 ^ 12) with 4096. Z.div_mod_to_equations. lia. }
  assert (E3 : Z.lor (a * 262144 + b * 4096 + c * 64) d
               = a * 262144 + b * 4096 + c * 64 + d).
  { apply (lor_add _ _ 6); [lia | lia | | change (2 ^ 6) with 64; lia].
    change (2 ^ 6) with 64. Z.div_mod_to_equations. lia. }
  rewrite E1, E2, E3, Ev. reflexivity.
Qed.

Lemma utf8_encode_all_cons (v : Z) (l : list Z) :
  utf8_encode_all (v :: l) = utf8_encode v ++ utf8_encode_all l.
Proof. reflexivity. Qed.

Lemma utf8_encode_all_app (l1 l2 : list Z) :
  utf8_encode_all (l1 ++ l2) = utf8_encode_all l1 ++ utf8_encode_all l2.
Proof. apply flat_map_app. Qed.

Lemma unicode_scalar_value_range (v : Z) :
  unicode_scalar_value v -> 0 <= v <= 0x10FFFF.
Proof. unfold unicode_scalar_value. lia. Qed.

(** The encoding of scalar values ends on a character boundary, and the
    decoder of the code reads the scalar values back from it. *)
Lemma utf8_scalars_encode_all (l : list Z) :
  Forall unicode_scalar_value l ->
  utf8_whole (utf8_encode_all l) /\ utf8_scalars (utf8_encode_all l) = l.
Proof.
  induction 1 as [|v l Hv _ (IHw & IHs)].
  - split; [apply utf8_whole_nil | reflexivity].
  - rewrite utf8_encode_all_cons.
    destruct (utf8_decode_encode v (utf8_encode_all l)
                (unicode_scalar_value_range v Hv)) as (Hne & Hl & Hd).
    assert (Hne' : utf8_encode v ++ utf8_encode_all l <> []).
    { intros E. apply app_eq_nil in E. tauto. }
    assert (Hle : lead_len (utf8_encode v ++ utf8_encode_all l)
                  <= zlen (utf8_encode v ++ utf8_encode_all l)).
    { rewrite Hl, zlen_app. pose proof (zlen_nonneg (utf8_encode_all l)). lia. }
    assert (Hdrop : drop (lead_len (utf8_encode v ++ utf8_encode_all l))
                      (utf8_encode v ++ utf8_encode_all l)
                    = utf8_encode_all l).
    { rewrite Hl, drop_app_r by lia. rewrite Z.sub_diag. apply drop_0. lia. }
    split.
    + apply utf8_whole_step; [assumption|]. rewrite Hdrop. split; assumption.
    + rewrite utf8_scalars_whole_step by assumption.
      rewrite Hdrop, Hd, IHs. reflexivity.
Qed.

Lemma leaves_unicode_text (t : rope_node_t) :
  leaves_unicode t ->
  leaves_whole t /\ exists chars, unicode_text (node_bytes t) chars.
Proof.
  induction t as [|c bw cw nw d cl nl|c bw cw nw l IHl r IHr]; simpl.
  - intros _. split; [exact I|]. exists []. split; [constructor | reflexivity].
  - intros (chars & Hs & ->). split; [|exists chars; split; [assumption | reflexivity]].
    apply utf8_scalars_encode_all. exact Hs.
  - intros (Hl & Hr).
    destruct (IHl Hl) as (Wl & cl & Sl & El).
    destruct (IHr Hr) as (Wr & cr & Sr & Er).
    split; [split; assumption|].
    exists (cl ++ cr). split; [apply Forall_app; split; assumption|].
    rewrite El, Er, utf8_encode_all_app. reflexivity.
Qed.

(** C6 (amended).  For every rope built by the public operations whose
    leaves hold well-formed UTF-8, the bytes of the rope are the UTF-8
    encoding of one sequence of Unicode scalar values, its characters;
    the rope has [char_len] of them; [rope_char_at rope p] is the [p]-th
    of them when [p < char_len], and 0 when [p >= char_len]; on
    "AB\xE6\x97\xA5\xE6\x9C\xAC" it returns 0x65E5 at 2 and 0x672C at 3. *)
Theorem C6_char_at (r : rope_t) (p : Z) :
  reachable any_position (Some r) -> leaves_unicode (root r) -> size_t p ->
  exists chars,
    unicode_text (rope_bytes (Some r)) chars
    /\ (forall chars', unicode_text (rope_bytes (Some r)) chars' -> chars' = chars)
    /\ Z.of_nat (length chars) = char_len r
    /\ (p < char_len r ->
        rope_char_at (Some r) p = nth (Z.to_nat p) chars 0
        /\ unicode_scalar_value (rope_char_at (Some r) p))
    /\ (char_len r <= p -> rope_char_at (Some r) p = 0)
    /\ rope_char_at (Some (rope_new_from_str str_nihon)) 2 = 0x65E5
    /\ rope_char_at (Some (rope_new_from_str str_nihon)) 3 = 0x672C.
Proof.
  intros Hreach Hu (Hp & _).
  destruct (leaves_unicode_text _ Hu) as (Hwh & chars & Hs & Eb).
  pose proof (reachable_whole_wf r Hreach Hwh) as Hwf.
  destruct (rope_char_at_scalars r p Hwf Hwh Hp) as (Hat & Hlen).
  destruct (utf8_scalars_encode_all chars Hs) as (_ & Hsc).
  rewrite Eb, Hsc in Hat, Hlen.
  exists chars.
  split; [split; assumption|].
  split.
  { intros chars' (Hs' & Eb'). simpl in Eb'. rewrite Eb in Eb'.
    destruct (utf8_scalars_encode_all chars' Hs') as (_ & Hsc').
    rewrite <- Hsc', <- Eb'. exact Hsc. }
  split; [exact Hlen|].
  split.
  { intros Hlt. rewrite (Hat Hlt). split; [reflexivity|].
    rewrite Forall_forall in Hs. apply Hs. apply nth_In. lia. }
  split; [|split; reflexivity].
  intros Hge. unfold rope_char_at. rewrite Z.geb_leb.
  destruct (Z.leb_spec (char_len r) p); [reflexivity | lia].
Qed.

Lemma C6_witness :
  exists chars,
    unicode_text (rope_bytes (Some (rope_new_from_str str_nihon))) chars
    /\ (forall chars',
          unicode_text (rope_bytes (Some (rope_new_from_str str_nihon))) chars' ->
          chars' = chars)
    /\ Z.of_nat (length chars) = char_len (rope_new_from_str str_nihon)
    /\ (2 < char_len (rope_new_from_str str_nihon) ->
        rope_char_at (Some (rope_new_from_str str_nihon)) 2 = nth (Z.to_nat 2) chars 0
        /\ unicode_scalar_value (rope_char_at (Some (rope_new_from_str str_nihon)) 2))
    /\ (char_len (rope_new_from_str str_nihon) <= 2 ->
        rope_char_at (Some (rope_new_from_str str_nihon)) 2 = 0)
    /\ rope_char_at (Some (rope_new_from_str str_nihon)) 2 = 0x65E5
    /\ rope_char_at (Some (rope_new_from_str str_nihon)) 3 = 0x672C.
Proof.
  apply (C6_char_at (rope_new_from_str str_nihon) 2).
  - apply reach_new_from_str.
  - exists [65; 66; 0x65E5; 0x672C]. split; [|reflexivity].
    unfold unicode_scalar_value. repeat constructor; lia.
  - unfold size_t. vm_compute. split; [discriminate | reflexivity].
Defined.

(** C6 as stated fails on [rope_nichi_cut]: the bytes of the rope are E6 97
    A5, the encoding of the one character U+65E5, yet the rope reports
    three characters, the first of which reads U+FFFD. *)
Lemma C6_counterexample :
  reachable any_position rope_nichi_cut
  /\ rope_bytes rope_nichi_cut = str_nichi
  /\ unicode_text (rope_bytes rope_nichi_cut) [0x65E5]
  /\ 0 < rope_char_length rope_nichi_cut
  /\ rope_char_length rope_nichi_cut = 3
  /\ rope_char_at rope_nichi_cut 0 = 0xFFFD
  /\ rope_char_at rope_nichi_cut 0 <> nth 0 [0x65E5] 0.
Proof.
  assert (Hs : size_t 1) by (unfold size_t; vm_compute; split; [discriminate | reflexivity]).
  split; [|split; [|split; [|split; [|split; [|split]]]]].
  - apply reach_concat;
      [apply reach_split_bytes_left | apply reach_split_bytes_right];
      solve [apply reach_new_from_str | exact Hs].
  - reflexivity.
  - split; [|reflexivity]. unfold unicode_scalar_value. repeat constructor; lia.
  - reflexivity.
  - reflexivity.
  - reflexivity.
  - discriminate.
Qed.

(** ** C7: positions and lengths are clamped *)

Lemma wrap_le (x : Z) : 0 <= x -> wrap x <= x.
Proof.
  intros Hx. unfold wrap, SIZE_MAX1, SIZE_BITS.
  apply Z.mod_le; [assumption | reflexivity].
Qed.

Lemma rope_split_bytes_some (r : rope_t) (p : Z) :
  exists a b, rope_split_bytes (Some r) p = (Some a, Some b).
Proof.
  simpl. destruct (p =? 0); [eauto|].
  destruct (p >=? byte_len r); [eauto|].
  destruct (node_split_recursive (root r) p). eauto.
Qed.

Lemma rope_concat_some_l (a : rope_t) (b : option rope_t) :
  b <> None -> rope_concat (Some a) b <> None.
Proof.
  intros Hb. unfold rope_concat.
  destruct (byte_len a =? 0); [assumption|].
  destruct b as [r|]; [|congruence].
  destruct (byte_len r =? 0); discriminate.
Qed.

(** [rope_delete_bytes] removes the bytes from [start] up to [start + len]
    or the end of the rope, whichever comes first. *)
Lemma rope_delete_bytes_spec (full : bool) (r : rope_t) (start len : Z) :
  consistent full r -> 0 <= start -> 0 <= len ->
  rope_delete_bytes (Some r) start len <> None
  /\ rope_bytes (rope_delete_bytes (Some r) start len)
     = take start (node_bytes (root r)) ++ drop (start + len) (node_bytes (root r)).
Proof.
  intros Hr Hs Hl. pose proof Hr as (Hw & Hb & _).
  unfold rope_delete_bytes. rewrite Z.geb_leb.
  destruct (Z.leb_spec (byte_len r) start) as [Hpast|Hin].
  { split; [discriminate|]. simpl.
    rewrite take_all, drop_all by lia. now rewrite app_nil_r. }
  set (len' := if _ >? _ then _ else _).
  assert (Hlen' : 0 <= len'
                  /\ drop (start + len') (node_bytes (root r))
                     = drop (start + len) (node_bytes (root r))).
  { subst len'. rewrite Z.gtb_ltb.
    destruct (Z.ltb_spec (byte_len r) (wrap (start + len))) as [Hover|_].
    - pose proof (wrap_le (start + len)). split; [lia|].
      rewrite !drop_all by lia. reflexivity.
    - auto. }
  destruct Hlen' as (Hn' & Hdrop).
  destruct (Z.eqb_spec len' 0) as [E0|Hne].
  { split; [discriminate|]. simpl. rewrite <- Hdrop, E0, Z.add_0_r.
    now rewrite take_drop. }
  destruct (rope_split_bytes_spec full (Some r) start Hr) as (H1 & H2 & Hby).
  destruct (Hby Hs) as (B1 & B2).
  destruct (rope_split_bytes_some r start) as (a & b & E). rewrite E in *.
  simpl fst in *; simpl snd in *.
  destruct (rope_split_bytes_spec full (Some b) len' H2) as (_ & H3 & Hby').
  destruct (Hby' Hn') as (_ & B3).
  destruct (rope_split_bytes_some b len') as (m & rm & E'). rewrite E' in *.
  simpl fst in *; simpl snd in *.
  split; [apply rope_concat_some_l; discriminate|].
  destruct (rope_concat_spec full (Some a) (Some rm) H1 H3) as (_ & Bc).
  rewrite Bc, B1, B3, B2. simpl rope_bytes.
  rewrite drop_drop by lia. now rewrite Hdrop.
Qed.

(** C7.  [rope_insert_bytes] and [rope_delete_bytes] accept every position
    and length: they always return a rope; an insertion past the end
    appends; a deletion starting at or past the end changes nothing, one
    that extends past the end removes the bytes up to the end; an empty
    insertion and a zero-length deletion return the rope itself. *)
Theorem C7_positions_clamped (r : rope_t) (p start len : Z) (str : list Z) :
  reachable any_position (Some r) ->
  size_t p -> size_t start -> size_t len ->
  let content := node_bytes (root r) in
  (rope_insert_bytes (Some r) p str <> None
   /\ rope_bytes (rope_insert_bytes (Some r) p str)
      = take p content ++ str ++ drop p content
   /\ (byte_len r <= p ->
       rope_bytes (rope_insert_bytes (Some r) p str) = content ++ str)
   /\ rope_insert_bytes (Some r) p [] = Some r)
  /\ (rope_delete_bytes (Some r) start len <> None
      /\ rope_bytes (rope_delete_bytes (Some r) start len)
         = take start content ++ drop (start + len) content
      /\ (byte_len r <= start -> rope_delete_bytes (Some r) start len = Some r)
      /\ (byte_len r <= start + len ->
          rope_bytes (rope_delete_bytes (Some r) start len) = take start content)
      /\ rope_delete_bytes (Some r) start 0 = Some r).
Proof.
  intros Hreach Hp Hs Hl content.
  pose proof (reachable_consistent _ Hreach) as Hok. simpl in Hok.
  pose proof Hok as (Hw & Hb & _).
  unfold size_t in *.
  destruct (rope_insert_bytes_spec false (Some r) p str Hok) as (_ & Hins);
    [discriminate|].
  specialize (Hins (proj1 Hp)). change (rope_bytes (Some r)) with content in Hins.
  destruct (rope_delete_bytes_spec false r start len Hok) as (Hd1 & Hd2); try lia.
  fold content in Hd2.
  split; [split; [|split; [|split]] | split; [|split; [|split; [|split]]]].
  - unfold rope_insert_bytes. destruct (zlen str =? 0); discriminate.
  - apply Hins. discriminate.
  - intros Hge. rewrite Hins by discriminate.
    unfold content. rewrite take_all, drop_all by lia. now rewrite app_nil_r.
  - reflexivity.
  - exact Hd1.
  - exact Hd2.
  - intros Hge. unfold rope_delete_bytes. rewrite Z.geb_leb.
    destruct (Z.leb_spec (byte_len r) start); [reflexivity | lia].
  - intros Hge. rewrite Hd2. unfold content.
    rewrite (drop_all (start + len)) by lia. now rewrite app_nil_r.
  - unfold rope_delete_bytes. rewrite Z.geb_leb.
    destruct (Z.leb_spec (byte_len r) start); [reflexivity|].
    rewrite Z.add_0_r, Z.gtb_ltb.
    destruct (Z.ltb_spec (byte_len r) (wrap start)) as [Hover|_].
    + pose proof (wrap_le start). lia.
    + reflexivity.
Qed.

Lemma C7_witness :
  let r := rope_new_from_str str_hello_world in
  let content := node_bytes (root r) in
  (rope_insert_bytes (Some r) 1000 [63] <> None
   /\ rope_bytes (rope_insert_bytes (Some r) 1000 [63])
      = take 1000 content ++ [63] ++ drop 1000 content
   /\ (byte_len r <= 1000 ->
       rope_bytes (rope_insert_bytes (Some r) 1000 [63]) = content ++ [63])
   /\ rope_insert_bytes (Some r) 1000 [] = Some r)
  /\ (rope_delete_bytes (Some r) 5 (SIZE_MAX1 - 1) <> None
      /\ rope_bytes (rope_delete_bytes (Some r) 5 (SIZE_MAX1 - 1))
         = take 5 content ++ drop (5 + (SIZE_MAX1 - 1)) content
      /\ (byte_len r <= 5 -> rope_delete_bytes (Some r) 5 (SIZE_MAX1 - 1) = Some r)
      /\ (byte_len r <= 5 + (SIZE_MAX1 - 1) ->
          rope_bytes (rope_delete_bytes (Some r) 5 (SIZE_MAX1 - 1)) = take 5 content)
      /\ rope_delete_bytes (Some r) 5 0 = Some r).
Proof.
  apply (C7_positions_clamped (rope_new_from_str str_hello_world)
           1000 5 (SIZE_MAX1 - 1) [63]).
  - apply reach_new_from_str.
  - unfold size_t. vm_compute. split; [discriminate | reflexivity].
  - unfold size_t. vm_compute. split; [discriminate | reflexivity].
  - unfold size_t. vm_compute. split; [discriminate | reflexivity].
Defined.

(** ** C8: the start of a line *)

Arguments rope_char_at : simpl never.

Lemma newline_chars_succ (rope : rope_t) (i : Z) :
  0 <= i ->
  newline_chars rope (Z.to_nat (i + 1))
  = newline_chars rope (Z.to_nat i)
    + (if rope_char_at (Some rope) i =? 10 then 1 else 0).
Proof.
  intros Hi. replace (Z.to_nat (i + 1)) with (S (Z.to_nat i)) by lia.
  simpl. rewrite Z2Nat.id by assumption. reflexivity.
Qed.

Lemma newline_chars_mono (rope : rope_t) (n m : nat) :
  (n <= m)%nat -> newline_chars rope n <= newline_chars rope m.
Proof.
  induction 1 as [|m _ IH]; [lia|].
  simpl. destruct (_ =? 10); lia.
Qed.

Lemma line_to_char_loop_spec (rope : rope_t) (line : Z) (fuel : nat) :
  forall i current_line,
    0 <= i -> Z.of_nat fuel = char_len rope - i ->
    current_line = newline_chars rope (Z.to_nat i) ->
    let res := line_to_char_loop fuel rope line i current_line in
    i <= res <= char_len rope
    /\ (res < char_len rope -> newline_chars rope (Z.to_nat res) = line)
    /\ (forall j, i <= j < res -> newline_chars rope (Z.to_nat j) <> line).
Proof.
  induction fuel as [|fuel IH]; intros i cur Hi Hfuel Hcur; simpl.
  - split; [lia|]. split; intros; lia.
  - destruct (Z.ltb_spec i (char_len rope)); [|lia].
    destruct (Z.eqb_spec cur line) as [E|Ne].
    + split; [lia|]. split; [intros _; congruence | intros; lia].
    + destruct (IH (i + 1)
                  (if rope_char_at (Some rope) i =? 10 then cur + 1 else cur))
        as (Hr & Hfound & Hmin); try lia.
      { rewrite newline_chars_succ by assumption. rewrite <- Hcur.
        destruct (_ =? 10); lia. }
      split; [lia|]. split; [exact Hfound|].
      intros j Hj. destruct (Z.eq_dec j i) as [->|Hji].
      * congruence.
      * apply Hmin. lia.
Qed.

(** The newline characters [rope_char_at] sees are the newline scalars of
    the rope's bytes. *)
Lemma newline_chars_scalars (r : rope_t) :
  rope_wf r -> leaves_whole (root r) ->
  forall n, Z.of_nat n <= char_len r ->
    newline_chars r n
    = count_newline_scalars (firstn n (utf8_scalars (node_bytes (root r)))).
Proof.
  intros Hwf Hwh. induction n as [|n IH]; intros Hn; [reflexivity|].
  cbn [newline_chars]. rewrite IH by lia.
  destruct (rope_char_at_scalars r (Z.of_nat n) Hwf Hwh ltac:(lia)) as (Hat & Hlen).
  rewrite Hat by lia. rewrite Nat2Z.id.
  rewrite count_newline_scalars_firstn_succ by lia. reflexivity.
Qed.

(** On well-formed text the rope counts exactly the newlines its
    characters show. *)
Lemma newline_chars_total (r : rope_t) :
  rope_wf r -> leaves_well_formed (root r) ->
  newline_chars r (Z.to_nat (char_len r)) = newlines r.
Proof.
  intros Hwf Hok.
  pose proof (leaves_well_formed_whole _ Hok) as Hwh.
  destruct (rope_char_at_scalars r 0 Hwf Hwh ltac:(lia)) as (_ & Hlen).
  rewrite (newline_chars_scalars r Hwf Hwh) by lia.
  rewrite <- Hlen, Nat2Z.id, firstn_all.
  rewrite leaves_well_formed_newlines by assumption.
  destruct Hwf as (_ & _ & Hn & _). congruence.
Qed.

(** The start of a line.  [rope_line_to_char rope k] is the first
    character index preceded by exactly [k] characters that [rope_char_at]
    reads as a newline: 0 for [k = 0], otherwise the index just after the
    [k]-th such character; it is [char_len] when there is no such index, in
    particular when the rope has fewer than [k] such characters.  That is
    the case for [k >= rope_line_count rope] as soon as those characters
    are no more numerous than the newline bytes the rope counts, and so for
    every rope built by the public operations whose leaves hold well-formed
    UTF-8. *)
Lemma rope_line_to_char_newlines (r : rope_t) (k : Z) :
  0 <= k -> 0 <= char_len r ->
  let res := rope_line_to_char (Some r) k in
  let total := newline_chars r (Z.to_nat (char_len r)) in
  0 <= res <= char_len r
  /\ (k = 0 -> res = 0)
  /\ (res < char_len r -> newline_chars r (Z.to_nat res) = k)
  /\ (0 < k -> res < char_len r -> rope_char_at (Some r) (res - 1) = 10)
  /\ (forall j, 0 <= j < res -> newline_chars r (Z.to_nat j) <> k)
  /\ (total < k -> res = char_len r)
  /\ (total <= newlines r -> rope_line_count (Some r) <= k -> res = char_len r)
  /\ (reachable any_position (Some r) -> leaves_well_formed (root r) ->
      rope_line_count (Some r) <= k -> res = char_len r).
Proof.
  intros Hk Hc res total.
  destruct (line_to_char_loop_spec r k (Z.to_nat (char_len r)) 0 0)
    as (Hr & Hfound & Hmin); [lia | lia | reflexivity |].
  fold (rope_line_to_char (Some r) k) in Hr, Hfound, Hmin. fold res in Hr, Hfound, Hmin.
  assert (Hstart : k = 0 -> res = 0).
  { intros ->. destruct (Z.eq_dec res 0) as [|Hne]; [assumption|].
    exfalso. apply (Hmin 0); [lia | reflexivity]. }
  assert (Hfew : total < k -> res = char_len r).
  { intros Hlt. destruct (Z.eq_dec res (char_len r)) as [|Hne]; [assumption|].
    exfalso. pose proof (Hfound ltac:(lia)) as E.
    pose proof (newline_chars_mono r (Z.to_nat res) (Z.to_nat (char_len r)) ltac:(lia)).
    fold total in H. lia. }
  split; [lia|]. split; [exact Hstart|]. split; [exact Hfound|].
  split; [|split; [exact Hmin | split; [exact Hfew | split]]].
  - intros Hpos Hlt.
    assert (Hres : 0 < res).
    { destruct (Z.eq_dec res 0) as [E|]; [|lia].
      pose proof (Hfound Hlt) as F. rewrite E in F. simpl in F. lia. }
    pose proof (Hfound Hlt) as F.
    pose proof (Hmin (res - 1) ltac:(lia)) as G.
    replace res with (res - 1 + 1) in F at 1 by lia.
    rewrite newline_chars_succ in F by lia.
    destruct (Z.eqb_spec (rope_char_at (Some r) (res - 1)) 10); [assumption | lia].
  - intros Hle Hline. apply Hfew. simpl in Hline. lia.
  - intros Hreach Hok Hline. apply Hfew. simpl in Hline.
    pose proof (reachable_whole_wf r Hreach (leaves_well_formed_whole _ Hok)) as Hwf.
    unfold total. rewrite newline_chars_total by assumption. lia.
Qed.

Lemma rope_line_to_char_newlines_three_lines :
  let r := rope_new_from_str str_three_lines in
  let res := rope_line_to_char (Some r) 2 in
  let total := newline_chars r (Z.to_nat (char_len r)) in
  0 <= res <= char_len r
  /\ (2 = 0 -> res = 0)
  /\ (res < char_len r -> newline_chars r (Z.to_nat res) = 2)
  /\ (0 < 2 -> res < char_len r -> rope_char_at (Some r) (res - 1) = 10)
  /\ (forall j, 0 <= j < res -> newline_chars r (Z.to_nat j) <> 2)
  /\ (total < 2 -> res = char_len r)
  /\ (total <= newlines r -> rope_line_count (Some r) <= 2 -> res = char_len r)
  /\ (reachable any_position (Some r) -> leaves_well_formed (root r) ->
      rope_line_count (Some r) <= 2 -> res = char_len r).
Proof.
  apply (rope_line_to_char_newlines (rope_new_from_str str_three_lines) 2).
  - discriminate.
  - vm_compute. discriminate.
Defined.

(** C8.  [rope_line_to_char] on "\xC0\x8Ax", line 1.  The text holds no
    newline byte, so [rope_line_count] is 1 and line 1 is past the last
    line; the rope has two characters; [rope_char_at] reads the first one,
    the overlong sequence C0 8A, as U+000A, so [rope_line_to_char] returns
    1 and not [char_len = 2]. *)
Theorem C8_line_after_overlong_newline :
  reachable any_position rope_overlong_newline
  /\ count_newlines str_overlong_newline = 0
  /\ rope_line_count rope_overlong_newline = 1
  /\ rope_char_length rope_overlong_newline = 2
  /\ utf8_decode str_overlong_newline = (10, 2)
  /\ rope_char_at rope_overlong_newline 0 = 10
  /\ rope_line_to_char rope_overlong_newline 1 = 1
  /\ rope_line_to_char rope_overlong_newline 1
     <> rope_char_length rope_overlong_newline.
Proof.
  split; [apply reach_new_from_str|].
  vm_compute. repeat split; discriminate.
Qed.

(** ** C9: flattening and re-ingesting *)

Lemma rope_new_from_str_stats (str : list Z) :
  rope_stats (Some (rope_new_from_str str))
  = mk_stats (zlen str) (utf8_char_count str) (count_newlines str).
Proof.
  unfold rope_new_from_str. rewrite Z.gtb_ltb.
  destruct (Z.ltb_spec 0 (zlen str)); [reflexivity|].
  pose proof (zlen_nonneg str).
  assert (E : str = []) by (apply zlen_zero; lia). subst. reflexivity.
Qed.

(** C9 (amended).  For every rope built by the public operations whose
    traversal fits the 64-entry stack, [rope_to_string] returns [byte_len]
    bytes, and a rope re-built from them with [rope_new_from_str] has the
    same byte and newline totals; it has the same character total as well,
    hence the same stats, when no leaf of the rope ends inside a multi-byte
    sequence. *)
Theorem C9_to_string_reingest (rope : option rope_t) :
  reachable any_position rope ->
  rope_stack_need rope <= STACK_SIZE ->
  exists str,
    rope_to_string rope = Some str
    /\ zlen str = rope_byte_length rope
    /\ bytes (rope_stats (Some (rope_new_from_str str))) = bytes (rope_stats rope)
    /\ stat_newlines (rope_stats (Some (rope_new_from_str str)))
       = stat_newlines (rope_stats rope)
    /\ (leaves_whole (rope_root rope) ->
        rope_stats (Some (rope_new_from_str str)) = rope_stats rope).
Proof.
  intros Hreach Hh.
  pose proof (reachable_consistent rope Hreach) as Hok.
  pose proof (reachable_whole_consistent rope Hreach) as Hwc.
  exists (rope_bytes rope).
  split; [apply (rope_to_string_bytes false); assumption|].
  rewrite rope_new_from_str_stats.
  destruct rope as [r|]; simpl.
  - destruct Hok as (Hw & Hb & Hn & _).
    split; [auto|]. split; [auto|]. split; [auto|].
    intros Hwhole. simpl in Hwc. specialize (Hwc Hwhole).
    destruct (leaves_whole_bytes _ Hwhole) as (_ & Hcount).
    rewrite Hcount, <- Hb, <- Hn, <- Hwc. reflexivity.
  - auto.
Qed.

Lemma C9_witness :
  exists str,
    rope_to_string (Some (rope_new_from_str str_hello_world)) = Some str
    /\ zlen str = rope_byte_length (Some (rope_new_from_str str_hello_world))
    /\ bytes (rope_stats (Some (rope_new_from_str str)))
       = bytes (rope_stats (Some (rope_new_from_str str_hello_world)))
    /\ stat_newlines (rope_stats (Some (rope_new_from_str str)))
       = stat_newlines (rope_stats (Some (rope_new_from_str str_hello_world)))
    /\ (leaves_whole (rope_root (Some (rope_new_from_str str_hello_world))) ->
        rope_stats (Some (rope_new_from_str str))
        = rope_stats (Some (rope_new_from_str str_hello_world))).
Proof.
  apply (C9_to_string_reingest (Some (rope_new_from_str str_hello_world))).
  - apply reach_new_from_str.
  - vm_compute. discriminate.
Defined.

(** C9 as stated fails on [rope_nichi_cut]: it has 3 characters, the rope re-built
    from its bytes has 1. *)
Lemma C9_counterexample :
  reachable any_position rope_nichi_cut
  /\ handle_ok true rope_nichi_cut
  /\ rope_to_string rope_nichi_cut = Some str_nichi
  /\ rope_stats rope_nichi_cut = mk_stats 3 3 0
  /\ rope_stats (Some (rope_new_from_str str_nichi)) = mk_stats 3 1 0
  /\ rope_stats (Some (rope_new_from_str str_nichi)) <> rope_stats rope_nichi_cut.
Proof.
  assert (Hs : size_t 1) by (unfold size_t; vm_compute; split; [discriminate | reflexivity]).
  split; [|split; [|split; [|split; [|split]]]].
  - apply reach_concat;
      [apply reach_split_bytes_left | apply reach_split_bytes_right];
      solve [apply reach_new_from_str | exact Hs].
  - vm_compute. intuition discriminate.
  - reflexivity.
  - reflexivity.
  - reflexivity.
  - discriminate.
Qed.

(** ** C10: queries on a NULL handle *)

(** C10.  Every read-only query on a NULL rope handle returns the answer
    for the empty document. *)
Theorem C10_null_handle_queries :
  rope_byte_length None = 0
  /\ rope_char_length None = 0
  /\ (forall p, rope_char_at None p = 0)
  /\ rope_stats None = mk_stats 0 0 0
  /\ rope_line_count None = 1
  /\ (forall k, rope_char_to_byte None k = 0)
  /\ (forall b, rope_byte_to_char None b = 0)
  /\ (forall k, rope_line_to_char None k = 0)
  /\ rope_to_string None = Some [].
Proof. repeat split; reflexivity. Qed.

(** ** Scenarios of the specification and of the test suite *)

Example scenario_hello_world :
  rope_stats (Some (rope_new_from_str str_hello_world)) = mk_stats 13 13 0
  /\ rope_to_string (Some (rope_new_from_str str_hello_world)) = Some str_hello_world.
Proof. vm_compute. split; reflexivity. Qed.

Example scenario_insert_middle :
  rope_to_string (rope_insert_bytes (Some (rope_new_from_str str_helo)) 2 [108])
  = Some str_hello
  /\ rope_stats (rope_insert_bytes (Some (rope_new_from_str str_helo)) 2 [108])
     = mk_stats 5 5 0.
Proof. vm_compute. split; reflexivity. Qed.

Example scenario_cafe :
  rope_char_length (Some (rope_new_from_str str_cafe)) = 4
  /\ rope_char_to_byte (Some (rope_new_from_str str_cafe)) 3 = 3
  /\ rope_char_to_byte (Some (rope_new_from_str str_cafe)) 4 = 5
  /\ rope_byte_to_char (Some (rope_new_from_str str_cafe)) 4 = 3.
Proof. vm_compute. repeat split; reflexivity. Qed.

Example scenario_split_digits :
  let halves := rope_split_bytes (Some (rope_new_from_str digits)) 3 in
  rope_to_string (fst halves) = Some [48; 49; 50]
  /\ rope_to_string (snd halves) = Some [51; 52; 53; 54; 55; 56; 57]
  /\ rope_to_string (fst (rope_split_bytes (snd halves) 3)) = Some [51; 52; 53]
  /\ rope_to_string (snd (rope_split_bytes (snd halves) 3)) = Some [54; 55; 56; 57].
Proof. vm_compute. repeat split; reflexivity. Qed.

Example scenario_three_lines :
  rope_line_count (Some (rope_new_from_str str_three_lines)) = 3
  /\ rope_line_to_char (Some (rope_new_from_str str_three_lines)) 0 = 0
  /\ rope_line_to_char (Some (rope_new_from_str str_three_lines)) 1 = 7
  /\ rope_line_to_char (Some (rope_new_from_str str_three_lines)) 2 = 14
  /\ rope_line_to_char (Some (rope_new_from_str str_three_lines)) 3 = 20.
Proof. vm_compute. repeat split; reflexivity. Qed.

(** [boundary_inserts] of the test suite: "ABC" becomes "0A2BC4". *)
Example scenario_boundary_inserts :
  rope_to_string
    (rope_insert_bytes
       (rope_insert_bytes
          (rope_insert_bytes (Some (rope_new_from_str [65; 66; 67])) 0 [48])
          4 [52])
       2 [50])
  = Some [48; 65; 50; 66; 67; 52].
Proof. vm_compute. reflexivity. Qed.

(** [empty_operations] of the test suite. *)
Example scenario_empty_operations :
  rope_byte_length (Some rope_new) = 0
  /\ rope_char_at (Some rope_new) 0 = 0
  /\ rope_line_count (Some rope_new) = 1
  /\ rope_byte_length (rope_insert_bytes (Some rope_new) 0 [88]) = 1
  /\ rope_byte_length
       (rope_delete_bytes (rope_insert_bytes (Some rope_new) 0 [88]) 0 1) = 0.
Proof. vm_compute. repeat split; reflexivity. Qed.

Example well_formed_texts :
  utf8_well_formed str_three_lines /\ utf8_well_formed str_nihon
  /\ utf8_well_formed str_cafe /\ ~ utf8_well_formed str_overlong_newline.
Proof. vm_compute. repeat split; try reflexivity. discriminate. Qed.

(** The limit of the traversal stack: 64 nested concatenations still
    flatten, the 65th makes [rope_to_string] push onto the full stack. *)
Example to_string_stack_limit :
  rope_stack_need (left_nested 64) = 64
  /\ rope_to_string (left_nested 64) = Some (repeat 120 65)
  /\ rope_stack_need (left_nested 65) = 65
  /\ rope_to_string (left_nested 65) = None.
Proof. vm_compute. repeat split; reflexivity. Qed.

Lemma left_nested_reachable (n : nat) : reachable any_position (left_nested n).
Proof.
  induction n as [|n IH]; simpl.
  - apply reach_new_from_str.
  - apply reach_concat; [exact IH | apply reach_new_from_str].
Qed.

(** * Further properties of the code *)

(** * Further properties of the code *)

(** ** Decoding one character *)

Lemma lor_below (n a b : Z) :
  0 <= n -> 0 <= a < 2 ^ n -> 0 <= b < 2 ^ n -> 0 <= Z.lor a b < 2 ^ n.
Proof.
  intros Hn Ha Hb.
  assert (H0 : 0 <= Z.lor a b) by (apply Z.lor_nonneg; lia).
  split; [assumption|].
  destruct (Z.eq_dec (Z.lor a b) 0) as [E|Ne]; [rewrite E; lia|].
  assert (Hpos : 0 < n).
  { destruct (Z.eq_dec n 0) as [->|]; [|lia].
    exfalso. apply Ne. replace a with 0 by (simpl in Ha; lia).
    replace b with 0 by (simpl in Hb; lia). reflexivity. }
  apply Z.log2_lt_pow2; [lia|].
  rewrite Z.log2_lor by lia.
  apply Z.max_lub_lt.
  - destruct (Z.eq_dec a 0) as [->|Na]; [simpl; lia|]. apply Z.log2_lt_pow2; lia.
  - destruct (Z.eq_dec b 0) as [->|Nb]; [simpl; lia|]. apply Z.log2_lt_pow2; lia.
Qed.

(** A field of [j] bits moved up by [k] bits. *)
Lemma field_below (x j k : Z) :
  0 <= j -> 0 <= k ->
  0 <= Z.shiftl (Z.land x (Z.ones j)) k < 2 ^ (j + k).
Proof.
  intros Hj Hk. rewrite Z.land_ones by assumption.
  pose proof (Z.mod_pos_bound x (2 ^ j) ltac:(lia)) as Hm.
  rewrite Z.shiftl_mul_pow2 by assumption.
  rewrite Z.pow_add_r by assumption.
  split; [apply Z.mul_nonneg_nonneg; lia|].
  apply Z.mul_lt_mono_pos_r; lia.
Qed.

Lemma field_below_21 (x j k : Z) :
  0 <= j -> 0 <= k -> j + k <= 21 ->
  0 <= Z.shiftl (Z.land x (Z.ones j)) k < 2 ^ 21.
Proof.
  intros Hj Hk Hle. pose proof (field_below x j k Hj Hk) as H.
  assert (2 ^ (j + k) <= 2 ^ 21) by (apply Z.pow_le_mono_r; lia).
  lia.
Qed.

Lemma uint8_range (x : Z) : 0 <= uint8 x < 256.
Proof. unfold uint8. apply Z.mod_pos_bound. lia. Qed.

Lemma utf8_decode_scalar_range (str : list Z) :
  0 <= fst (utf8_decode str) < 2 ^ 21.
Proof.
  unfold utf8_decode.
  destruct (zlen str =? 0); [simpl; lia|].
  destruct (_ >? _); [simpl; lia|].
  cbn [fst].
  pose proof (uint8_range (byte_at str 0)) as H0.
  assert (F1 : forall x, 0 <= Z.land x 0x3F < 2 ^ 21).
  { intros x. pose proof (field_below_21 x 6 0) as H.
    rewrite Z.shiftl_0_r in H. apply H; lia. }
  destruct (_ =? 1); [lia|].
  destruct (_ =? 2).
  { apply lor_below; [lia | | apply F1].
    apply (field_below_21 _ 5 6); lia. }
  destruct (_ =? 3).
  { apply lor_below; [lia | | apply F1].
    apply lor_below; [lia | |].
    - apply (field_below_21 _ 4 12); lia.
    - apply (field_below_21 _ 6 6); lia. }
  destruct (_ =? 4); [|lia].
  apply lor_below; [lia | | apply F1].
  apply lor_below; [lia | |].
  - apply lor_below; [lia | |].
    + apply (field_below_21 _ 3 18); lia.
    + apply (field_below_21 _ 6 12); lia.
  - apply (field_below_21 _ 6 6); lia.
Qed.

(** X1.  [utf8_decode] on a non-empty slice consumes at least one byte,
    never more than four and never more than the slice holds, and the
    scalar it returns has at most 21 bits; on an empty slice it returns 0
    and consumes nothing. *)
Theorem utf8_decode_bounds (str : list Z) :
  str <> [] ->
  1 <= snd (utf8_decode str) <= Z.min 4 (zlen str)
  /\ 0 <= fst (utf8_decode str) <= 0x1FFFFF
  /\ utf8_decode [] = (0, 0).
Proof.
  intros Hs. pose proof (nonempty_zlen str Hs) as Hlen.
  pose proof (utf8_decode_scalar_range str) as Hr.
  pose proof (lead_len_range str) as Hl.
  rewrite utf8_decode_read by assumption. rewrite Z.gtb_ltb.
  split; [|split; [change (2 ^ 21) with 2097152 in Hr; lia | reflexivity]].
  destruct (Z.ltb_spec (zlen str) (lead_len str)); lia.
Qed.

Lemma utf8_decode_bounds_witness :
  1 <= snd (utf8_decode str_nichi) <= Z.min 4 (zlen str_nichi)
  /\ 0 <= fst (utf8_decode str_nichi) <= 0x1FFFFF
  /\ utf8_decode [] = (0, 0).
Proof.
  apply (utf8_decode_bounds str_nichi). discriminate.
Defined.

(** ** Counting characters *)

(** X2.  Every character takes between one and four bytes: a slice of
    [n] bytes counts at most [n] characters and at least [n / 4]. *)
Theorem utf8_char_count_bounds (str : list Z) :
  utf8_char_count str <= zlen str <= 4 * utf8_char_count str.
Proof.
  induction str as [|s Hs IH] using utf8_ind.
  - rewrite utf8_char_count_nil, zlen_nil. lia.
  - pose proof (nonempty_zlen s Hs). pose proof (lead_len_range s).
    rewrite utf8_char_count_step by assumption.
    destruct (Z.le_gt_cases (lead_len s) (zlen s)).
    + rewrite zlen_drop in IH by lia. lia.
    + rewrite drop_all by lia. rewrite utf8_char_count_nil. lia.
Qed.

(** ** Character boundaries of a byte string *)

Lemma utf8_whole_app_inv (s1 s2 : list Z) :
  utf8_whole s1 -> utf8_whole (s1 ++ s2) -> utf8_whole s2.
Proof.
  induction s1 as [|s1 Hs IH] using utf8_ind; intros Hw1 Hw.
  - exact Hw.
  - apply utf8_whole_step in Hw1; [|assumption]. destruct Hw1 as (Hle & Hw1).
    apply utf8_whole_step in Hw.
    2:{ intros E. apply app_eq_nil in E. tauto. }
    rewrite lead_len_app in Hw by assumption.
    rewrite drop_app_l in Hw by lia.
    apply IH; tauto.
Qed.

(** Past its last character a whole string converts to its length. *)
Lemma utf8_char_to_byte_past (s : list Z) :
  utf8_whole s -> forall k, utf8_char_count s <= k -> utf8_char_to_byte s k = zlen s.
Proof.
  induction s as [|s Hs IH] using utf8_ind; intros Hw k Hk.
  - reflexivity.
  - apply utf8_whole_step in Hw; [|assumption]. destruct Hw as (Hle & Hw).
    pose proof (lead_len_range s).
    pose proof (utf8_char_count_nonneg (drop (lead_len s) s)).
    rewrite utf8_char_count_step in Hk by assumption.
    rewrite utf8_char_to_byte_step by assumption.
    destruct (Z.ltb_spec 0 k); [|lia].
    rewrite Z.gtb_ltb. destruct (Z.ltb_spec (zlen s) (lead_len s)); [lia|].
    rewrite IH by (assumption || lia). rewrite zlen_drop by lia. lia.
Qed.

(** The prefix [utf8_char_to_byte] delimits holds whole characters, as many
    as were asked for when the string has that many. *)
Lemma utf8_char_to_byte_prefix (s : list Z) :
  forall k,
    utf8_whole (take (utf8_char_to_byte s k) s)
    /\ (utf8_whole s -> 0 <= k ->
        utf8_char_count (take (utf8_char_to_byte s k) s)
        = Z.min k (utf8_char_count s)).
Proof.
  induction s as [|s Hs IH] using utf8_ind; intros k.
  - rewrite utf8_char_to_byte_nil. split; [apply utf8_whole_nil|].
    intros _ Hk. unfold take. simpl. rewrite utf8_char_count_nil. lia.
  - pose proof (nonempty_zlen s Hs) as Hlen.
    pose proof (lead_len_range s) as Hr.
    pose proof (utf8_char_count_nonneg (drop (lead_len s) s)) as Hc.
    rewrite utf8_char_to_byte_step by assumption.
    assert (H0 : utf8_whole (take 0 s)) by apply utf8_whole_nil.
    destruct (Z.ltb_spec 0 k) as [Hpos|Hz].
    2:{ split; [exact H0|]. intros _ Hk.
        change (utf8_char_count (take 0 s)) with 0.
        rewrite utf8_char_count_step by assumption. lia. }
    rewrite Z.gtb_ltb. destruct (Z.ltb_spec (zlen s) (lead_len s)) as [Hcut|Hfit].
    { split; [exact H0|]. intros Hw _.
      apply utf8_whole_step in Hw; [|assumption]. lia. }
    destruct (IH (k - 1)) as (IHw & IHc).
    destruct (utf8_char_to_byte_props (drop (lead_len s) s) (k - 1)) as ((Hp0 & Hp1) & _).
    rewrite zlen_drop in Hp1 by lia.
    set (p' := utf8_char_to_byte (drop (lead_len s) s) (k - 1)) in *.
    rewrite take_add by lia.
    assert (Hlead : utf8_whole (take (lead_len s) s)).
    { apply utf8_whole_step.
      - intros E. apply (f_equal zlen) in E. rewrite zlen_take, zlen_nil in E; lia.
      - rewrite lead_len_take, zlen_take by lia. split; [lia|].
        rewrite drop_all by (rewrite zlen_take; lia). apply utf8_whole_nil. }
    split.
    + apply utf8_whole_app; assumption.
    + intros Hw Hk. apply utf8_whole_step in Hw; [|assumption].
      rewrite utf8_char_count_lead_app by assumption.
      rewrite (utf8_char_count_step s) by assumption.
      rewrite IHc by (tauto || lia). lia.
Qed.

Lemma utf8_char_to_byte_suffix (s : list Z) (k : Z) :
  utf8_whole s -> utf8_whole (drop (utf8_char_to_byte s k) s).
Proof.
  intros Hw. destruct (utf8_char_to_byte_prefix s k) as (Hp & _).
  apply (utf8_whole_app_inv _ _ Hp). rewrite take_drop. exact Hw.
Qed.

Lemma firstn_app_length (A : Type) (l1 l2 : list A) (n : nat) :
  n = length l1 -> firstn n (l1 ++ l2) = l1 /\ skipn n (l1 ++ l2) = l2.
Proof.
  intros ->. split.
  - rewrite firstn_app, Nat.sub_diag, firstn_all. simpl. apply app_nil_r.
  - rewrite skipn_app, Nat.sub_diag, skipn_all. reflexivity.
Qed.

(** The characters before and after a character position. *)
Lemma utf8_scalars_cut (s : list Z) (k : Z) :
  utf8_whole s -> 0 <= k ->
  utf8_scalars (take (utf8_char_to_byte s k) s)
  = firstn (Z.to_nat k) (utf8_scalars s)
  /\ utf8_scalars (drop (utf8_char_to_byte s k) s)
     = skipn (Z.to_nat k) (utf8_scalars s).
Proof.
  intros Hw Hk.
  destruct (utf8_char_to_byte_prefix s k) as (Hp & Hc). specialize (Hc Hw Hk).
  set (p := utf8_char_to_byte s k) in *.
  pose proof (utf8_scalars_app (take p s) (drop p s) Hp) as Happ.
  rewrite take_drop in Happ.
  pose proof (utf8_scalars_length _ Hp) as Hlen. rewrite Hc in Hlen.
  pose proof (utf8_scalars_length _ Hw) as Hlen'.
  destruct (Z.le_gt_cases k (utf8_char_count s)) as [Hle|Hgt].
  - rewrite Happ.
    destruct (firstn_app_length Z (utf8_scalars (take p s)) (utf8_scalars (drop p s))
                (Z.to_nat k)) as (H1 & H2); [lia|].
    split; [symmetry; exact H1 | symmetry; exact H2].
  - assert (Ep : p = zlen s) by (apply utf8_char_to_byte_past; [assumption | lia]).
    rewrite Ep, take_all, drop_all by lia.
    rewrite firstn_all2, skipn_all2 by lia. split; reflexivity.
Qed.

(** Positions in a concatenation whose first part holds whole characters. *)
Lemma utf8_char_to_byte_app (s1 s2 : list Z) :
  utf8_whole s1 ->
  forall k,
    utf8_char_to_byte (s1 ++ s2) k
    = if k <? utf8_char_count s1 then utf8_char_to_byte s1 k
      else zlen s1 + utf8_char_to_byte s2 (k - utf8_char_count s1).
Proof.
  induction s1 as [|s1 Hs IH] using utf8_ind; intros Hw k.
  - rewrite utf8_char_count_nil, zlen_nil, app_nil_l, Z.sub_0_r.
    destruct (Z.ltb_spec k 0); [|lia].
    destruct s2 as [|b s2']; [reflexivity|].
    rewrite utf8_char_to_byte_step by discriminate.
    destruct (Z.ltb_spec 0 k); [lia | reflexivity].
  - apply utf8_whole_step in Hw; [|assumption]. destruct Hw as (Hle & Hw).
    pose proof (lead_len_range s1) as Hr. pose proof (zlen_nonneg s2).
    pose proof (utf8_char_count_nonneg (drop (lead_len s1) s1)) as Hc.
    rewrite (utf8_char_to_byte_step (s1 ++ s2)).
    2:{ intros E. apply app_eq_nil in E. tauto. }
    rewrite (utf8_char_to_byte_step s1) by assumption.
    rewrite (utf8_char_count_step s1) by assumption.
    rewrite lead_len_app, zlen_app by assumption.
    rewrite drop_app_l by lia. rewrite (IH Hw).
    rewrite !Z.gtb_ltb.
    destruct (Z.ltb_spec (zlen s1 + zlen s2) (lead_len s1)); [lia|].
    destruct (Z.ltb_spec (zlen s1) (lead_len s1)); [lia|].
    rewrite zlen_drop by lia.
    destruct (Z.ltb_spec 0 k).
    + destruct (Z.ltb_spec (k - 1) (utf8_char_count (drop (lead_len s1) s1)));
        destruct (Z.ltb_spec k (1 + utf8_char_count (drop (lead_len s1) s1)));
        try lia.
      replace (k - (1 + utf8_char_count (drop (lead_len s1) s1)))
        with (k - 1 - utf8_char_count (drop (lead_len s1) s1)) by lia. lia.
    + destruct (Z.ltb_spec k (1 + utf8_char_count (drop (lead_len s1) s1))); [reflexivity | lia].
Qed.

Lemma byte_to_char_scan_past (s : list Z) :
  utf8_whole s -> forall b, zlen s <= b -> byte_to_char_scan s b = utf8_char_count s.
Proof.
  induction s as [|s Hs IH] using utf8_ind; intros Hw b Hb.
  - reflexivity.
  - apply utf8_whole_step in Hw; [|assumption]. destruct Hw as (Hle & Hw).
    pose proof (lead_len_range s). pose proof (nonempty_zlen s Hs).
    rewrite byte_to_char_scan_step, utf8_char_count_step by assumption.
    destruct (Z.ltb_spec 0 b); [|lia].
    rewrite !Z.gtb_ltb.
    destruct (Z.ltb_spec (zlen s) (lead_len s)); [lia|].
    destruct (Z.ltb_spec b (lead_len s)); [lia|].
    rewrite IH; [reflexivity | assumption |]. rewrite zlen_drop by lia. lia.
Qed.

Lemma utf8_byte_to_char_scan (s : list Z) (b : Z) :
  utf8_whole s -> utf8_byte_to_char s b = byte_to_char_scan s b.
Proof.
  intros Hw. unfold utf8_byte_to_char. rewrite Z.geb_leb.
  destruct (Z.leb_spec (zlen s) b); [|reflexivity].
  symmetry. apply byte_to_char_scan_past; assumption.
Qed.

Lemma byte_to_char_scan_app (s1 s2 : list Z) :
  utf8_whole s1 ->
  forall b,
    byte_to_char_scan (s1 ++ s2) b
    = if b <? zlen s1 then byte_to_char_scan s1 b
      else utf8_char_count s1 + byte_to_char_scan s2 (b - zlen s1).
Proof.
  induction s1 as [|s1 Hs IH] using utf8_ind; intros Hw b.
  - rewrite utf8_char_count_nil, zlen_nil, app_nil_l, Z.sub_0_r.
    destruct (Z.ltb_spec b 0); [|lia].
    destruct s2 as [|c s2']; [reflexivity|].
    rewrite byte_to_char_scan_step by discriminate.
    destruct (Z.ltb_spec 0 b); [lia | reflexivity].
  - apply utf8_whole_step in Hw; [|assumption]. destruct Hw as (Hle & Hw).
    pose proof (lead_len_range s1) as Hr. pose proof (zlen_nonneg s2).
    pose proof (nonempty_zlen s1 Hs).
    rewrite (byte_to_char_scan_step (s1 ++ s2)).
    2:{ intros E. apply app_eq_nil in E. tauto. }
    rewrite (byte_to_char_scan_step s1) by assumption.
    rewrite (utf8_char_count_step s1) by assumption.
    rewrite lead_len_app, zlen_app by assumption.
    rewrite drop_app_l by lia. rewrite (IH Hw).
    rewrite !Z.gtb_ltb.
    destruct (Z.ltb_spec (zlen s1 + zlen s2) (lead_len s1)); [lia|].
    destruct (Z.ltb_spec (zlen s1) (lead_len s1)); [lia|].
    rewrite zlen_drop by lia.
    destruct (Z.ltb_spec 0 b).
    + destruct (Z.ltb_spec b (lead_len s1)).
      * destruct (Z.ltb_spec b (zlen s1)); [reflexivity | lia].
      * destruct (Z.ltb_spec (b - lead_len s1) (zlen s1 - lead_len s1));
          destruct (Z.ltb_spec b (zlen s1)); try lia.
        replace (b - lead_len s1 - (zlen s1 - lead_len s1)) with (b - zlen s1) by lia.
        lia.
    + destruct (Z.ltb_spec b (zlen s1)); [reflexivity | lia].
Qed.

Lemma utf8_byte_to_char_app (s1 s2 : list Z) :
  utf8_whole s1 -> utf8_whole s2 ->
  forall b,
    utf8_byte_to_char (s1 ++ s2) b
    = if b <? zlen s1 then utf8_byte_to_char s1 b
      else utf8_char_count s1 + utf8_byte_to_char s2 (b - zlen s1).
Proof.
  intros H1 H2 b.
  rewrite !utf8_byte_to_char_scan by (try apply utf8_whole_app; assumption).
  apply byte_to_char_scan_app; assumption.
Qed.

(** X3.  Inside one string, [utf8_char_to_byte] returns an offset within
    the string; the bytes before it are whole characters; when the string
    ends on a character boundary they are the first [k] characters, the
    bytes after it are the others, and [utf8_byte_to_char] maps the offset
    back to [k]. *)
Theorem utf8_positions_roundtrip (str : list Z) (k : Z) :
  utf8_whole str -> 0 <= k <= utf8_char_count str ->
  let p := utf8_char_to_byte str k in
  0 <= p <= zlen str
  /\ utf8_char_count (take p str) = k
  /\ utf8_scalars (take p str) = firstn (Z.to_nat k) (utf8_scalars str)
  /\ utf8_scalars (drop p str) = skipn (Z.to_nat k) (utf8_scalars str)
  /\ utf8_byte_to_char str p = k.
Proof.
  intros Hw Hk p.
  destruct (utf8_char_to_byte_props str k) as (Hp & _).
  destruct (utf8_char_to_byte_prefix str k) as (_ & Hc).
  destruct (utf8_scalars_cut str k Hw (proj1 Hk)) as (H1 & H2).
  split; [exact Hp|]. split; [fold p in Hc; rewrite Hc by tauto; lia|].
  split; [exact H1|]. split; [exact H2|].
  destruct (Z.eq_dec k (utf8_char_count str)) as [E|Ne].
  - unfold p. rewrite utf8_char_to_byte_past by (assumption || lia).
    unfold utf8_byte_to_char. rewrite Z.geb_leb.
    destruct (Z.leb_spec (zlen str) (zlen str)); lia.
  - destruct (utf8_char_to_byte_roundtrip str k) as (Hlt & Hrt); [lia|].
    unfold utf8_byte_to_char. rewrite Z.geb_leb. fold p in Hlt, Hrt.
    destruct (Z.leb_spec (zlen str) p); [lia | exact Hrt].
Qed.

Lemma utf8_positions_roundtrip_witness :
  let p := utf8_char_to_byte str_nihon 3 in
  0 <= p <= zlen str_nihon
  /\ utf8_char_count (take p str_nihon) = 3
  /\ utf8_scalars (take p str_nihon) = firstn (Z.to_nat 3) (utf8_scalars str_nihon)
  /\ utf8_scalars (drop p str_nihon) = skipn (Z.to_nat 3) (utf8_scalars str_nihon)
  /\ utf8_byte_to_char str_nihon p = 3.
Proof.
  apply (utf8_positions_roundtrip str_nihon 3).
  - vm_compute. reflexivity.
  - vm_compute. split; discriminate.
Defined.

(** ** Validation *)

Lemma validate_utf8_cont_spec (str : list Z) (pos cl : Z) (fuel : nat) :
  forall i, cl - i <= Z.of_nat fuel ->
    (validate_utf8_cont fuel str pos cl i = true
     <-> forall j, i <= j < cl -> Z.land (uint8 (byte_at str (pos + j))) 0xC0 = 0x80).
Proof.
  induction fuel as [|fuel IH]; intros i Hf; simpl.
  - split; [intros _ j Hj; lia | reflexivity].
  - destruct (Z.ltb_spec i cl) as [Hlt|Hge].
    + destruct (Z.eqb_spec (Z.land (uint8 (byte_at str (pos + i))) 192) 128) as [E|Ne];
        simpl.
      * rewrite IH by lia. split.
        -- intros H j Hj. destruct (Z.eq_dec j i) as [->|]; [exact E | apply H; lia].
        -- intros H j Hj. apply H. lia.
      * split; [discriminate|]. intros H. exfalso. apply Ne. apply H. lia.
    + split; [intros _ j Hj; lia | reflexivity].
Qed.

Lemma validate_utf8_cont_drop (str : list Z) (pos cl : Z) (fuel : nat) :
  0 <= pos ->
  forall i, 0 <= i ->
    validate_utf8_cont fuel str pos cl i
    = validate_utf8_cont fuel (drop pos str) 0 cl i.
Proof.
  intros Hpos. induction fuel as [|fuel IH]; intros i Hi; simpl; [reflexivity|].
  rewrite byte_at_drop by lia. rewrite ?Z.add_0_l. rewrite IH by lia. reflexivity.
Qed.

Lemma validate_utf8_loop_shift (fuel : nat) :
  forall str pos, 0 <= pos ->
    validate_utf8_loop fuel str pos = validate_utf8_loop fuel (drop pos str) 0.
Proof.
  induction fuel as [|fuel IH]; intros str pos Hpos; simpl; [reflexivity|].
  destruct (Z.ltb_spec pos (zlen str)) as [Hlt|Hge].
  - rewrite (zlen_drop pos str) by lia.
    destruct (Z.ltb_spec 0 (zlen str - pos)); [|lia].
    rewrite byte_at_drop by lia. rewrite ?Z.add_0_r, ?Z.add_0_l.
    pose proof (utf8_char_len_range (uint8 (byte_at str pos))).
    set (cl := utf8_char_len (uint8 (byte_at str pos))) in *.
    rewrite !Z.gtb_ltb.
    destruct (Z.ltb_spec (zlen str) (pos + cl)); destruct (Z.ltb_spec (zlen str - pos) cl);
      try lia; try reflexivity.
    rewrite (validate_utf8_cont_drop str pos) by lia.
    destruct (validate_utf8_cont _ _ _ _ _); [|reflexivity].
    rewrite IH by lia. rewrite (IH (drop pos str) cl) by lia.
    rewrite drop_drop by lia. reflexivity.
  - rewrite (drop_all pos str) by lia. rewrite zlen_nil. reflexivity.
Qed.

Lemma validate_utf8_loop_nil (fuel : nat) : validate_utf8_loop fuel [] 0 = true.
Proof. destruct fuel; reflexivity. Qed.

Lemma validate_utf8_loop_step (fuel : nat) (s : list Z) :
  s <> [] ->
  validate_utf8_loop (S fuel) s 0
  = if lead_len s >? zlen s then false
    else if validate_utf8_cont (Z.to_nat (lead_len s)) s 0 (lead_len s) 1
         then validate_utf8_loop fuel (drop (lead_len s) s) 0
         else false.
Proof.
  intros Hs. pose proof (nonempty_zlen s Hs). simpl.
  destruct (Z.ltb_spec 0 (zlen s)); [|lia].
  fold (lead_len s). rewrite ?Z.add_0_l.
  destruct (_ >? _); [reflexivity|].
  destruct (validate_utf8_cont _ _ _ _ _); [|reflexivity].
  pose proof (lead_len_range s).
  apply validate_utf8_loop_shift. lia.
Qed.

Lemma validate_utf8_loop_fuel (f1 : nat) :
  forall f2 s, (length s <= f1)%nat -> (length s <= f2)%nat ->
    validate_utf8_loop f1 s 0 = validate_utf8_loop f2 s 0.
Proof.
  induction f1 as [|f1 IH]; intros f2 s H1 H2.
  - destruct s; [|simpl in H1; lia]. now rewrite !validate_utf8_loop_nil.
  - destruct s as [|b s']; [now rewrite !validate_utf8_loop_nil|].
    destruct f2 as [|f2]; [simpl in H2; lia|].
    rewrite !validate_utf8_loop_step by discriminate.
    destruct (_ >? _); [reflexivity|].
    destruct (validate_utf8_cont _ _ _ _ _); [|reflexivity].
    pose proof (lead_len_range (b :: s')).
    apply IH; unfold drop; rewrite length_skipn; simpl length in *; lia.
Qed.

Lemma validate_utf8_nil : validate_utf8 [] = true.
Proof. reflexivity. Qed.

(** One turn of the loop of [validate_utf8]. *)
Lemma validate_utf8_step (s : list Z) :
  s <> [] ->
  (validate_utf8 s = true
   <-> lead_len s <= zlen s /\ cont_ok s /\ validate_utf8 (drop (lead_len s) s) = true).
Proof.
  intros Hs. unfold validate_utf8.
  destruct s as [|b s']; [congruence|].
  simpl length. rewrite validate_utf8_loop_step by discriminate.
  pose proof (lead_len_range (b :: s')) as Hr.
  rewrite Z.gtb_ltb.
  rewrite (validate_utf8_loop_fuel (length s')
             (length (drop (lead_len (b :: s')) (b :: s')))).
  2:{ unfold drop; rewrite length_skipn; simpl length; lia. }
  2:{ lia. }
  pose proof (validate_utf8_cont_spec (b :: s') 0 (lead_len (b :: s'))
                (Z.to_nat (lead_len (b :: s'))) 1 ltac:(lia)) as Hc.
  unfold cont_ok.
  destruct (Z.ltb_spec (zlen (b :: s')) (lead_len (b :: s'))).
  - split; [discriminate | intros (? & _); lia].
  - destruct (validate_utf8_cont _ _ _ _ _).
    + split.
      * intros E. split; [lia|]. split; [|exact E].
        intros j Hj. apply Hc; [reflexivity | exact Hj].
      * tauto.
    + split; [discriminate|]. intros (_ & H' & _).
      apply Hc. intros j Hj. apply H'. exact Hj.
Qed.

Lemma cont_ok_app (s1 s2 : list Z) :
  s1 <> [] -> lead_len s1 <= zlen s1 -> (cont_ok (s1 ++ s2) <-> cont_ok s1).
Proof.
  intros Hs Hle. unfold cont_ok. rewrite lead_len_app by assumption.
  split; intros H j Hj.
  - rewrite <- (byte_at_app_l j s1 s2) by lia. apply H; exact Hj.
  - rewrite (byte_at_app_l j s1 s2) by lia. apply H; exact Hj.
Qed.

Lemma validate_utf8_whole (s : list Z) : validate_utf8 s = true -> utf8_whole s.
Proof.
  induction s as [|s Hs IH] using utf8_ind; intros Hv.
  - apply utf8_whole_nil.
  - apply validate_utf8_step in Hv; [|assumption]. destruct Hv as (Hle & _ & Hv).
    apply utf8_whole_step; auto.
Qed.

Lemma validate_utf8_app (s1 s2 : list Z) :
  validate_utf8 s1 = true ->
  (validate_utf8 (s1 ++ s2) = true <-> validate_utf8 s2 = true).
Proof.
  induction s1 as [|s1 Hs IH] using utf8_ind; intros Hv.
  - reflexivity.
  - apply validate_utf8_step in Hv; [|assumption]. destruct Hv as (Hle & Hc & Hv).
    pose proof (zlen_nonneg s2).
    rewrite validate_utf8_step.
    2:{ intros E. apply app_eq_nil in E. tauto. }
    rewrite cont_ok_app by assumption.
    rewrite lead_len_app, zlen_app by assumption.
    rewrite drop_app_l by lia. rewrite (IH Hv). intuition lia.
Qed.

Lemma bool_eq_iff (a b : bool) : (a = true <-> b = true) -> a = b.
Proof. destruct a, b; intuition congruence. Qed.

(** X4.  A string [validate_utf8] accepts ends on a character boundary,
    and what follows an accepted string is validated as if it stood
    alone: validation works one sequence at a time, with no state carried
    from one sequence to the next. *)
Theorem validate_utf8_prefix (s1 s2 : list Z) :
  validate_utf8 s1 = true ->
  utf8_whole s1
  /\ utf8_char_count (s1 ++ s2) = utf8_char_count s1 + utf8_char_count s2
  /\ validate_utf8 (s1 ++ s2) = validate_utf8 s2.
Proof.
  intros Hv. pose proof (validate_utf8_whole s1 Hv) as Hw.
  split; [exact Hw|]. split; [apply utf8_whole_app_count; exact Hw|].
  apply bool_eq_iff. apply validate_utf8_app. exact Hv.
Qed.

Lemma validate_utf8_prefix_witness :
  utf8_whole str_cafe
  /\ utf8_char_count (str_cafe ++ str_nichi)
     = utf8_char_count str_cafe + utf8_char_count str_nichi
  /\ validate_utf8 (str_cafe ++ str_nichi) = validate_utf8 str_nichi.
Proof.
  apply (validate_utf8_prefix str_cafe str_nichi). reflexivity.
Defined.

Lemma forallb_nth (f : Z -> bool) (l : list Z) (n : nat) :
  forallb f l = true -> (n < length l)%nat -> f (nth n l 0) = true.
Proof.
  intros H Hn. rewrite forallb_forall in H. apply H. apply nth_In. exact Hn.
Qed.

Lemma byte_at_take (k j : Z) (s : list Z) :
  0 <= j < k -> byte_at (take k s) j = byte_at s j.
Proof.
  intros Hj. unfold byte_at, take.
  rewrite <- (firstn_skipn (Z.to_nat k) s) at 2.
  destruct (Nat.lt_ge_cases (Z.to_nat j) (length (firstn (Z.to_nat k) s))) as [Hlt|Hge].
  - rewrite app_nth1 by exact Hlt. reflexivity.
  - rewrite nth_overflow by exact Hge.
    rewrite length_firstn in Hge.
    rewrite nth_overflow; [reflexivity|].
    rewrite length_app, length_firstn, length_skipn. lia.
Qed.

Lemma utf8_char_ok_cont (s : list Z) :
  s <> [] -> utf8_char_ok s = true -> lead_len s <= zlen s /\ cont_ok s.
Proof.
  intros Hs Hok. pose proof (lead_len_range s) as Hr.
  unfold utf8_char_ok in Hok. rewrite !andb_true_iff in Hok.
  destruct Hok as ((Hle & Hbytes) & Hshape). apply Z.leb_le in Hle.
  split; [exact Hle|].
  intros j Hj.
  destruct (Z.eqb_spec (lead_len s) 1) as [E1|N1]; [lia|].
  rewrite !andb_true_iff in Hshape. destruct Hshape as ((Hcont & _) & _).
  assert (Hlen : zlen (take (lead_len s) s) = lead_len s) by (apply zlen_take; lia).
  assert (Hb : (0 <=? byte_at s j) && (byte_at s j <? 256) = true).
  { rewrite <- (byte_at_take (lead_len s) j s) by lia.
    apply (forallb_nth _ _ _ Hbytes). unfold zlen in Hlen. lia. }
  apply andb_true_iff in Hb. destruct Hb as (Hb0 & Hb1).
  apply Z.leb_le in Hb0. apply Z.ltb_lt in Hb1.
  unfold uint8. rewrite Z.mod_small by lia.
  assert (Hd : byte_at (drop 1 (take (lead_len s) s)) (j - 1) = byte_at s j).
  { rewrite byte_at_drop by lia. replace (1 + (j - 1)) with j by lia.
    apply byte_at_take. lia. }
  rewrite <- Hd. apply Z.eqb_eq.
  apply (forallb_nth (fun b => Z.land b 192 =? 128) _ _ Hcont).
  assert (zlen (drop 1 (take (lead_len s) s)) = lead_len s - 1).
  { rewrite zlen_drop by lia. lia. }
  unfold zlen in *. lia.
Qed.

(** X5.  [validate_utf8] accepts every well-formed text. *)
Theorem validate_utf8_accepts_well_formed (str : list Z) :
  utf8_well_formed str -> validate_utf8 str = true.
Proof.
  induction str as [|s Hs IH] using utf8_ind; intros Hw.
  - reflexivity.
  - apply utf8_well_formed_step in Hw; [|assumption]. destruct Hw as (Hok & Hw).
    destruct (utf8_char_ok_cont s Hs Hok) as (Hle & Hc).
    apply validate_utf8_step; auto.
Qed.

Lemma validate_utf8_accepts_well_formed_witness :
  validate_utf8 str_nihon = true.
Proof.
  apply (validate_utf8_accepts_well_formed str_nihon). vm_compute. reflexivity.
Defined.

(** ** Walks with the explicit stack *)

Section Hereditary.

Variable Q : rope_node_t -> Prop.
Hypothesis Q_branch :
  forall c bw cw nw l r, Q (Branch c bw cw nw l r) -> Q l /\ Q r.

Lemma push_left_all (current : rope_node_t) :
  forall stack bottom stack',
    Q current -> stack_all Q stack ->
    push_left current stack = Some (bottom, stack') ->
    Q bottom /\ stack_all Q stack'.
Proof.
  induction current as [| |c bw cw nw l IHl r _]; intros stack bottom stack' Hq Hs E.
  - inversion E; subst. auto.
  - inversion E; subst. auto.
  - simpl in E. destruct (_ <? _); [|discriminate].
    destruct (Q_branch _ _ _ _ _ _ Hq) as (Hl & Hr).
    apply (IHl _ _ _ Hl) in E; [exact E|].
    constructor; [exact Hr | exact Hs].
Qed.

Lemma seek_leaf_all (t : rope_node_t) :
  forall p off stack leaf p' off' stack',
    Q t -> stack_all Q stack ->
    seek_leaf t p off stack = Some (leaf, p', off', stack') ->
    Q leaf /\ stack_all Q stack'.
Proof.
  induction t as [| |c bw cw nw l IHl r IHr];
    intros p off stack leaf p' off' stack' Hq Hs E.
  - inversion E; subst. auto.
  - inversion E; subst. auto.
  - simpl in E. destruct (Q_branch _ _ _ _ _ _ Hq) as (Hl & Hr).
    destruct (p <? bw).
    + destruct (_ <? _); [|discriminate].
      apply (IHl _ _ _ _ _ _ _ Hl) in E; [exact E|].
      constructor; [exact Hr | exact Hs].
    + apply (IHr _ _ _ _ _ _ _ Hr) in E; [exact E | exact Hs].
Qed.

End Hereditary.

Lemma tree_ok_branch (c : rb_color_t) (bw cw nw : Z) (l r : rope_node_t) :
  tree_ok (Branch c bw cw nw l r) -> tree_ok l /\ tree_ok r.
Proof.
  intros (Hw & _). destruct (wf_branch _ _ _ _ _ _ Hw) as (_ & Hl & Hr & Nl & Nr).
  unfold tree_ok. auto.
Qed.

(** The descent by byte weight lands in the leaf that holds the byte, with
    everything to its right pending on the stack. *)
Lemma seek_leaf_spec (t : rope_node_t) :
  forall p off stack,
    tree_ok t -> 0 <= p <= zlen (node_bytes t) ->
    fits t (Z.of_nat (length stack)) -> stack_fits stack ->
    exists leaf p' off' stack',
      seek_leaf t p off stack = Some (leaf, p', off', stack')
      /\ is_branch leaf = false
      /\ 0 <= p' <= zlen (node_bytes leaf)
      /\ (p < zlen (node_bytes t) -> p' < zlen (node_bytes leaf))
      /\ off' + p' = off + p
      /\ stack_fits stack'
      /\ drop p' (node_bytes leaf) ++ stack_bytes stack'
         = drop p (node_bytes t) ++ stack_bytes stack
      /\ (stack_pops stack' <= branch_count t + stack_pops stack)%nat.
Proof.
  induction t as [|c bw cw nw d cl nl|c bw cw nw l IHl r IHr];
    intros p off stack Hok Hp Hf Hs.
  - destruct Hok as (_ & N). congruence.
  - exists (Leaf c bw cw nw d cl nl), p, off, stack. simpl in Hp |- *.
    repeat split; auto; lia.
  - destruct (tree_ok_branch _ _ _ _ _ _ Hok) as (Hl & Hr).
    destruct Hok as (Hw & _). simpl in Hw. destruct Hw as (Hbw & _).
    simpl in Hf. destruct Hf as (Hsp & Hfl & Hfr).
    simpl node_bytes in *. rewrite zlen_app in Hp.
    pose proof (zlen_nonneg (node_bytes l)). pose proof (zlen_nonneg (node_bytes r)).
    simpl seek_leaf.
    destruct (Z.ltb_spec p bw) as [Hlt|Hge].
    + destruct (Z.ltb_spec (Z.of_nat (length stack)) STACK_SIZE); [|lia].
      destruct (IHl p off (Branch c bw cw nw l r :: stack))
        as (leaf & p' & off' & stack' & E & Hb & Hp' & Hstrict & Hoff & Hs' & Hby & Hpops);
        try assumption; try lia.
      { simpl length. rewrite Nat2Z.inj_succ. unfold Z.succ. assumption. }
      { simpl. auto. }
      exists leaf, p', off', stack'.
      split; [exact E|]. split; [exact Hb|]. split; [exact Hp'|].
      split; [intros _; apply Hstrict; lia|]. split; [exact Hoff|].
      split; [exact Hs'|]. split.
      * rewrite Hby. simpl. rewrite drop_app_l by lia. now rewrite <- app_assoc.
      * simpl in Hpops |- *. lia.
    + destruct (IHr (p - bw) (off + bw) stack)
        as (leaf & p' & off' & stack' & E & Hb & Hp' & Hstrict & Hoff & Hs' & Hby & Hpops);
        try assumption; try lia.
      exists leaf, p', off', stack'.
      split; [exact E|]. split; [exact Hb|]. split; [exact Hp'|].
      split; [intros Hlt; apply Hstrict; rewrite zlen_app in Hlt; lia|].
      split; [lia|]. split; [exact Hs'|]. split.
      * rewrite Hby. rewrite drop_app_r by lia. rewrite Hbw. reflexivity.
      * simpl. lia.
Qed.

(** ** Copying bytes out of a rope *)

Lemma stack_all_cons (Q : rope_node_t -> Prop) (top : rope_node_t)
    (rest : list rope_node_t) :
  stack_all Q (top :: rest) <-> Q (branch_right top) /\ stack_all Q rest.
Proof.
  unfold stack_all. split.
  - intros H. inversion H; subst. auto.
  - intros (H1 & H2). constructor; assumption.
Qed.

Lemma take_app_take (n : Z) (s t : list Z) :
  0 <= n ->
  take n (s ++ t)
  = take (Z.min n (zlen s)) s ++ take (n - Z.min n (zlen s)) t.
Proof.
  intros Hn. pose proof (zlen_nonneg s).
  destruct (Z.le_gt_cases n (zlen s)).
  - rewrite Z.min_l by lia. rewrite take_app_l by lia.
    rewrite Z.sub_diag. unfold take at 3. simpl. now rewrite app_nil_r.
  - rewrite Z.min_r by lia. rewrite take_app_r by lia.
    rewrite (take_all (zlen s) s) by lia. reflexivity.
Qed.

Lemma copy_leaves_spec (want : Z) (fuel : nat) :
  forall leaf byte_start copied stack buf,
    (stack_pops stack + 1 <= fuel)%nat ->
    is_branch leaf = false -> tree_ok leaf ->
    0 <= byte_start <= zlen (node_bytes leaf) ->
    stack_all tree_ok stack -> stack_fits stack ->
    0 <= copied <= want ->
    let rest := drop byte_start (node_bytes leaf) ++ stack_bytes stack in
    copy_leaves fuel leaf byte_start want copied stack buf
    = Some (copied + Z.min (want - copied) (zlen rest),
            buf ++ take (want - copied) rest).
Proof.
  induction fuel as [|fuel IH];
    intros leaf byte_start copied stack buf Hfuel Hb Hok Hbs Hall Hfit Hc rest;
    [lia|].
  destruct leaf as [|c bw cw nw d cl nl|]; [destruct Hok; congruence | | discriminate].
  simpl node_bytes in *. subst rest.
  pose proof (zlen_nonneg (stack_bytes stack)) as Hsb.
  assert (Hrest : zlen (drop byte_start d ++ stack_bytes stack)
                  = zlen d - byte_start + zlen (stack_bytes stack)).
  { rewrite zlen_app, zlen_drop by lia. reflexivity. }
  cbn [copy_leaves].
  destruct (Z.ltb_spec copied want) as [Hlt|Hge].
  2:{ replace (want - copied) with 0 by lia.
      rewrite Z.min_l by lia. unfold take. simpl.
      now rewrite Z.add_0_r, app_nil_r. }
  destruct (Z.leb_spec byte_start (zlen d)); [|lia].
  rewrite Z.gtb_ltb.
  set (to_copy := if want - copied <? zlen d - byte_start
                  then want - copied else zlen d - byte_start).
  assert (Hto : to_copy = Z.min (want - copied) (zlen d - byte_start)).
  { subst to_copy. destruct (Z.ltb_spec (want - copied) (zlen d - byte_start)); lia. }
  assert (Htake : take (want - copied) (drop byte_start d ++ stack_bytes stack)
                  = take to_copy (drop byte_start d)
                    ++ take (want - copied - to_copy) (stack_bytes stack)).
  { rewrite take_app_take by lia. rewrite zlen_drop by lia. rewrite <- Hto.
    reflexivity. }
  destruct (Z.ltb_spec (copied + to_copy) want) as [Hmore|Hdone].
  - assert (Eto : to_copy = zlen d - byte_start) by lia.
    destruct stack as [|parent stack'].
    + simpl stack_bytes in *. rewrite zlen_nil in *.
      rewrite Htake. unfold take at 3. rewrite firstn_nil, !app_nil_r.
      rewrite zlen_drop by lia. do 3 f_equal. lia.
    + apply stack_all_cons in Hall. destruct Hall as ((Hwr & Nr) & Hall).
      simpl in Hfit. destruct Hfit as (Hfr & Hfit).
      destruct (is_null (branch_right parent)) eqn:En;
        [apply is_null_true in En; congruence|].
      cbn [negb].
      destruct (push_left_spec (branch_right parent) stack' Hfr Hfit)
        as (bottom & stack'' & E & Hbb & Hs'' & Hby & Hpops).
      rewrite E.
      destruct (push_left_all tree_ok tree_ok_branch _ _ _ _ (conj Hwr Nr) Hall E)
        as (Hbok & Hall'').
      rewrite IH; try assumption; try lia.
      2:{ simpl in Hfuel. lia. }
      2:{ pose proof (zlen_nonneg (node_bytes bottom)). lia. }
      rewrite drop_0 by lia. rewrite Hby. simpl stack_bytes in Htake, Hrest, Hsb |- *.
      rewrite Htake, <- app_assoc, Hrest.
      replace (want - (copied + to_copy)) with (want - copied - to_copy) by lia.
      do 2 f_equal. lia.
  - rewrite Htake.
    replace (want - copied - to_copy) with 0 by lia.
    unfold take at 3. simpl. rewrite app_nil_r.
    f_equal. f_equal. lia.
Qed.

(** ** Positions in a rope and in its text *)

Lemma char_to_byte_walk_flat (t : rope_node_t) :
  tree_wf t -> leaves_whole t ->
  forall k, char_to_byte_walk t k 0 = utf8_char_to_byte (node_bytes t) k.
Proof.
  induction t as [|c bw cw nw d cl nl|c bw cw nw l IHl r IHr]; intros Ht Hwh k.
  - reflexivity.
  - simpl. lia.
  - destruct (wf_branch _ _ _ _ _ _ Ht) as (_ & Hl & Hr & _ & _).
    simpl in Ht. destruct Ht as (Hbw & Hcw & _).
    simpl in Hwh. destruct Hwh as (Wl & Wr).
    destruct (leaves_whole_bytes l Wl) as (Wbl & Cl).
    simpl. rewrite utf8_char_to_byte_app by assumption.
    rewrite Cl, <- Hcw, <- Hbw.
    destruct (k <? cw); [apply IHl; assumption|].
    rewrite char_to_byte_walk_offset, IHr by assumption. lia.
Qed.

Lemma byte_to_char_walk_flat (t : rope_node_t) :
  tree_wf t -> leaves_whole t ->
  forall b, byte_to_char_walk t b 0 = utf8_byte_to_char (node_bytes t) b.
Proof.
  induction t as [|c bw cw nw d cl nl|c bw cw nw l IHl r IHr]; intros Ht Hwh b.
  - simpl. unfold utf8_byte_to_char. rewrite zlen_nil.
    destruct (b >=? 0); reflexivity.
  - simpl. lia.
  - destruct (wf_branch _ _ _ _ _ _ Ht) as (_ & Hl & Hr & _ & _).
    simpl in Ht. destruct Ht as (Hbw & Hcw & _).
    simpl in Hwh. destruct Hwh as (Wl & Wr).
    destruct (leaves_whole_bytes l Wl) as (Wbl & Cl).
    destruct (leaves_whole_bytes r Wr) as (Wbr & _).
    simpl. rewrite utf8_byte_to_char_app by assumption.
    rewrite Cl, <- Hcw, <- Hbw.
    destruct (b <? bw); [apply IHl; assumption|].
    rewrite byte_to_char_walk_offset, IHr by assumption. lia.
Qed.

Lemma rope_char_to_byte_flat (r : rope_t) (k : Z) :
  rope_wf r -> leaves_whole (root r) ->
  rope_char_to_byte (Some r) k = utf8_char_to_byte (node_bytes (root r)) k.
Proof.
  intros (Hw & Hb & _ & Hc) Hwh. specialize (Hc eq_refl).
  destruct (leaves_whole_bytes _ Hwh) as (Wb & Cb).
  unfold rope_char_to_byte. rewrite Z.geb_leb.
  destruct (Z.leb_spec (char_len r) k).
  - rewrite utf8_char_to_byte_past by (assumption || lia). exact Hb.
  - apply char_to_byte_walk_flat; assumption.
Qed.

Lemma rope_byte_to_char_flat (r : rope_t) (b : Z) :
  rope_wf r -> leaves_whole (root r) ->
  rope_byte_to_char (Some r) b = utf8_byte_to_char (node_bytes (root r)) b.
Proof.
  intros (Hw & Hb & _ & Hc) Hwh. specialize (Hc eq_refl).
  destruct (leaves_whole_bytes _ Hwh) as (Wb & Cb).
  unfold rope_byte_to_char. rewrite Z.geb_leb.
  destruct (Z.leb_spec (byte_len r) b).
  - unfold utf8_byte_to_char. rewrite Z.geb_leb.
    destruct (Z.leb_spec (zlen (node_bytes (root r))) b); lia.
  - apply byte_to_char_walk_flat; assumption.
Qed.

(** X6.  On a rope built by the public operations whose leaves hold whole
    characters, the position queries answer as the scanners of a flat
    string do on the rope's bytes: the tree and its cached weights change
    the cost, not the answer.  The character total is the character count
    of the bytes. *)
Theorem rope_positions_flat (r : rope_t) (k b : Z) :
  reachable any_position (Some r) -> leaves_whole (root r) ->
  rope_char_to_byte (Some r) k = utf8_char_to_byte (node_bytes (root r)) k
  /\ rope_byte_to_char (Some r) b = utf8_byte_to_char (node_bytes (root r)) b
  /\ rope_char_length (Some r) = utf8_char_count (node_bytes (root r)).
Proof.
  intros Hreach Hwh.
  pose proof (reachable_whole_wf r Hreach Hwh) as Hwf.
  split; [apply rope_char_to_byte_flat; assumption|].
  split; [apply rope_byte_to_char_flat; assumption|].
  destruct Hwf as (_ & _ & _ & Hc). simpl. rewrite (Hc eq_refl).
  symmetry. apply leaves_whole_bytes. exact Hwh.
Qed.

Lemma rope_positions_flat_witness :
  let r := rope_new_from_str str_nihon in
  rope_char_to_byte (Some r) 3 = utf8_char_to_byte (node_bytes (root r)) 3
  /\ rope_byte_to_char (Some r) 5 = utf8_byte_to_char (node_bytes (root r)) 5
  /\ rope_char_length (Some r) = utf8_char_count (node_bytes (root r)).
Proof.
  apply (rope_positions_flat (rope_new_from_str str_nihon) 3 5).
  - apply reach_new_from_str.
  - vm_compute. reflexivity.
Defined.

(** ** [rope_copy_bytes], [rope_copy_chars] and the substrings *)

Ltac case_ltb :=
  repeat match goal with
         | |- context [?a <? wrap ?b] => destruct (Z.ltb_spec a (wrap b))
         | |- context [?a <? ?b] => destruct (Z.ltb_spec a b)
         end.

Lemma zlen_take_min (n : Z) (s : list Z) : 0 <= n -> zlen (take n s) = Z.min n (zlen s).
Proof.
  intros Hn. unfold zlen, take. rewrite length_firstn. lia.
Qed.

Lemma take_min_len (n : Z) (s : list Z) : take (Z.min n (zlen s)) s = take n s.
Proof.
  pose proof (zlen_nonneg s).
  destruct (Z.le_gt_cases n (zlen s)); [rewrite Z.min_l by lia; reflexivity|].
  rewrite Z.min_r by lia. rewrite !take_all by lia. reflexivity.
Qed.

Lemma take_nil (n : Z) : take n [] = [].
Proof. unfold take. apply firstn_nil. Qed.

Lemma drop_nil (n : Z) : drop n [] = [].
Proof. unfold drop. apply skipn_nil. Qed.

Lemma rope_copy_bytes_spec (full : bool) (rope : option rope_t)
    (start len bufsize : Z) :
  handle_ok full rope -> rope_stack_need rope <= STACK_SIZE ->
  0 <= start -> 0 <= len -> 0 <= bufsize ->
  let out := take (Z.min len bufsize) (drop start (rope_bytes rope)) in
  rope_copy_bytes rope start len true bufsize = Some (zlen out, out).
Proof.
  intros Hok Hh Hs Hl Hbuf out.
  destruct rope as [r|].
  2:{ subst out. cbn [rope_bytes rope_copy_bytes]. rewrite drop_nil, take_nil.
      reflexivity. }
  destruct Hok as (Hw & Hb & _). simpl in Hh. simpl rope_bytes in out.
  unfold rope_copy_bytes. cbn [negb orb].
  destruct (Z.eqb_spec bufsize 0) as [E0|Ne].
  { subst out. rewrite E0, Z.min_r by lia. reflexivity. }
  rewrite Z.geb_leb. cbn [orb].
  destruct (Z.leb_spec (byte_len r) start) as [Hpast|Hin].
  { subst out. rewrite drop_all, take_nil by lia. reflexivity. }
  assert (Hroot : tree_ok (root r)).
  { split; [assumption|]. intros E. rewrite E in Hb. simpl in Hb.
    rewrite zlen_nil in Hb. lia. }
  destruct (seek_leaf_spec (root r) start 0 [] Hroot)
    as (leaf & p' & off' & stack' & E & Hbr & Hp' & Hstrict & Hoff & Hfit & Hby & Hpops);
    [lia | apply stack_need_fits; simpl; lia | exact I |].
  rewrite E.
  destruct (seek_leaf_all tree_ok tree_ok_branch _ _ _ _ _ _ _ _ Hroot
              (Forall_nil _) E) as (Hleaf & Hall).
  simpl stack_bytes in Hby. rewrite app_nil_r in Hby.
  set (len' := if wrap (start + len) >? byte_len r then byte_len r - start else len).
  set (want := if len' >? bufsize then bufsize else len').
  pose proof (branch_count_node_count (root r)) as Hcount.
  rewrite (copy_leaves_spec want); try assumption; try lia.
  2:{ simpl in Hpops. lia. }
  2:{ subst want len'. rewrite !Z.gtb_ltb.
      case_ltb; lia. }
  cbv zeta. rewrite Hby, Z.sub_0_r, Z.add_0_l, app_nil_l.
  assert (Hrest : zlen (drop start (node_bytes (root r))) = byte_len r - start).
  { rewrite zlen_drop by lia. lia. }
  assert (Hsame : take want (drop start (node_bytes (root r))) = out).
  { subst out want len'. rewrite !Z.gtb_ltb.
    rewrite <- (take_min_len (Z.min len bufsize)).
    symmetry. rewrite <- (take_min_len (if _ <? _ then _ else _)). symmetry.
    f_equal. rewrite Hrest.
    pose proof (wrap_le (start + len) ltac:(lia)).
    case_ltb; lia. }
  rewrite Hsame. f_equal. f_equal.
  rewrite <- Hsame. rewrite zlen_take_min; [reflexivity|].
  subst want len'. rewrite !Z.gtb_ltb.
  case_ltb; lia.
Qed.

(** X7.  [rope_copy_bytes] stores in the buffer the bytes of the rope from
    [byte_start] on, [byte_len] of them or as many as there are or as the
    buffer takes, whichever is least, and returns their number; in
    particular nothing for a start at or past the end, a zero length or an
    empty buffer.  The copy walks the tree with a 64-entry stack and is
    defined for ropes whose traversal fits it.  A null rope or a null
    buffer gives 0. *)
Theorem rope_copy_bytes_slice (rope : option rope_t) (byte_start len bufsize : Z) :
  reachable any_position rope -> rope_stack_need rope <= STACK_SIZE ->
  size_t byte_start -> size_t len -> size_t bufsize ->
  let out := take (Z.min len bufsize) (drop byte_start (rope_bytes rope)) in
  rope_copy_bytes rope byte_start len true bufsize = Some (zlen out, out)
  /\ zlen out = Z.min (Z.min len bufsize)
                      (Z.max 0 (rope_byte_length rope - byte_start))
  /\ rope_copy_bytes rope byte_start len false bufsize = Some (0, [])
  /\ rope_copy_bytes None byte_start len true bufsize = Some (0, []).
Proof.
  intros Hreach Hh (Hs & _) (Hl & _) (Hb & _) out.
  pose proof (reachable_consistent rope Hreach) as Hok.
  split; [apply (rope_copy_bytes_spec false); assumption|].
  split; [|split; [destruct rope; reflexivity | reflexivity]].
  subst out. rewrite zlen_take_min by lia. f_equal.
  destruct rope as [r|]; simpl.
  - destruct Hok as (_ & Hbl & _). rewrite Hbl.
    pose proof (zlen_nonneg (node_bytes (root r))).
    destruct (Z.le_gt_cases byte_start (zlen (node_bytes (root r)))).
    + rewrite zlen_drop by lia. lia.
    + rewrite drop_all by lia. rewrite zlen_nil. lia.
  - rewrite drop_nil, zlen_nil. lia.
Qed.

Lemma rope_copy_bytes_slice_witness :
  let rope := c3_rope_inserts in
  let out := take (Z.min (SIZE_MAX1 - 1) 2) (drop 1 (rope_bytes rope)) in
  rope_copy_bytes rope 1 (SIZE_MAX1 - 1) true 2 = Some (zlen out, out)
  /\ zlen out = Z.min (Z.min (SIZE_MAX1 - 1) 2)
                      (Z.max 0 (rope_byte_length rope - 1))
  /\ rope_copy_bytes rope 1 (SIZE_MAX1 - 1) false 2 = Some (0, [])
  /\ rope_copy_bytes None 1 (SIZE_MAX1 - 1) true 2 = Some (0, []).
Proof.
  apply (rope_copy_bytes_slice c3_rope_inserts 1 (SIZE_MAX1 - 1) 2).
  - repeat (apply reach_insert_bytes;
            [|unfold size_t; vm_compute; split; [discriminate | reflexivity] | exact I]).
    apply reach_new.
  - vm_compute. discriminate.
  - unfold size_t. vm_compute. split; [discriminate | reflexivity].
  - unfold size_t. vm_compute. split; [discriminate | reflexivity].
  - unfold size_t. vm_compute. split; [discriminate | reflexivity].
Defined.

Lemma rope_new_from_str_bytes (s : list Z) :
  rope_bytes (Some (rope_new_from_str s)) = s.
Proof.
  unfold rope_new_from_str. rewrite Z.gtb_ltb.
  destruct (Z.ltb_spec 0 (zlen s)); [reflexivity|].
  pose proof (zlen_nonneg s). symmetry. apply zlen_zero. lia.
Qed.

Lemma rope_substring_bytes_spec (full : bool) (rope : option rope_t) (start len : Z) :
  handle_ok full rope -> rope_stack_need rope <= STACK_SIZE ->
  0 <= start -> 0 <= len ->
  rope_substring_bytes rope start len true
  = Some (rope_new_from_str (take len (drop start (rope_bytes rope)))).
Proof.
  intros Hok Hh Hs Hl.
  destruct rope as [r|].
  2:{ cbn [rope_bytes rope_substring_bytes]. rewrite drop_nil, take_nil. reflexivity. }
  unfold rope_substring_bytes. rewrite Z.geb_leb.
  pose proof Hok as (_ & Hb & _).
  destruct (Z.leb_spec (byte_len r) start) as [Hpast|Hin].
  { cbn [rope_bytes]. rewrite drop_all, take_nil by lia. reflexivity. }
  set (len' := if wrap (start + len) >? byte_len r then byte_len r - start else len).
  assert (Hlen' : 0 <= len'
                  /\ take len' (drop start (node_bytes (root r)))
                     = take len (drop start (node_bytes (root r)))).
  { subst len'. rewrite Z.gtb_ltb.
    destruct (Z.ltb_spec (byte_len r) (wrap (start + len))); [|split; [lia | reflexivity]].
    pose proof (wrap_le (start + len) ltac:(lia)).
    split; [lia|]. rewrite !take_all; [reflexivity | |];
      rewrite zlen_drop by lia; lia. }
  destruct Hlen' as (Hn' & Hout).
  rewrite (rope_copy_bytes_spec full (Some r) start len' len' Hok Hh) by lia.
  rewrite Z.min_id. simpl rope_bytes. rewrite Hout.
  rewrite take_all by lia. reflexivity.
Qed.

(** X8.  [rope_substring_bytes] returns a new single-leaf rope that holds
    the bytes from [start] on, [len] of them or as many as there are, with
    totals computed from those bytes; it returns an empty rope, never a
    null handle, for a null rope, a start at or past the end, and when its
    buffer could not be allocated. *)
Theorem rope_substring_bytes_slice (rope : option rope_t) (start len : Z) :
  reachable any_position rope -> rope_stack_need rope <= STACK_SIZE ->
  size_t start -> size_t len ->
  let out := take len (drop start (rope_bytes rope)) in
  rope_substring_bytes rope start len true = Some (rope_new_from_str out)
  /\ rope_bytes (Some (rope_new_from_str out)) = out
  /\ rope_stats (Some (rope_new_from_str out))
     = mk_stats (zlen out) (utf8_char_count out) (count_newlines out)
  /\ rope_substring_bytes rope start len false = Some rope_new.
Proof.
  intros Hreach Hh (Hs & _) (Hl & _) out.
  pose proof (reachable_consistent rope Hreach) as Hok.
  split; [apply (rope_substring_bytes_spec false); assumption|].
  split; [apply rope_new_from_str_bytes | split; [apply rope_new_from_str_stats|]].
  destruct rope as [r|]; [|reflexivity].
  unfold rope_substring_bytes, rope_copy_bytes. cbn [negb orb].
  destruct (start >=? byte_len r); reflexivity.
Qed.

Lemma rope_substring_bytes_slice_witness :
  let rope := c3_rope_inserts in
  let out := take 3 (drop 1 (rope_bytes rope)) in
  rope_substring_bytes rope 1 3 true = Some (rope_new_from_str out)
  /\ rope_bytes (Some (rope_new_from_str out)) = out
  /\ rope_stats (Some (rope_new_from_str out))
     = mk_stats (zlen out) (utf8_char_count out) (count_newlines out)
  /\ rope_substring_bytes rope 1 3 false = Some rope_new.
Proof.
  apply (rope_substring_bytes_slice c3_rope_inserts 1 3).
  - repeat (apply reach_insert_bytes;
            [|unfold size_t; vm_compute; split; [discriminate | reflexivity] | exact I]).
    apply reach_new.
  - vm_compute. discriminate.
  - unfold size_t. vm_compute. split; [discriminate | reflexivity].
  - unfold size_t. vm_compute. split; [discriminate | reflexivity].
Defined.

(** ** What validation lets through, and validation of a rope *)

(** X9.  A byte that is not one of the three multi-byte lead forms
    [110xxxxx], [1110xxxx], [11110xxx] counts as a one-byte character and
    is not looked at any further: [validate_utf8] accepts every string of
    such bytes, stray continuation bytes and 0xFF included. *)
Theorem validate_utf8_single_bytes (str : list Z) :
  Forall (fun b => utf8_char_len (uint8 b) = 1) str -> validate_utf8 str = true.
Proof.
  induction 1 as [|b s Hb _ IH]; [reflexivity|].
  apply validate_utf8_step; [discriminate|].
  assert (Hl : lead_len (b :: s) = 1) by exact Hb.
  rewrite Hl. split; [rewrite zlen_cons; pose proof (zlen_nonneg s); lia|].
  split; [intros j Hj; unfold cont_ok in *; lia | exact IH].
Qed.

Lemma validate_utf8_single_bytes_witness : validate_utf8 [0x41; 0x80; 0xBF; 0xFF] = true.
Proof.
  apply (validate_utf8_single_bytes [0x41; 0x80; 0xBF; 0xFF]).
  repeat constructor.
Defined.

(** X10.  [rope_validate_utf8] is [validate_utf8] of the rope's bytes:
    it depends on the text, not on where the leaves are cut, and it is
    [true] for a null or empty rope.  It flattens the rope first, so it
    is defined for ropes whose traversal fits the 64-entry stack. *)
Theorem rope_validate_utf8_bytes (rope : option rope_t) :
  reachable any_position rope -> rope_stack_need rope <= STACK_SIZE ->
  rope_validate_utf8 rope = Some (validate_utf8 (rope_bytes rope))
  /\ rope_validate_utf8 None = Some true
  /\ rope_validate_utf8 (Some rope_new) = Some true.
Proof.
  intros Hreach Hh.
  split; [|split; reflexivity].
  pose proof (reachable_consistent rope Hreach) as Hok.
  destruct rope as [r|]; [|reflexivity].
  unfold rope_validate_utf8.
  rewrite (rope_to_string_bytes false _ Hok Hh).
  destruct Hok as (_ & Hb & _). simpl rope_bytes.
  destruct (Z.eqb_spec (byte_len r) 0) as [E|Ne].
  - rewrite E in Hb. symmetry in Hb. apply zlen_zero in Hb. rewrite Hb. reflexivity.
  - destruct (Z.eqb_spec (zlen (node_bytes (root r))) (byte_len r)); [reflexivity | lia].
Qed.

Lemma rope_validate_utf8_bytes_witness :
  rope_validate_utf8 rope_nichi_cut = Some (validate_utf8 (rope_bytes rope_nichi_cut))
  /\ rope_validate_utf8 None = Some true
  /\ rope_validate_utf8 (Some rope_new) = Some true.
Proof.
  apply (rope_validate_utf8_bytes rope_nichi_cut).
  - apply reach_concat;
      [apply reach_split_bytes_left | apply reach_split_bytes_right];
      solve [apply reach_new_from_str
            | unfold size_t; vm_compute; split; [discriminate | reflexivity]].
  - vm_compute. discriminate.
Defined.

(** ** Operations at character boundaries keep the leaves whole *)

Lemma cut_whole_boundary (t : rope_node_t) :
  tree_wf t -> leaves_whole t ->
  forall p, utf8_whole (take p (node_bytes t)) -> cut_whole t p.
Proof.
  induction t as [|c bw cw nw d cl nl|c bw cw nw l IHl r IHr]; intros Ht Hwh p Hp.
  - exact I.
  - simpl in *. split; [exact Hp|].
    apply (utf8_whole_app_inv _ _ Hp). rewrite take_drop. exact Hwh.
  - destruct (wf_branch _ _ _ _ _ _ Ht) as (_ & Hl & Hr & _ & _).
    simpl in Ht. destruct Ht as (Hbw & _).
    simpl in Hwh. destruct Hwh as (Wl & Wr).
    destruct (leaves_whole_bytes l Wl) as (Wbl & _).
    simpl in Hp |- *.
    destruct (Z.leb_spec p bw).
    + apply IHl; try assumption. rewrite take_app_l in Hp by lia. exact Hp.
    + apply IHr; try assumption. rewrite take_app_r in Hp by lia.
      rewrite <- Hbw in Hp. apply (utf8_whole_app_inv _ _ Wbl Hp).
Qed.

Lemma node_new_leaf_whole (str : list Z) :
  leaves_whole (node_new_leaf str) <-> utf8_whole str.
Proof. unfold node_new_leaf. simpl. tauto. Qed.

Lemma node_insert_bytes_keeps_whole (str : list Z) (t : rope_node_t) :
  utf8_whole str ->
  forall p, leaves_whole t -> cut_whole t p ->
    leaves_whole (node_insert_bytes t p str).
Proof.
  intros Hs.
  induction t as [|c bw cw nw d cl nl|c bw cw nw l IHl r IHr]; intros p Hwh Hcut.
  - exact I.
  - cbn [node_insert_bytes].
    destruct (p =? 0); [|destruct (p >=? zlen d)];
      rewrite balance_whole, ?node_new_branch_whole, ?node_new_leaf_whole;
      simpl in Hcut, Hwh; tauto.
  - cbn [node_insert_bytes]. simpl in Hcut, Hwh.
    rewrite balance_whole, node_update_weights_whole.
    destruct (p <=? bw); simpl; split; try tauto.
    + apply IHl; tauto.
    + apply IHr; tauto.
Qed.

Lemma node_split_recursive_keeps_whole (t : rope_node_t) :
  forall p, leaves_whole t -> cut_whole t p ->
    leaves_whole (fst (node_split_recursive t p))
    /\ leaves_whole (snd (node_split_recursive t p)).
Proof.
  induction t as [|c bw cw nw d cl nl|c bw cw nw l IHl r IHr]; intros p Hwh Hcut.
  - simpl. auto.
  - simpl. destruct (p =? 0); [simpl; auto|].
    destruct (p >=? zlen d); [simpl; auto|].
    simpl in Hcut |- *. exact Hcut.
  - simpl in Hwh, Hcut. destruct Hwh as (Wl & Wr).
    simpl node_split_recursive.
    destruct (p <=? bw).
    + destruct (IHl p Wl Hcut) as (H1 & H2).
      destruct (node_split_recursive l p) as [ll lr]. simpl in H1, H2.
      destruct (negb (is_null lr) && negb (is_null r)); simpl.
      * rewrite node_set_color_whole, node_new_branch_whole. auto.
      * destruct (negb (is_null lr)); auto.
    + destruct (IHr (p - bw) Wr Hcut) as (H1 & H2).
      destruct (node_split_recursive r (p - bw)) as [rl rr]. simpl in H1, H2.
      destruct (negb (is_null rl) && negb (is_null l)); simpl.
      * rewrite node_set_color_whole, node_new_branch_whole. auto.
      * auto.
Qed.

Lemma rope_of_tree_whole (t : rope_node_t) :
  leaves_whole t -> leaves_whole (root (rope_of_tree t)).
Proof.
  intros H. unfold rope_of_tree. destruct (is_null t); simpl; [exact I|].
  apply node_set_color_whole. exact H.
Qed.

Lemma rope_split_bytes_keeps_whole (full : bool) (r : rope_t) (p : Z) :
  consistent full r -> leaves_whole (root r) ->
  utf8_whole (take p (node_bytes (root r))) ->
  leaves_whole (rope_root (fst (rope_split_bytes (Some r) p)))
  /\ leaves_whole (rope_root (snd (rope_split_bytes (Some r) p))).
Proof.
  intros (Hw & _) Hwh Hp. simpl.
  destruct (p =? 0); [simpl; auto|].
  destruct (p >=? byte_len r); [simpl; auto|].
  pose proof (cut_whole_boundary _ Hw Hwh p Hp) as Hcut.
  destruct (node_split_recursive_keeps_whole (root r) p Hwh Hcut) as (H1 & H2).
  destruct (node_split_recursive (root r) p) as [lt rt]. simpl in *.
  split; apply rope_of_tree_whole; assumption.
Qed.

Lemma rope_concat_keeps_whole (a b : option rope_t) :
  leaves_whole (rope_root a) -> leaves_whole (rope_root b) ->
  leaves_whole (rope_root (rope_concat a b)).
Proof.
  intros Ha Hb. unfold rope_concat.
  destruct a as [l|]; [|exact Hb].
  destruct (byte_len l =? 0); [exact Hb|].
  destruct b as [r|]; [|exact Ha].
  destruct (byte_len r =? 0); [exact Ha|].
  simpl. rewrite node_set_color_whole, node_new_branch_whole. auto.
Qed.

Lemma rope_insert_bytes_keeps_whole (full : bool) (r : rope_t) (p : Z) (str : list Z) :
  consistent full r -> leaves_whole (root r) -> utf8_whole str ->
  utf8_whole (take p (node_bytes (root r))) ->
  leaves_whole (rope_root (rope_insert_bytes (Some r) p str)).
Proof.
  intros (Hw & Hb & _) Hwh Hs Hp. unfold rope_insert_bytes.
  destruct (zlen str =? 0); [exact Hwh|].
  cbn [rope_root root].
  destruct (is_null (root r)).
  - apply node_set_color_whole, node_new_leaf_whole. exact Hs.
  - apply node_set_color_whole. apply node_insert_bytes_keeps_whole; try assumption.
    apply cut_whole_boundary; try assumption.
    rewrite Z.gtb_ltb. destruct (Z.ltb_spec (byte_len r) p); [|exact Hp].
    rewrite take_all by lia. apply leaves_whole_bytes. exact Hwh.
Qed.

Lemma rope_new_from_str_whole (str : list Z) :
  utf8_whole str -> leaves_whole (root (rope_new_from_str str)).
Proof.
  intros H. unfold rope_new_from_str. destruct (zlen str >? 0); [|exact I].
  simpl. exact H.
Qed.

Lemma rope_delete_bytes_keeps_whole (full : bool) (r : rope_t) (start len : Z) :
  consistent full r -> leaves_whole (root r) ->
  0 <= start -> 0 <= len -> start + len < SIZE_MAX1 ->
  utf8_whole (take start (node_bytes (root r))) ->
  utf8_whole (take (start + len) (node_bytes (root r))) ->
  leaves_whole (rope_root (rope_delete_bytes (Some r) start len)).
Proof.
  intros Hr Hwh Hs Hl Hmax H1 H2. pose proof Hr as (Hw & Hb & _).
  destruct (leaves_whole_bytes _ Hwh) as (Wb & _).
  unfold rope_delete_bytes. rewrite Z.geb_leb.
  destruct (Z.leb_spec (byte_len r) start) as [|Hin]; [exact Hwh|].
  assert (Hwrap : wrap (start + len) = start + len).
  { unfold wrap. apply Z.mod_small. lia. }
  rewrite Hwrap.
  set (len' := if _ >? _ then _ else _).
  assert (Hlen' : utf8_whole (take (start + len') (node_bytes (root r))) /\ 0 <= len').
  { subst len'. rewrite Z.gtb_ltb.
    destruct (Z.ltb_spec (byte_len r) (start + len)); [|auto].
    split; [|lia]. rewrite take_all by lia. exact Wb. }
  destruct Hlen' as (H2' & Hn').
  destruct (len' =? 0); [exact Hwh|].
  destruct (rope_split_bytes_spec full (Some r) start Hr) as (Hc1 & Hc2 & Hby).
  destruct (Hby Hs) as (B1 & B2).
  destruct (rope_split_bytes_keeps_whole full r start Hr Hwh H1) as (W1 & W2).
  destruct (rope_split_bytes_some r start) as (a & b & E). rewrite E in *.
  simpl fst in *; simpl snd in *.
  assert (H3 : utf8_whole (take len' (node_bytes (root b)))).
  { simpl in B2. rewrite B2.
    rewrite take_add in H2' by lia.
    apply (utf8_whole_app_inv _ _ H1 H2'). }
  destruct (rope_split_bytes_keeps_whole full b len' Hc2 W2 H3) as (_ & W3).
  destruct (rope_split_bytes_some b len') as (m & rm & E'). rewrite E' in *.
  simpl fst in *; simpl snd in *.
  apply rope_concat_keeps_whole; assumption.
Qed.

(** ** Editing by character position *)

Lemma utf8_char_to_byte_add (s : list Z) (start len : Z) :
  utf8_whole s -> 0 <= start -> 0 <= len ->
  utf8_char_to_byte s (start + len)
  = utf8_char_to_byte s start
    + utf8_char_to_byte (drop (utf8_char_to_byte s start) s) len.
Proof.
  intros Hw Hs Hl.
  destruct (Z.le_gt_cases (utf8_char_count s) start) as [Hpast|Hin].
  - rewrite !utf8_char_to_byte_past by (assumption || lia).
    rewrite drop_all by lia. rewrite utf8_char_to_byte_nil. lia.
  - destruct (utf8_char_to_byte_prefix s start) as (Hp & Hc).
    specialize (Hc Hw Hs). rewrite Z.min_l in Hc by lia.
    destruct (utf8_char_to_byte_props s start) as (Hr & _).
    set (ps := utf8_char_to_byte s start) in *.
    rewrite <- (take_drop ps s) at 1.
    rewrite utf8_char_to_byte_app by exact Hp.
    rewrite Hc, zlen_take by lia.
    destruct (Z.ltb_spec (start + len) start); [lia|].
    do 2 f_equal. lia.
Qed.

Lemma char_span_scalars (s : list Z) (start len : Z) :
  utf8_whole s -> 0 <= start -> 0 <= len ->
  utf8_whole (char_span s start len)
  /\ utf8_scalars (char_span s start len)
     = firstn (Z.to_nat len) (skipn (Z.to_nat start) (utf8_scalars s)).
Proof.
  intros Hw Hs Hl. unfold char_span.
  rewrite utf8_char_to_byte_add by assumption.
  set (ps := utf8_char_to_byte s start).
  replace (ps + utf8_char_to_byte (drop ps s) len - ps)
    with (utf8_char_to_byte (drop ps s) len) by lia.
  pose proof (utf8_char_to_byte_suffix s start Hw) as Hw'. fold ps in Hw'.
  destruct (utf8_scalars_cut s start Hw Hs) as (_ & Hd). fold ps in Hd.
  destruct (utf8_scalars_cut (drop ps s) len Hw' Hl) as (Ht & _).
  split; [apply utf8_char_to_byte_prefix|].
  rewrite Ht, Hd. reflexivity.
Qed.

Lemma rope_bytes_some (r : rope_t) : rope_bytes (Some r) = node_bytes (root r).
Proof. reflexivity. Qed.

Lemma whole_rope_length (rope : option rope_t) :
  reachable any_position rope -> leaves_whole (rope_root rope) ->
  rope_char_length rope = Z.of_nat (length (rope_scalars rope))
  /\ utf8_whole (rope_bytes rope).
Proof.
  intros Hreach Hwh. destruct rope as [r|]; [|split; reflexivity].
  simpl rope_root in Hwh.
  pose proof (reachable_whole_wf r Hreach Hwh) as (_ & _ & _ & Hc).
  destruct (leaves_whole_bytes _ Hwh) as (Wb & Cb).
  split; [|exact Wb]. unfold rope_scalars. simpl.
  rewrite utf8_scalars_length by assumption. rewrite (Hc eq_refl). lia.
Qed.

(** X11.  On a rope built by the public operations whose leaves hold whole
    characters, [rope_insert_chars rope k str] with a string that ends on a
    character boundary puts the characters of [str] between the first [k]
    characters of the rope and the others (after the last one when [k] is
    past the end); the leaves of the result hold whole characters and its
    character total is the number of its characters. *)
Theorem rope_insert_chars_text (r : rope_t) (k : Z) (str : list Z) :
  reachable any_position (Some r) -> leaves_whole (root r) ->
  size_t k -> utf8_whole str ->
  let rope' := rope_insert_chars (Some r) k str in
  rope_scalars rope'
  = firstn (Z.to_nat k) (rope_scalars (Some r)) ++ utf8_scalars str
    ++ skipn (Z.to_nat k) (rope_scalars (Some r))
  /\ leaves_whole (rope_root rope')
  /\ rope_char_length rope' = Z.of_nat (length (rope_scalars rope'))
  /\ rope_char_length rope' = char_len r + utf8_char_count str.
Proof.
  intros Hreach Hwh (Hk & Hkmax) Hs rope'.
  pose proof (reachable_whole_wf r Hreach Hwh) as Hwf.
  pose proof (reachable_consistent _ Hreach) as Hok.
  destruct (leaves_whole_bytes _ Hwh) as (Wb & _).
  assert (Hreach' : reachable any_position rope').
  { apply reach_insert_chars; [assumption | split; assumption]. }
  subst rope'. unfold rope_insert_chars in *.
  rewrite (rope_char_to_byte_flat r k Hwf Hwh) in *.
  destruct (utf8_char_to_byte_props (node_bytes (root r)) k) as (Hp & _).
  destruct (utf8_char_to_byte_prefix (node_bytes (root r)) k) as (Hpre & _).
  destruct (utf8_scalars_cut _ k Wb Hk) as (H1 & H2).
  set (p := utf8_char_to_byte (node_bytes (root r)) k) in *.
  assert (Hwh' : leaves_whole (rope_root (rope_insert_bytes (Some r) p str))).
  { apply (rope_insert_bytes_keeps_whole false); assumption. }
  destruct (rope_insert_bytes_spec false (Some r) p str Hok) as (_ & Hby);
    [discriminate|].
  specialize (Hby (proj1 Hp) ltac:(discriminate)).
  split; [|split; [exact Hwh' | split]].
  - unfold rope_scalars. rewrite Hby, rope_bytes_some.
    rewrite utf8_scalars_app by exact Hpre.
    rewrite utf8_scalars_app by exact Hs.
    rewrite H1, H2. reflexivity.
  - apply whole_rope_length; assumption.
  - unfold rope_insert_bytes. destruct (Z.eqb_spec (zlen str) 0) as [E|Ne].
    + apply zlen_zero in E. subst str. simpl. rewrite utf8_char_count_nil. lia.
    + reflexivity.
Qed.

Lemma rope_insert_chars_text_witness :
  let r := rope_new_from_str str_nihon in
  let rope' := rope_insert_chars (Some r) 3 str_e_acute in
  rope_scalars rope'
  = firstn (Z.to_nat 3) (rope_scalars (Some r)) ++ utf8_scalars str_e_acute
    ++ skipn (Z.to_nat 3) (rope_scalars (Some r))
  /\ leaves_whole (rope_root rope')
  /\ rope_char_length rope' = Z.of_nat (length (rope_scalars rope'))
  /\ rope_char_length rope' = char_len r + utf8_char_count str_e_acute.
Proof.
  apply (rope_insert_chars_text (rope_new_from_str str_nihon) 3 str_e_acute).
  - apply reach_new_from_str.
  - vm_compute. reflexivity.
  - unfold size_t. vm_compute. split; [discriminate | reflexivity].
  - vm_compute. reflexivity.
Defined.

(** The byte positions of two character positions. *)
Lemma char_range_bytes (r : rope_t) (start len : Z) :
  rope_wf r -> leaves_whole (root r) ->
  0 <= start -> 0 <= len -> start + len < SIZE_MAX1 -> byte_len r < SIZE_MAX1 ->
  let s := node_bytes (root r) in
  let byte_start := rope_char_to_byte (Some r) start in
  let byte_end := rope_char_to_byte (Some r) (wrap (start + len)) in
  byte_start = utf8_char_to_byte s start
  /\ byte_end = utf8_char_to_byte s (start + len)
  /\ 0 <= byte_start <= byte_end /\ byte_end <= byte_len r
  /\ wrap (byte_end - byte_start) = byte_end - byte_start
  /\ utf8_whole (take byte_start s) /\ utf8_whole (take byte_end s).
Proof.
  intros Hwf Hwh Hs Hl Hmax Hbl s byte_start byte_end.
  pose proof Hwf as (_ & Hb & _).
  destruct (leaves_whole_bytes _ Hwh) as (Wb & _).
  assert (Hwrap : wrap (start + len) = start + len).
  { unfold wrap. apply Z.mod_small. lia. }
  subst byte_start byte_end. rewrite Hwrap.
  rewrite !(rope_char_to_byte_flat r) by assumption. fold s.
  destruct (utf8_char_to_byte_props s start) as (Hp1 & _).
  destruct (utf8_char_to_byte_props s (start + len)) as (Hp2 & _).
  pose proof (utf8_char_to_byte_add s start len Wb Hs Hl) as Hadd.
  destruct (utf8_char_to_byte_props (drop (utf8_char_to_byte s start) s) len)
    as (Hp3 & _).
  split; [reflexivity|]. split; [reflexivity|].
  split; [lia|]. split; [fold s in Hb; lia|].
  split; [unfold wrap; apply Z.mod_small; fold s in Hb; lia|].
  split; apply utf8_char_to_byte_prefix.
Qed.

(** X12.  On such a rope, [rope_delete_chars rope start len] removes the
    characters [start .. start + len) (those there are) and keeps the
    others in order; the leaves of the result hold whole characters.  The
    sum [start + len] and the byte total are values of a [size_t]. *)
Theorem rope_delete_chars_text (r : rope_t) (start len : Z) :
  reachable any_position (Some r) -> leaves_whole (root r) ->
  size_t start -> size_t len -> size_t (start + len) -> size_t (byte_len r) ->
  let rope' := rope_delete_chars (Some r) start len in
  rope_scalars rope'
  = firstn (Z.to_nat start) (rope_scalars (Some r))
    ++ skipn (Z.to_nat (start + len)) (rope_scalars (Some r))
  /\ leaves_whole (rope_root rope')
  /\ rope_char_length rope' = Z.of_nat (length (rope_scalars rope')).
Proof.
  intros Hreach Hwh (Hs & _) (Hl & _) (_ & Hmax) (_ & Hbl) rope'.
  pose proof (reachable_whole_wf r Hreach Hwh) as Hwf.
  pose proof (reachable_consistent _ Hreach) as Hok.
  destruct (leaves_whole_bytes _ Hwh) as (Wb & _).
  assert (Hreach' : reachable any_position rope').
  { apply reach_delete_chars; [assumption | |]; unfold size_t, SIZE_MAX1 in *; lia. }
  destruct (whole_rope_length _ Hreach Hwh) as (Hlen & _). simpl in Hlen.
  assert (Hgoal : rope_scalars rope'
                  = firstn (Z.to_nat start) (rope_scalars (Some r))
                    ++ skipn (Z.to_nat (start + len)) (rope_scalars (Some r))
                  /\ leaves_whole (rope_root rope')).
  { subst rope'. unfold rope_delete_chars. rewrite Z.geb_leb.
    destruct (Z.leb_spec (char_len r) start) as [Hpast|Hin].
    - split; [|exact Hwh].
      rewrite firstn_all2, skipn_all2 by lia. now rewrite app_nil_r.
    - destruct (char_range_bytes r start len Hwf Hwh Hs Hl Hmax Hbl)
        as (E1 & E2 & Hr1 & Hr2 & Hw & W1 & W2).
      rewrite Hw.
      set (bs := rope_char_to_byte (Some r) start) in *.
      set (be := rope_char_to_byte (Some r) (wrap (start + len))) in *.
      destruct (rope_delete_bytes_spec false r bs (be - bs) Hok) as (_ & Hby);
        try lia.
      replace (bs + (be - bs)) with be in Hby by lia.
      split.
      + unfold rope_scalars. rewrite Hby, rope_bytes_some.
        rewrite utf8_scalars_app by exact W1.
        destruct (utf8_scalars_cut _ start Wb Hs) as (H1 & _).
        destruct (utf8_scalars_cut _ (start + len) Wb ltac:(lia)) as (_ & H2).
        rewrite E1, E2, H1, H2. reflexivity.
      + apply (rope_delete_bytes_keeps_whole false); try assumption; try lia.
        replace (bs + (be - bs)) with be by lia. exact W2. }
  destruct Hgoal as (G1 & G2).
  split; [exact G1|]. split; [exact G2|].
  apply whole_rope_length; assumption.
Qed.

Lemma rope_delete_chars_text_witness :
  let r := rope_new_from_str str_nihon in
  let rope' := rope_delete_chars (Some r) 1 2 in
  rope_scalars rope'
  = firstn (Z.to_nat 1) (rope_scalars (Some r))
    ++ skipn (Z.to_nat (1 + 2)) (rope_scalars (Some r))
  /\ leaves_whole (rope_root rope')
  /\ rope_char_length rope' = Z.of_nat (length (rope_scalars rope')).
Proof.
  apply (rope_delete_chars_text (rope_new_from_str str_nihon) 1 2).
  - apply reach_new_from_str.
  - vm_compute. reflexivity.
  - unfold size_t. vm_compute. split; [discriminate | reflexivity].
  - unfold size_t. vm_compute. split; [discriminate | reflexivity].
  - unfold size_t. vm_compute. split; [discriminate | reflexivity].
  - unfold size_t. vm_compute. split; [discriminate | reflexivity].
Defined.

(** X13.  On such a rope, [rope_split_chars rope k] returns the first [k]
    characters and the others, two ropes whose leaves hold whole
    characters and whose bytes put together are the bytes of the rope. *)
Theorem rope_split_chars_text (r : rope_t) (k : Z) :
  reachable any_position (Some r) -> leaves_whole (root r) -> size_t k ->
  let halves := rope_split_chars (Some r) k in
  rope_scalars (fst halves) = firstn (Z.to_nat k) (rope_scalars (Some r))
  /\ rope_scalars (snd halves) = skipn (Z.to_nat k) (rope_scalars (Some r))
  /\ rope_bytes (fst halves) ++ rope_bytes (snd halves) = rope_bytes (Some r)
  /\ leaves_whole (rope_root (fst halves)) /\ leaves_whole (rope_root (snd halves))
  /\ rope_char_length (fst halves) = Z.min k (char_len r)
  /\ rope_char_length (snd halves) = char_len r - Z.min k (char_len r).
Proof.
  intros Hreach Hwh (Hk & Hkmax) halves.
  pose proof (reachable_whole_wf r Hreach Hwh) as Hwf.
  pose proof (reachable_consistent _ Hreach) as Hok.
  destruct (leaves_whole_bytes _ Hwh) as (Wb & _).
  assert (Hr1 : reachable any_position (fst halves))
    by (apply reach_split_chars_left; [assumption | split; assumption]).
  assert (Hr2 : reachable any_position (snd halves))
    by (apply reach_split_chars_right; [assumption | split; assumption]).
  destruct (whole_rope_length _ Hreach Hwh) as (Hlen & _). simpl in Hlen.
  subst halves. unfold rope_split_chars in *.
  rewrite (rope_char_to_byte_flat r k Hwf Hwh) in *.
  destruct (utf8_char_to_byte_props (node_bytes (root r)) k) as (Hp & _).
  destruct (utf8_char_to_byte_prefix (node_bytes (root r)) k) as (Hpre & _).
  destruct (utf8_scalars_cut _ k Wb Hk) as (H1 & H2).
  set (p := utf8_char_to_byte (node_bytes (root r)) k) in *.
  destruct (rope_split_bytes_spec false (Some r) p Hok) as (_ & _ & Hby).
  destruct (Hby (proj1 Hp)) as (B1 & B2).
  destruct (rope_split_bytes_keeps_whole false r p Hok Hwh Hpre) as (W1 & W2).
  assert (S1 : rope_scalars (fst (rope_split_bytes (Some r) p))
               = firstn (Z.to_nat k) (rope_scalars (Some r))).
  { unfold rope_scalars. rewrite B1. exact H1. }
  assert (S2 : rope_scalars (snd (rope_split_bytes (Some r) p))
               = skipn (Z.to_nat k) (rope_scalars (Some r))).
  { unfold rope_scalars. rewrite B2. exact H2. }
  split; [exact S1|]. split; [exact S2|].
  split; [rewrite B1, B2; apply take_drop|].
  split; [exact W1|]. split; [exact W2|].
  destruct (whole_rope_length _ Hr1 W1) as (L1 & _).
  destruct (whole_rope_length _ Hr2 W2) as (L2 & _).
  rewrite L1, L2, S1, S2, length_firstn, length_skipn.
  unfold rope_scalars in *. simpl rope_bytes in *. lia.
Qed.

Lemma rope_split_chars_text_witness :
  let r := rope_new_from_str str_nihon in
  let halves := rope_split_chars (Some r) 3 in
  rope_scalars (fst halves) = firstn (Z.to_nat 3) (rope_scalars (Some r))
  /\ rope_scalars (snd halves) = skipn (Z.to_nat 3) (rope_scalars (Some r))
  /\ rope_bytes (fst halves) ++ rope_bytes (snd halves) = rope_bytes (Some r)
  /\ leaves_whole (rope_root (fst halves)) /\ leaves_whole (rope_root (snd halves))
  /\ rope_char_length (fst halves) = Z.min 3 (char_len r)
  /\ rope_char_length (snd halves) = char_len r - Z.min 3 (char_len r).
Proof.
  apply (rope_split_chars_text (rope_new_from_str str_nihon) 3).
  - apply reach_new_from_str.
  - vm_compute. reflexivity.
  - unfold size_t. vm_compute. split; [discriminate | reflexivity].
Defined.

(** X14.  On such a rope, [rope_copy_chars] stores the bytes of the
    characters [char_start .. char_start + char_len), cut to the size of
    the buffer, and [rope_substring_chars] returns a rope that holds
    exactly those characters.  The ropes are those whose traversal fits the
    64-entry stack; [char_start + char_len] and the byte total are values
    of a [size_t]. *)
Theorem rope_copy_chars_text (r : rope_t) (start len bufsize : Z) :
  reachable any_position (Some r) -> leaves_whole (root r) ->
  rope_stack_need (Some r) <= STACK_SIZE ->
  size_t start -> size_t len -> size_t (start + len) -> size_t (byte_len r) ->
  size_t bufsize ->
  let span := char_span (node_bytes (root r)) start len in
  utf8_scalars span
  = firstn (Z.to_nat len) (skipn (Z.to_nat start) (rope_scalars (Some r)))
  /\ rope_copy_chars (Some r) start len true bufsize
     = Some (zlen (take bufsize span), take bufsize span)
  /\ rope_substring_chars (Some r) start len true = Some (rope_new_from_str span)
  /\ rope_scalars (Some (rope_new_from_str span)) = utf8_scalars span.
Proof.
  intros Hreach Hwh Hh (Hs & _) (Hl & _) (_ & Hmax) (_ & Hbl) (Hbuf & _) span.
  pose proof (reachable_whole_wf r Hreach Hwh) as Hwf.
  pose proof (reachable_consistent _ Hreach) as Hok.
  destruct (leaves_whole_bytes _ Hwh) as (Wb & _).
  destruct (whole_rope_length _ Hreach Hwh) as (Hlen & _). simpl in Hlen.
  destruct (char_span_scalars _ start len Wb Hs Hl) as (Wspan & Sspan).
  fold span in Wspan, Sspan.
  assert (Hnew : forall s, rope_bytes (Some (rope_new_from_str s)) = s).
  { intros s. unfold rope_new_from_str. rewrite Z.gtb_ltb.
    destruct (Z.ltb_spec 0 (zlen s)); [reflexivity|].
    pose proof (zlen_nonneg s). symmetry. apply zlen_zero. lia. }
  split; [exact Sspan|].
  assert (Hpast : char_len r <= start -> span = []).
  { intros Hp. subst span. unfold char_span.
    rewrite (utf8_char_to_byte_past _ Wb start).
    - rewrite drop_all by lia. apply take_nil.
    - destruct Hwf as (_ & _ & _ & Hc). rewrite (Hc eq_refl) in Hp.
      destruct (leaves_whole_bytes _ Hwh) as (_ & Cb). lia. }
  split; [|split].
  - unfold rope_copy_chars. rewrite Z.geb_leb.
    destruct (Z.leb_spec (char_len r) start) as [Hp|Hin].
    { rewrite (Hpast Hp), take_nil. reflexivity. }
    destruct (char_range_bytes r start len Hwf Hwh Hs Hl Hmax Hbl)
      as (E1 & E2 & Hr1 & Hr2 & Hw & _).
    rewrite Hw.
    rewrite (rope_copy_bytes_spec false _ _ _ _ Hok Hh) by lia.
    assert (Hsame : take (Z.min (rope_char_to_byte (Some r) (wrap (start + len))
                                 - rope_char_to_byte (Some r) start) bufsize)
                         (drop (rope_char_to_byte (Some r) start) (rope_bytes (Some r)))
                    = take bufsize span).
    { subst span. unfold char_span. rewrite <- E1, <- E2. simpl rope_bytes.
      unfold take. rewrite firstn_firstn. f_equal. lia. }
    rewrite Hsame. reflexivity.
  - unfold rope_substring_chars. rewrite Z.geb_leb.
    destruct (Z.leb_spec (char_len r) start) as [Hp|Hin].
    { rewrite (Hpast Hp). reflexivity. }
    destruct (char_range_bytes r start len Hwf Hwh Hs Hl Hmax Hbl)
      as (E1 & E2 & Hr1 & Hr2 & Hw & _).
    rewrite Hw.
    rewrite (rope_substring_bytes_spec false _ _ _ Hok Hh) by lia. subst span. unfold char_span. rewrite <- E1, <- E2. reflexivity.
  - unfold rope_scalars. rewrite Hnew. reflexivity.
Qed.

Lemma rope_copy_chars_text_witness :
  let r := rope_new_from_str str_nihon in
  let span := char_span (node_bytes (root r)) 1 2 in
  utf8_scalars span
  = firstn (Z.to_nat 2) (skipn (Z.to_nat 1) (rope_scalars (Some r)))
  /\ rope_copy_chars (Some r) 1 2 true 100
     = Some (zlen (take 100 span), take 100 span)
  /\ rope_substring_chars (Some r) 1 2 true = Some (rope_new_from_str span)
  /\ rope_scalars (Some (rope_new_from_str span)) = utf8_scalars span.
Proof.
  apply (rope_copy_chars_text (rope_new_from_str str_nihon) 1 2 100).
  - apply reach_new_from_str.
  - vm_compute. reflexivity.
  - vm_compute. discriminate.
  - unfold size_t. vm_compute. split; [discriminate | reflexivity].
  - unfold size_t. vm_compute. split; [discriminate | reflexivity].
  - unfold size_t. vm_compute. split; [discriminate | reflexivity].
  - unfold size_t. vm_compute. split; [discriminate | reflexivity].
  - unfold size_t. vm_compute. split; [discriminate | reflexivity].
Defined.

(** ** Lines *)

Lemma char_to_line_loop_spec (rope : rope_t) (char_pos : Z) (fuel : nat) :
  forall i line,
    0 <= i -> Z.of_nat fuel = char_len rope - i ->
    line = newline_chars rope (Z.to_nat i) ->
    i <= Z.min char_pos (char_len rope) ->
    char_to_line_loop fuel rope char_pos i line
    = newline_chars rope (Z.to_nat (Z.min char_pos (char_len rope))).
Proof.
  induction fuel as [|fuel IH]; intros i line Hi Hfuel Hline Hle; simpl.
  - subst line. f_equal. lia.
  - destruct (Z.ltb_spec i char_pos); destruct (Z.ltb_spec i (char_len rope));
      simpl; try (subst line; f_equal; lia).
    apply IH; try lia.
    rewrite newline_chars_succ by assumption. rewrite <- Hline.
    destruct (_ =? 10); lia.
Qed.

Lemma rope_char_to_line_spec (r : rope_t) (p : Z) :
  0 <= p -> 0 <= char_len r ->
  rope_char_to_line (Some r) p
  = newline_chars r (Z.to_nat (Z.min p (char_len r))).
Proof.
  intros Hp Hc. unfold rope_char_to_line.
  apply char_to_line_loop_spec; try lia. reflexivity.
Qed.

(** The newline count grows by steps of one, so it takes every value up to
    the one it reaches. *)
Lemma newline_chars_hits (rope : rope_t) (n : nat) :
  forall k, 0 <= k <= newline_chars rope n ->
    exists j, (j <= n)%nat /\ newline_chars rope j = k.
Proof.
  induction n as [|n IH]; intros k Hk.
  - exists 0%nat. simpl in *. split; [lia | lia].
  - simpl in Hk.
    destruct (Z.eq_dec k (newline_chars rope (S n))) as [E|Ne].
    + exists (S n). split; [lia | congruence].
    + destruct (IH k) as (j & Hj & Ej).
      { simpl in Ne. destruct (_ =? 10); lia. }
      exists j. split; [lia | exact Ej].
Qed.

Lemma newline_chars_nonneg (rope : rope_t) (n : nat) : 0 <= newline_chars rope n.
Proof. apply (newline_chars_mono rope 0 n). lia. Qed.

(** X15.  Lines and characters.  [rope_char_to_line] never decreases as
    the position grows; the start of a line lies on that line (for every
    line number up to the one of the end of the text); and the start of
    the line of a character is at or before that character. *)
Theorem line_char_roundtrip (r : rope_t) (k p q : Z) :
  0 <= char_len r -> 0 <= k -> 0 <= p <= q ->
  rope_char_to_line (Some r) p <= rope_char_to_line (Some r) q
  /\ (k <= rope_char_to_line (Some r) (char_len r) ->
      rope_char_to_line (Some r) (rope_line_to_char (Some r) k) = k)
  /\ rope_line_to_char (Some r) (rope_char_to_line (Some r) p) <= p
  /\ rope_char_to_line (Some r) 0 = 0
  /\ rope_line_to_char (Some r) 0 = 0.
Proof.
  intros Hc Hk Hpq.
  assert (Hspec : forall x, 0 <= x ->
            rope_char_to_line (Some r) x
            = newline_chars r (Z.to_nat (Z.min x (char_len r))))
    by (intros; apply rope_char_to_line_spec; lia).
  assert (Hloop : forall line,
            let res := rope_line_to_char (Some r) line in
            0 <= res <= char_len r
            /\ (res < char_len r -> newline_chars r (Z.to_nat res) = line)
            /\ (forall j, 0 <= j < res -> newline_chars r (Z.to_nat j) <> line)).
  { intros line.
    apply (line_to_char_loop_spec r line (Z.to_nat (char_len r)) 0 0);
      [lia | lia | reflexivity]. }
  split; [|split; [|split; [|split]]].
  - rewrite !Hspec by lia. apply newline_chars_mono. lia.
  - intros Hle. destruct (Hloop k) as (Hr & Hfound & Hmin).
    set (res := rope_line_to_char (Some r) k) in *.
    rewrite Hspec by lia. rewrite Z.min_l by lia.
    destruct (Z.eq_dec res (char_len r)) as [E|Ne]; [|apply Hfound; lia].
    rewrite Hspec, Z.min_id in Hle by lia.
    destruct (newline_chars_hits r (Z.to_nat (char_len r)) k ltac:(lia))
      as (j & Hj & Ej).
    destruct (Nat.eq_dec j (Z.to_nat (char_len r))) as [Ej'|Nj].
    + rewrite E. congruence.
    + exfalso. apply (Hmin (Z.of_nat j)); [lia|]. rewrite Nat2Z.id. exact Ej.
  - destruct (Hloop (rope_char_to_line (Some r) p)) as (Hr & _ & Hmin).
    set (res := rope_line_to_char (Some r) (rope_char_to_line (Some r) p)) in *.
    destruct (Z.le_gt_cases res p) as [|Hgt]; [assumption|].
    exfalso. apply (Hmin p); [lia|].
    rewrite Hspec by lia. rewrite Z.min_l by lia. reflexivity.
  - rewrite Hspec by lia. rewrite Z.min_l by lia. reflexivity.
  - destruct (Hloop 0) as (Hr & _ & Hmin).
    destruct (Z.eq_dec (rope_line_to_char (Some r) 0) 0) as [|Ne]; [assumption|].
    exfalso. apply (Hmin 0); [lia | reflexivity].
Qed.

Lemma line_char_roundtrip_witness :
  let r := rope_new_from_str str_three_lines in
  rope_char_to_line (Some r) 3 <= rope_char_to_line (Some r) 9
  /\ (2 <= rope_char_to_line (Some r) (char_len r) ->
      rope_char_to_line (Some r) (rope_line_to_char (Some r) 2) = 2)
  /\ rope_line_to_char (Some r) (rope_char_to_line (Some r) 3) <= 3
  /\ rope_char_to_line (Some r) 0 = 0
  /\ rope_line_to_char (Some r) 0 = 0.
Proof.
  apply (line_char_roundtrip (rope_new_from_str str_three_lines) 2 3 9).
  - vm_compute. discriminate.
  - discriminate.
  - split; discriminate.
Defined.

(** X16.  On a rope built by the public operations whose leaves hold whole
    characters, [rope_char_to_line rope p] is the number of newline
    characters among the first [p] characters of the text; when the leaves
    hold well-formed UTF-8 it is at most [rope_line_count rope - 1], which
    it reaches at the end of the text. *)
Theorem rope_char_to_line_text (r : rope_t) (p : Z) :
  reachable any_position (Some r) -> leaves_whole (root r) -> size_t p ->
  rope_char_to_line (Some r) p
  = count_newline_scalars (firstn (Z.to_nat p) (rope_scalars (Some r)))
  /\ (leaves_well_formed (root r) ->
      rope_char_to_line (Some r) p <= rope_line_count (Some r) - 1
      /\ (char_len r <= p ->
          rope_char_to_line (Some r) p = rope_line_count (Some r) - 1)).
Proof.
  intros Hreach Hwh (Hp & _).
  pose proof (reachable_whole_wf r Hreach Hwh) as Hwf.
  destruct (whole_rope_length _ Hreach Hwh) as (Hlen & _). simpl in Hlen.
  assert (Hc : 0 <= char_len r) by lia.
  rewrite rope_char_to_line_spec by assumption.
  assert (Hmin : newline_chars r (Z.to_nat (Z.min p (char_len r)))
                 = count_newline_scalars (firstn (Z.to_nat p) (rope_scalars (Some r)))).
  { rewrite (newline_chars_scalars r Hwf Hwh) by lia.
    unfold rope_scalars. simpl rope_bytes.
    destruct (Z.le_gt_cases p (char_len r)).
    - rewrite Z.min_l by lia. reflexivity.
    - rewrite Z.min_r by lia. unfold rope_scalars in Hlen. simpl in Hlen.
      rewrite !firstn_all2 by lia. reflexivity. }
  split; [exact Hmin|].
  intros Hok. pose proof (newline_chars_total r Hwf Hok) as Htot.
  simpl rope_line_count.
  split.
  - pose proof (newline_chars_mono r (Z.to_nat (Z.min p (char_len r)))
                  (Z.to_nat (char_len r)) ltac:(lia)). lia.
  - intros Hge. rewrite Z.min_r by lia. lia.
Qed.

Lemma rope_char_to_line_text_witness :
  let r := rope_new_from_str str_three_lines in
  rope_char_to_line (Some r) 7
  = count_newline_scalars (firstn (Z.to_nat 7) (rope_scalars (Some r)))
  /\ (leaves_well_formed (root r) ->
      rope_char_to_line (Some r) 7 <= rope_line_count (Some r) - 1
      /\ (char_len r <= 7 ->
          rope_char_to_line (Some r) 7 = rope_line_count (Some r) - 1)).
Proof.
  apply (rope_char_to_line_text (rope_new_from_str str_three_lines) 7).
  - apply reach_new_from_str.
  - vm_compute. reflexivity.
  - unfold size_t. vm_compute. split; [discriminate | reflexivity].
Defined.

(** X17.  Lines and bytes, on a rope built by the public operations whose
    leaves hold whole characters: [rope_line_to_byte] is the byte offset
    of the character [rope_line_to_char] returns, [rope_byte_to_line]
    brings it back to the line, and line 0 starts at byte 0. *)
Theorem line_byte_roundtrip (r : rope_t) (k : Z) :
  reachable any_position (Some r) -> leaves_whole (root r) ->
  0 <= k <= rope_char_to_line (Some r) (char_len r) ->
  rope_line_to_byte (Some r) k
  = utf8_char_to_byte (node_bytes (root r)) (rope_line_to_char (Some r) k)
  /\ rope_byte_to_line (Some r) (rope_line_to_byte (Some r) k) = k
  /\ rope_line_to_byte (Some r) 0 = 0
  /\ rope_byte_to_line (Some r) 0 = 0.
Proof.
  intros Hreach Hwh Hk.
  pose proof (reachable_whole_wf r Hreach Hwh) as Hwf.
  destruct (whole_rope_length _ Hreach Hwh) as (Hlen & _). simpl in Hlen.
  assert (Hc : 0 <= char_len r) by lia.
  assert (Hloop : forall line, 0 <= rope_line_to_char (Some r) line <= char_len r).
  { intros line.
    apply (line_to_char_loop_spec r line (Z.to_nat (char_len r)) 0 0);
      [lia | lia | reflexivity]. }
  assert (Hzero : rope_line_to_char (Some r) 0 = 0).
  { destruct (line_to_char_loop_spec r 0 (Z.to_nat (char_len r)) 0 0)
      as (Hr & _ & Hmin); [lia | lia | reflexivity |].
    fold (rope_line_to_char (Some r) 0) in Hr, Hmin.
    destruct (Z.eq_dec (rope_line_to_char (Some r) 0) 0) as [|Ne]; [assumption|].
    exfalso. apply (Hmin 0); [lia | reflexivity]. }
  assert (Hrt : rope_char_to_line (Some r) (rope_line_to_char (Some r) k) = k).
  { rewrite rope_char_to_line_spec by (try apply Hloop; lia).
    pose proof (Hloop k).
    destruct (line_to_char_loop_spec r k (Z.to_nat (char_len r)) 0 0)
      as (Hr & Hfound & Hmin); [lia | lia | reflexivity |].
    fold (rope_line_to_char (Some r) k) in Hr, Hfound, Hmin.
    rewrite Z.min_l by lia.
    destruct (Z.eq_dec (rope_line_to_char (Some r) k) (char_len r)) as [E|Ne];
      [|apply Hfound; lia].
    destruct Hk as (Hk0 & Hk1).
    rewrite rope_char_to_line_spec, Z.min_id in Hk1 by lia.
    destruct (newline_chars_hits r (Z.to_nat (char_len r)) k ltac:(lia))
      as (j & Hj & Ej).
    destruct (Nat.eq_dec j (Z.to_nat (char_len r))) as [Ej'|Nj].
    + rewrite E. congruence.
    + exfalso. apply (Hmin (Z.of_nat j)); [lia|]. rewrite Nat2Z.id. exact Ej. }
  split; [|split; [|split]].
  - unfold rope_line_to_byte. apply rope_char_to_byte_flat; assumption.
  - unfold rope_byte_to_line, rope_line_to_byte.
    rewrite char_byte_roundtrip by (try assumption; apply Hloop).
    exact Hrt.
  - unfold rope_line_to_byte. rewrite Hzero.
    rewrite rope_char_to_byte_flat by assumption.
    destruct (node_bytes (root r)) as [|b s]; [reflexivity|].
    rewrite utf8_char_to_byte_step by discriminate. reflexivity.
  - unfold rope_byte_to_line.
    replace (rope_byte_to_char (Some r) 0) with 0.
    + rewrite rope_char_to_line_spec by lia. rewrite Z.min_l by lia. reflexivity.
    + rewrite rope_byte_to_char_flat by assumption.
      unfold utf8_byte_to_char.
      destruct (node_bytes (root r)) as [|b s]; [reflexivity|].
      rewrite Z.geb_leb. destruct (Z.leb_spec (zlen (b :: s)) 0) as [H|H].
      * rewrite zlen_cons in H. pose proof (zlen_nonneg s). lia.
      * change (byte_to_char_scan (b :: s) 0 = 0) .
        rewrite byte_to_char_scan_step by discriminate. reflexivity.
Qed.

Lemma line_byte_roundtrip_witness :
  let r := rope_new_from_str str_three_lines in
  rope_line_to_byte (Some r) 2
  = utf8_char_to_byte (node_bytes (root r)) (rope_line_to_char (Some r) 2)
  /\ rope_byte_to_line (Some r) (rope_line_to_byte (Some r) 2) = 2
  /\ rope_line_to_byte (Some r) 0 = 0
  /\ rope_byte_to_line (Some r) 0 = 0.
Proof.
  apply (line_byte_roundtrip (rope_new_from_str str_three_lines) 2).
  - apply reach_new_from_str.
  - vm_compute. reflexivity.
  - vm_compute. split; discriminate.
Defined.

(** ** No leaf is empty *)

Lemma node_set_color_nonempty (n : rope_node_t) (c : rb_color_t) :
  leaves_nonempty (node_set_color n c) <-> leaves_nonempty n.
Proof. destruct n; simpl; tauto. Qed.

Lemma node_new_branch_nonempty (l r : rope_node_t) :
  leaves_nonempty (node_new_branch l r) <-> leaves_nonempty l /\ leaves_nonempty r.
Proof. destruct l; simpl; tauto. Qed.

Lemma node_update_weights_nonempty (n : rope_node_t) :
  leaves_nonempty (node_update_weights n) <-> leaves_nonempty n.
Proof.
  destruct n as [| |c bw cw nw l r]; try tauto.
  unfold node_update_weights. destruct (is_null l); simpl; tauto.
Qed.

Lemma rotate_left_nonempty (n : rope_node_t) :
  leaves_nonempty (rotate_left n) <-> leaves_nonempty n.
Proof.
  destruct n as [| |c bw cw nw l r]; try tauto.
  destruct r as [| |rc rbw rcw rnw rl rr]; try tauto.
  unfold rotate_left. rewrite !node_update_weights_branch. simpl. tauto.
Qed.

Lemma rotate_right_nonempty (n : rope_node_t) :
  leaves_nonempty (rotate_right n) <-> leaves_nonempty n.
Proof.
  destruct n as [| |c bw cw nw l r]; try tauto.
  destruct l as [| |lc lbw lcw lnw ll lr]; try tauto.
  unfold rotate_right. rewrite !node_update_weights_branch. simpl. tauto.
Qed.

Lemma flip_colors_nonempty (n : rope_node_t) :
  leaves_nonempty (flip_colors n) <-> leaves_nonempty n.
Proof.
  destruct n as [| |c bw cw nw l r]; try tauto.
  simpl. rewrite !node_set_color_nonempty. tauto.
Qed.

Lemma nonempty_if (b : bool) (f : rope_node_t -> rope_node_t) (n : rope_node_t) :
  (forall m, leaves_nonempty (f m) <-> leaves_nonempty m) ->
  (leaves_nonempty (if b then f n else n) <-> leaves_nonempty n).
Proof. intros Hf. destruct b; [apply Hf | tauto]. Qed.

Lemma balance_nonempty (n : rope_node_t) :
  leaves_nonempty (balance n) <-> leaves_nonempty n.
Proof.
  destruct n as [| |c bw cw nw l r]; try tauto.
  unfold balance.
  rewrite nonempty_if by exact flip_colors_nonempty.
  rewrite nonempty_if by exact rotate_right_nonempty.
  rewrite nonempty_if by exact rotate_left_nonempty.
  tauto.
Qed.

Lemma take_nonempty (p : Z) (d : list Z) : 0 < p -> d <> [] -> take p d <> [].
Proof.
  intros Hp Hd E. destruct d as [|b d']; [congruence|].
  unfold take in E. destruct (Z.to_nat p) eqn:En; [lia | discriminate].
Qed.

Lemma drop_nonempty (p : Z) (d : list Z) : 0 <= p < zlen d -> drop p d <> [].
Proof.
  intros Hp E. apply (f_equal zlen) in E. rewrite zlen_nil in E.
  rewrite zlen_drop in E by lia. lia.
Qed.

Lemma node_insert_bytes_nonempty (str : list Z) (t : rope_node_t) :
  str <> [] ->
  forall p, 0 <= p -> leaves_nonempty t -> leaves_nonempty (node_insert_bytes t p str).
Proof.
  intros Hs.
  induction t as [|c bw cw nw d cl nl|c bw cw nw l IHl r IHr]; intros p Hp Hne.
  - exact I.
  - cbn [node_insert_bytes]. simpl in Hne.
    destruct (Z.eqb_spec p 0); [|rewrite Z.geb_leb; destruct (Z.leb_spec (zlen d) p)];
      rewrite balance_nonempty, ?node_new_branch_nonempty; unfold node_new_leaf; simpl;
      try tauto.
    split; [split; [|assumption]|].
    + apply take_nonempty; [lia | assumption].
    + apply drop_nonempty. lia.
  - cbn [node_insert_bytes]. simpl in Hne.
    rewrite balance_nonempty, node_update_weights_nonempty.
    destruct (Z.leb_spec p bw); simpl; split; try tauto.
    + apply IHl; tauto.
    + apply IHr; [lia | tauto].
Qed.

Lemma node_split_recursive_nonempty (t : rope_node_t) :
  forall p, 0 <= p -> leaves_nonempty t ->
    leaves_nonempty (fst (node_split_recursive t p))
    /\ leaves_nonempty (snd (node_split_recursive t p)).
Proof.
  induction t as [|c bw cw nw d cl nl|c bw cw nw l IHl r IHr]; intros p Hp Hne.
  - simpl. auto.
  - simpl in Hne |- *. destruct (Z.eqb_spec p 0); [simpl; auto|].
    rewrite Z.geb_leb. destruct (Z.leb_spec (zlen d) p); [simpl; auto|].
    simpl. split; [apply take_nonempty; [lia | assumption] | apply drop_nonempty; lia].
  - simpl in Hne. destruct Hne as (Nl & Nr).
    simpl node_split_recursive.
    destruct (Z.leb_spec p bw).
    + destruct (IHl p Hp Nl) as (H1 & H2).
      destruct (node_split_recursive l p) as [ll lr]. simpl in H1, H2.
      destruct (negb (is_null lr) && negb (is_null r)); simpl.
      * rewrite node_set_color_nonempty, node_new_branch_nonempty. auto.
      * destruct (negb (is_null lr)); auto.
    + destruct (IHr (p - bw) ltac:(lia) Nr) as (H1 & H2).
      destruct (node_split_recursive r (p - bw)) as [rl rr]. simpl in H1, H2.
      destruct (negb (is_null rl) && negb (is_null l)); simpl.
      * rewrite node_set_color_nonempty, node_new_branch_nonempty. auto.
      * auto.
Qed.

Lemma rope_of_tree_nonempty (t : rope_node_t) :
  leaves_nonempty t -> leaves_nonempty (root (rope_of_tree t)).
Proof.
  intros H. unfold rope_of_tree. destruct (is_null t); simpl; [exact I|].
  apply node_set_color_nonempty. exact H.
Qed.

Lemma rope_split_bytes_nonempty (rope : option rope_t) (p : Z) :
  0 <= p -> leaves_nonempty (rope_root rope) ->
  leaves_nonempty (rope_root (fst (rope_split_bytes rope p)))
  /\ leaves_nonempty (rope_root (snd (rope_split_bytes rope p))).
Proof.
  intros Hp Hne. destruct rope as [r|]; simpl; [|auto].
  destruct (p =? 0); [simpl; auto|].
  destruct (p >=? byte_len r); [simpl; auto|].
  destruct (node_split_recursive_nonempty (root r) p Hp Hne) as (H1 & H2).
  destruct (node_split_recursive (root r) p) as [lt rt]. simpl in *.
  split; apply rope_of_tree_nonempty; assumption.
Qed.

Lemma rope_concat_nonempty (a b : option rope_t) :
  leaves_nonempty (rope_root a) -> leaves_nonempty (rope_root b) ->
  leaves_nonempty (rope_root (rope_concat a b)).
Proof.
  intros Ha Hb. unfold rope_concat.
  destruct a as [l|]; [|exact Hb].
  destruct (byte_len l =? 0); [exact Hb|].
  destruct b as [r|]; [|exact Ha].
  destruct (byte_len r =? 0); [exact Ha|].
  simpl. rewrite node_set_color_nonempty, node_new_branch_nonempty. auto.
Qed.

Lemma rope_insert_bytes_nonempty (rope : option rope_t) (p : Z) (str : list Z) :
  0 <= p -> 0 <= rope_byte_length rope -> leaves_nonempty (rope_root rope) ->
  leaves_nonempty (rope_root (rope_insert_bytes rope p str)).
Proof.
  intros Hp Hb Hne. destruct rope as [r|]; [|exact I].
  unfold rope_insert_bytes.
  destruct (Z.eqb_spec (zlen str) 0) as [|Ns]; [exact Hne|].
  assert (Hs : str <> []) by (intros ->; apply Ns; reflexivity).
  cbn [rope_root root].
  destruct (is_null (root r)).
  - apply node_set_color_nonempty. unfold node_new_leaf. simpl. exact Hs.
  - apply node_set_color_nonempty. apply node_insert_bytes_nonempty; try assumption.
    simpl in Hb. destruct (p >? byte_len r); lia.
Qed.

Lemma rope_delete_bytes_nonempty (rope : option rope_t) (start len : Z) :
  0 <= start -> 0 <= len -> leaves_nonempty (rope_root rope) ->
  leaves_nonempty (rope_root (rope_delete_bytes rope start len)).
Proof.
  intros Hs Hl Hne. destruct rope as [r|]; [|exact I].
  unfold rope_delete_bytes. rewrite Z.geb_leb.
  destruct (Z.leb_spec (byte_len r) start); [exact Hne|].
  set (len' := if _ >? _ then _ else _).
  assert (Hn' : 0 <= len') by (subst len'; destruct (_ >? _); lia).
  destruct (len' =? 0); [exact Hne|].
  destruct (rope_split_bytes_nonempty (Some r) start Hs Hne) as (H1 & H2).
  destruct (rope_split_bytes (Some r) start) as [rope1 right_rope]. simpl in H1, H2.
  destruct right_rope as [rr|]; [|exact H1].
  destruct (rope_split_bytes_nonempty (Some rr) len' Hn' H2) as (_ & H3).
  destruct (rope_split_bytes (Some rr) len') as [mid rightmost]. simpl in H3.
  destruct rightmost as [rm|]; [|exact H1].
  apply rope_concat_nonempty; assumption.
Qed.

Lemma wrap_nonneg (x : Z) : 0 <= wrap x.
Proof. unfold wrap. apply Z.mod_pos_bound. reflexivity. Qed.

Lemma handle_byte_length_nonneg (full : bool) (rope : option rope_t) :
  handle_ok full rope -> 0 <= rope_byte_length rope.
Proof.
  destruct rope as [r|]; simpl; [|lia].
  intros (_ & Hb & _). rewrite Hb. apply zlen_nonneg.
Qed.

(** Whatever the arguments, no operation leaves an empty leaf in the
    tree. *)
Lemma reachable_leaves_nonempty (rope : option rope_t) :
  reachable any_position rope -> leaves_nonempty (rope_root rope).
Proof.
  induction 1 as [| |str|rope p str Hr IH Hp _|rope k str Hr IH _
                  |rope a n Hr IH Ha Hn|rope a n Hr IH _ _|a b _ IHa _ IHb
                  |rope p Hr IH Hp|rope p Hr IH Hp|rope k Hr IH _|rope k Hr IH _];
    try (pose proof (reachable_consistent _ Hr) as Hok).
  - exact I.
  - exact I.
  - unfold rope_new_from_str. rewrite Z.gtb_ltb.
    destruct (Z.ltb_spec 0 (zlen str)); [|exact I].
    simpl. intros ->. rewrite zlen_nil in *. lia.
  - apply rope_insert_bytes_nonempty; try assumption; [apply Hp|].
    apply (handle_byte_length_nonneg false); assumption.
  - destruct rope as [r|]; [|exact I].
    apply rope_insert_bytes_nonempty; try assumption.
    + apply (rope_char_to_byte_props false r k Hok).
    + apply (handle_byte_length_nonneg false); assumption.
  - apply rope_delete_bytes_nonempty; try assumption; [apply Ha | apply Hn].
  - destruct rope as [r|]; [|exact I].
    unfold rope_delete_chars.
    destruct (a >=? char_len r); [assumption|].
    apply rope_delete_bytes_nonempty; try assumption.
    + apply (rope_char_to_byte_props false r a Hok).
    + apply wrap_nonneg.
  - apply rope_concat_nonempty; assumption.
  - apply rope_split_bytes_nonempty; [apply Hp | assumption].
  - apply rope_split_bytes_nonempty; [apply Hp | assumption].
  - destruct rope as [r|]; [|exact I].
    apply rope_split_bytes_nonempty; [|assumption].
    apply (rope_char_to_byte_props false r k Hok).
  - destruct rope as [r|]; [|exact I].
    apply rope_split_bytes_nonempty; [|assumption].
    apply (rope_char_to_byte_props false r k Hok).
Qed.

(** ** The iterator, forward *)

Lemma text_tree_branch (c : rb_color_t) (bw cw nw : Z) (l r : rope_node_t) :
  text_tree (Branch c bw cw nw l r) -> text_tree l /\ text_tree r.
Proof.
  intros (Hok & (Wl & Wr) & (Nl & Nr)).
  destruct (tree_ok_branch _ _ _ _ _ _ Hok) as (Hl & Hr).
  unfold text_tree. auto.
Qed.

(** A node of a text tree that is no branch is a non-empty leaf of whole
    characters. *)
Lemma text_tree_leaf (leaf : rope_node_t) :
  is_branch leaf = false -> text_tree leaf ->
  is_null leaf = false
  /\ node_bytes leaf = leaf_data leaf
  /\ leaf_data leaf <> [] /\ utf8_whole (leaf_data leaf).
Proof.
  intros Hb ((_ & Nn) & Hw & Hne).
  destruct leaf; [congruence | | discriminate]. simpl in *. auto.
Qed.

Lemma utf8_char_to_byte_zero (s : list Z) : utf8_char_to_byte s 0 = 0.
Proof.
  destruct s as [|b s]; [reflexivity|].
  rewrite utf8_char_to_byte_step by discriminate. reflexivity.
Qed.

(** The descent by character weight and the descent by byte weight land in
    the same leaf, at the start of a character. *)
Lemma seek_leaf_char (t : rope_node_t) :
  tree_wf t ->
  forall k off stack leaf p' off' stack',
    0 <= k < tree_chars t ->
    seek_leaf t (char_to_byte_walk t k 0) off stack = Some (leaf, p', off', stack') ->
    exists k', p' = utf8_char_to_byte (node_bytes leaf) k'.
Proof.
  induction t as [|c bw cw nw d cl nl|c bw cw nw l IHl r IHr];
    intros Ht k off stack leaf p' off' stack' Hk E.
  - simpl in Hk. lia.
  - simpl in E. inversion E; subst. exists k. simpl. lia.
  - destruct (wf_branch _ _ _ _ _ _ Ht) as (_ & Hl & Hr & _ & _).
    simpl in Ht. destruct Ht as (Hbw & Hcw & _).
    simpl in Hk. simpl char_to_byte_walk in E.
    destruct (Z.ltb_spec k cw).
    + destruct (char_to_byte_walk_roundtrip l Hl k) as (Hlt & _); [lia|].
      simpl seek_leaf in E.
      destruct (Z.ltb_spec (char_to_byte_walk l k 0) bw); [|lia].
      destruct (_ <? STACK_SIZE); [|discriminate].
      eapply IHl; [exact Hl | | exact E]. lia.
    + rewrite char_to_byte_walk_offset in E. rewrite ?Z.add_0_l in E.
      destruct (char_to_byte_walk_props r Hr (k - cw)) as ((Hp0 & _) & _).
      simpl seek_leaf in E.
      destruct (Z.ltb_spec (bw + char_to_byte_walk r (k - cw) 0) bw); [lia|].
      replace (bw + char_to_byte_walk r (k - cw) 0 - bw)
        with (char_to_byte_walk r (k - cw) 0) in E by lia.
      eapply IHr; [exact Hr | | exact E]. lia.
Qed.

Section Iteration.

Variable r : rope_t.
Hypothesis r_wf : rope_wf r.
Hypothesis r_whole : leaves_whole (root r).

Lemma content_whole : utf8_whole (node_bytes (root r)) /\ utf8_char_count (node_bytes (root r)) = char_len r.
Proof.
  destruct (leaves_whole_bytes _ r_whole) as (Wb & Cb).
  destruct r_wf as (_ & _ & _ & Hc). split; [exact Wb|].
  rewrite Cb. symmetry. apply Hc. reflexivity.
Qed.

(** What lies ahead of a character position that is not the end. *)
Lemma ahead (k : Z) :
  0 <= k < char_len r ->
  let rest := drop (utf8_char_to_byte (node_bytes (root r)) k) (node_bytes (root r)) in
  rest <> [] /\ lead_len rest <= zlen rest
  /\ utf8_decode rest = (nth (Z.to_nat k) (utf8_scalars (node_bytes (root r))) 0, lead_len rest)
  /\ utf8_char_to_byte (node_bytes (root r)) (k + 1)
     = utf8_char_to_byte (node_bytes (root r)) k + lead_len rest.
Proof.
  intros Hk rest. destruct content_whole as (Wb & Cb).
  destruct (utf8_char_to_byte_roundtrip (node_bytes (root r)) k ltac:(lia)) as (Hlt & _).
  destruct (utf8_char_to_byte_props (node_bytes (root r)) k) as (Hp & _).
  pose proof (utf8_char_to_byte_suffix (node_bytes (root r)) k Wb) as Hw. fold rest in Hw.
  assert (Hne : rest <> []).
  { apply drop_nonempty. lia. }
  pose proof Hw as Hw'. apply utf8_whole_step in Hw'; [|exact Hne].
  destruct Hw' as (Hle & _).
  split; [exact Hne|]. split; [exact Hle|]. split.
  - rewrite (surjective_pairing (utf8_decode rest)). f_equal.
    + apply utf8_decode_at_char; [exact Wb | lia].
    + rewrite utf8_decode_read by exact Hne. rewrite Z.gtb_ltb.
      destruct (Z.ltb_spec (zlen rest) (lead_len rest)); [lia | reflexivity].
  - rewrite utf8_char_to_byte_add by (assumption || lia). fold rest. f_equal.
    rewrite utf8_char_to_byte_step by exact Hne.
    destruct (Z.ltb_spec 0 1); [|lia]. rewrite Z.gtb_ltb.
    destruct (Z.ltb_spec (zlen rest) (lead_len rest)); [lia|].
    replace (1 - 1) with 0 by lia. rewrite utf8_char_to_byte_zero. lia.
Qed.

(** The iterator moves to the next leaf when it has used up the current
    one; either way it then stands on a byte of a leaf. *)
Lemma next_leaf_step (byte_pos : Z) (state : rope_iter_state_t) :
  state_inv (node_bytes (root r)) byte_pos state -> drop byte_pos (node_bytes (root r)) <> [] ->
  exists state',
    (if leaf_byte_pos state >=? zlen (leaf_data (current_leaf state))
     then match next_leaf (iter_stack state) with
          | None => None
          | Some (leaf, stack) => Some (mk_iter_state stack leaf 0)
          end
     else Some state) = Some state'
    /\ state_inv (node_bytes (root r)) byte_pos state'
    /\ leaf_byte_pos state' < zlen (leaf_data (current_leaf state')).
Proof.
  intros (Hb & Ht & Hl & Hw & Hall & Hfit & Hby) Hne.
  rewrite Z.geb_leb.
  destruct (Z.leb_spec (zlen (leaf_data (current_leaf state))) (leaf_byte_pos state))
    as [Hend|Hin].
  2:{ exists state. split; [reflexivity|]. split; [|exact Hin].
      unfold state_inv. auto 10. }
  rewrite drop_all in Hby by lia. simpl in Hby.
  destruct (iter_stack state) as [|parent rest] eqn:Es.
  { simpl in Hby. congruence. }
  apply stack_all_cons in Hall. destruct Hall as (Hr & Hall).
  simpl in Hfit. destruct Hfit as (Hfr & Hfit).
  pose proof Hr as ((_ & Nr) & _).
  cbn [next_leaf]. destruct (is_null (branch_right parent)) eqn:En;
    [apply is_null_true in En; congruence|].
  cbn [negb]. unfold find_leftmost_leaf.
  destruct (push_left_spec (branch_right parent) rest Hfr Hfit)
    as (bottom & stack' & E & Hbb & Hs' & Hby' & _).
  rewrite E.
  destruct (push_left_all text_tree text_tree_branch _ _ _ _ Hr Hall E)
    as (Htb & Hall').
  destruct (text_tree_leaf bottom Hbb Htb) as (_ & Hnb & Hdne & Hdw).
  exists (mk_iter_state stack' bottom 0). split; [reflexivity|].
  pose proof (nonempty_zlen _ Hdne).
  split; [|simpl; lia].
  unfold state_inv. simpl. rewrite drop_0 by lia.
  split; [exact Hbb|]. split; [exact Htb|]. split; [lia|]. split; [exact Hdw|].
  split; [exact Hall'|]. split; [exact Hs'|].
  rewrite <- Hnb, Hby'. exact Hby.
Qed.

Lemma rope_iter_next_char_step (iter : rope_iter_t) :
  iter_inv r iter -> iter_char_pos iter < char_len r ->
  exists iter',
    rope_iter_next_char iter
    = Some (Some (nth (Z.to_nat (iter_char_pos iter)) (utf8_scalars (node_bytes (root r))) 0), iter')
    /\ iter_inv r iter'
    /\ iter_char_pos iter' = iter_char_pos iter + 1.
Proof.
  intros (Hrope & Hk0 & Hbp & state & Hint & Hinv) Hlt.
  destruct (ahead (iter_char_pos iter) ltac:(lia)) as (Hne & Hle & Hdec & Hnext).
  rewrite <- Hbp in Hne, Hle, Hdec, Hnext.
  pose proof Hinv as (Hb0 & Ht0 & _).
  destruct (text_tree_leaf _ Hb0 Ht0) as (Hnn0 & _).
  destruct (next_leaf_step _ _ Hinv Hne) as (state' & Emove & Hinv' & Hin).
  unfold rope_iter_next_char. rewrite Hrope.
  rewrite Z.geb_leb.
  destruct (Z.leb_spec (char_len r) (iter_char_pos iter)); [lia|].
  rewrite Hint. cbv beta iota. rewrite Hnn0, Emove.
  destruct Hinv' as (Hb & Ht & Hl & Hw & Hall & Hfit & Hby).
  destruct (text_tree_leaf _ Hb Ht) as (Hnn & _). rewrite Hnn.
  set (d1 := drop (leaf_byte_pos state') (leaf_data (current_leaf state'))) in *.
  assert (Hd1 : d1 <> []) by (apply drop_nonempty; lia).
  pose proof Hw as Hw1. apply utf8_whole_step in Hw1; [|exact Hd1].
  destruct Hw1 as (Hle1 & Hw1).
  assert (Hsame : utf8_decode d1
                  = (nth (Z.to_nat (iter_char_pos iter)) (utf8_scalars (node_bytes (root r))) 0,
                     lead_len d1)).
  { rewrite <- (utf8_decode_app d1 (stack_bytes (iter_stack state'))) by assumption.
    rewrite Hby, Hdec. f_equal. rewrite <- Hby. apply lead_len_app. exact Hd1. }
  assert (Hlead : lead_len (drop (iter_byte_pos iter) (node_bytes (root r))) = lead_len d1).
  { rewrite <- Hby. apply lead_len_app. exact Hd1. }
  rewrite Hsame.
  eexists. split; [reflexivity|]. split; [|reflexivity].
  pose proof (lead_len_range d1) as Hr1.
  assert (Hz1 : zlen d1 = zlen (leaf_data (current_leaf state')) - leaf_byte_pos state').
  { unfold d1. rewrite zlen_drop by lia. reflexivity. }
  unfold iter_inv. cbn [iter_rope iter_char_pos iter_byte_pos internal].
  split; [reflexivity|]. split; [lia|].
  split; [rewrite Hnext, Hlead; reflexivity|].
  eexists. split; [reflexivity|].
  unfold state_inv. cbn [iter_stack current_leaf leaf_byte_pos].
  split; [exact Hb|]. split; [exact Ht|]. split; [lia|].
  rewrite <- drop_drop by lia. fold d1.
  split; [exact Hw1|]. split; [exact Hall|]. split; [exact Hfit|].
  destruct (utf8_char_to_byte_props (node_bytes (root r)) (iter_char_pos iter)) as (Hp & _).
  rewrite <- Hbp in Hp.
  rewrite <- (drop_drop (iter_byte_pos iter)) by lia.
  rewrite <- Hby. rewrite drop_app_l by lia. reflexivity.
Qed.

Lemma rope_iter_next_char_end (iter : rope_iter_t) :
  iter_rope iter = Some r -> char_len r <= iter_char_pos iter ->
  rope_iter_next_char iter = Some (None, iter).
Proof.
  intros Hrope Hge. unfold rope_iter_next_char. rewrite Hrope.
  rewrite Z.geb_leb. destruct (Z.leb_spec (char_len r) (iter_char_pos iter)); [reflexivity | lia].
Qed.

Lemma firstn_skipn_cons (l : list Z) (k n : nat) :
  (k < length l)%nat ->
  firstn (S n) (skipn k l) = nth k l 0 :: firstn n (skipn (S k) l).
Proof.
  revert l. induction k as [|k IH]; intros l Hk.
  - destruct l; simpl in *; [lia | reflexivity].
  - destruct l as [|a l]; simpl in Hk; [lia|].
    change (skipn (S k) (a :: l)) with (skipn k l).
    change (nth (S k) (a :: l) 0) with (nth k l 0).
    change (skipn (S (S k)) (a :: l)) with (skipn (S k) l).
    apply IH. lia.
Qed.

Lemma iter_collect_spec (n : nat) :
  forall iter,
    iter_inv r iter ->
    exists iter',
      iter_collect n iter
      = Some (firstn n (skipn (Z.to_nat (iter_char_pos iter)) (utf8_scalars (node_bytes (root r)))),
              iter')
      /\ iter_rope iter' = Some r
      /\ iter_char_pos iter'
         = Z.max (iter_char_pos iter)
                 (Z.min (iter_char_pos iter + Z.of_nat n) (char_len r))
      /\ (iter_char_pos iter <= char_len r ->
          iter_byte_pos iter'
          = utf8_char_to_byte (node_bytes (root r)) (iter_char_pos iter')).
Proof.
  destruct content_whole as (Wb & Cb).
  pose proof (utf8_scalars_length _ Wb) as Hlen. rewrite Cb in Hlen.
  induction n as [|n IH]; intros iter Hinv.
  - exists iter. simpl. pose proof Hinv as (Hrope & Hk & Hbp & _).
    split; [reflexivity|]. split; [exact Hrope|]. split; [lia|].
    intros _. exact Hbp.
  - pose proof Hinv as (Hrope & Hk & Hbp & _).
    destruct (Z.le_gt_cases (char_len r) (iter_char_pos iter)) as [Hend|Hin].
    + exists iter. cbn [iter_collect].
      rewrite rope_iter_next_char_end by assumption.
      rewrite skipn_all2 by lia. rewrite firstn_nil.
      split; [reflexivity|]. split; [exact Hrope|]. split; [lia|].
      intros _. exact Hbp.
    + destruct (rope_iter_next_char_step iter Hinv Hin) as (it1 & E1 & Hinv1 & Hpos1).
      destruct (IH it1 Hinv1) as (it2 & E2 & Hrope2 & Hpos2 & Hbp2).
      exists it2. cbn [iter_collect]. rewrite E1, E2.
      split.
      * rewrite firstn_skipn_cons by lia.
        rewrite Hpos1. replace (Z.to_nat (iter_char_pos iter + 1))
          with (S (Z.to_nat (iter_char_pos iter))) by lia. reflexivity.
      * split; [exact Hrope2|]. split; [lia|].
        intros _. apply Hbp2. lia.
Qed.

End Iteration.

Lemma rope_iter_init_inv (r : rope_t) (k : Z) :
  rope_wf r -> leaves_whole (root r) -> leaves_nonempty (root r) ->
  stack_need (root r) <= STACK_SIZE -> 0 <= k < char_len r ->
  exists iter,
    rope_iter_init (Some r) k = Some iter
    /\ iter_inv r iter /\ iter_char_pos iter = k.
Proof.
  intros Hwf Hwh Hne Hh Hk.
  pose proof Hwf as (Hw & Hb & _ & Hc). specialize (Hc eq_refl).
  assert (Hroot : root r <> NULL).
  { intros E. rewrite E in Hc. simpl in Hc. lia. }
  assert (Htext : text_tree (root r)) by (unfold text_tree, tree_ok; auto).
  pose proof (rope_char_to_byte_flat r k Hwf Hwh) as Hflat.
  unfold rope_iter_init.
  assert (Ewalk : rope_char_to_byte (Some r) k = char_to_byte_walk (root r) k 0).
  { unfold rope_char_to_byte. rewrite Z.geb_leb.
    destruct (Z.leb_spec (char_len r) k); [lia | reflexivity]. }
  destruct (char_to_byte_walk_roundtrip (root r) Hw k ltac:(lia)) as (Hlt & _).
  destruct (char_to_byte_walk_props (root r) Hw k) as ((Hp0 & _) & _).
  destruct (is_null (root r)) eqn:En; [apply is_null_true in En; congruence|].
  destruct (seek_leaf_spec (root r) (rope_char_to_byte (Some r) k) 0 []
              (conj Hw Hroot))
    as (leaf & p' & off' & stack' & E & Hbr & Hp' & Hstrict & Hoff & Hfit & Hby & _);
    [rewrite Ewalk; lia | apply stack_need_fits; simpl; lia | exact I |].
  rewrite E.
  destruct (seek_leaf_all text_tree text_tree_branch _ _ _ _ _ _ _ _ Htext
              (Forall_nil _) E) as (Hleaf & Hall).
  destruct (text_tree_leaf leaf Hbr Hleaf) as (_ & Hnb & Hdne & Hdw).
  rewrite Ewalk in E.
  destruct (seek_leaf_char (root r) Hw k 0 [] leaf p' off' stack' ltac:(lia) E)
    as (k' & Ek').
  destruct leaf as [|c bw cw nw d cl nl|]; [destruct Hleaf as ((_ & N) & _); congruence
                                           | | discriminate].
  eexists. split; [reflexivity|]. split; [|reflexivity].
  simpl in Hnb, Hdne, Hdw, Hp', Hby, Ek'.
  unfold iter_inv. cbn [iter_rope iter_char_pos iter_byte_pos internal].
  split; [reflexivity|]. split; [lia|].
  split; [rewrite Hoff, Z.add_0_l; exact Hflat|].
  eexists. split; [reflexivity|].
  unfold state_inv. cbn [iter_stack current_leaf leaf_byte_pos leaf_data].
  split; [reflexivity|]. split; [exact Hleaf|]. split; [exact Hp'|].
  split; [rewrite Ek'; apply utf8_char_to_byte_suffix; exact Hdw|].
  split; [exact Hall|]. split; [exact Hfit|].
  rewrite Hoff, Z.add_0_l. simpl in Hby. rewrite app_nil_r in Hby. exact Hby.
Qed.

Lemma rope_iter_init_end (r : rope_t) (k : Z) :
  consistent false r -> stack_need (root r) <= STACK_SIZE -> char_len r <= k ->
  exists iter,
    rope_iter_init (Some r) k = Some iter
    /\ iter_rope iter = Some r /\ iter_char_pos iter = k
    /\ iter_byte_pos iter = byte_len r.
Proof.
  intros (Hw & Hb & _) Hh Hk. unfold rope_iter_init.
  assert (Ep : rope_char_to_byte (Some r) k = byte_len r).
  { unfold rope_char_to_byte. rewrite Z.geb_leb.
    destruct (Z.leb_spec (char_len r) k); [reflexivity | lia]. }
  rewrite Ep.
  destruct (is_null (root r)) eqn:En.
  { eexists. split; [reflexivity|]. simpl. auto. }
  apply is_null_false in En.
  destruct (seek_leaf_spec (root r) (byte_len r) 0 [] (conj Hw En))
    as (leaf & p' & off' & stack' & E & _ & _ & _ & Hoff & _);
    [pose proof (zlen_nonneg (node_bytes (root r))); lia
    | apply stack_need_fits; simpl; lia | exact I |].
  rewrite E.
  destruct leaf; (eexists; split; [reflexivity|]; simpl; repeat split; lia).
Qed.

(** An iterator initialised at [k] and run for [n] steps. *)
Lemma rope_iter_run (r : rope_t) (k : Z) (n : nat) :
  reachable any_position (Some r) -> leaves_whole (root r) ->
  rope_stack_need (Some r) <= STACK_SIZE -> 0 <= k ->
  exists iter iter',
    rope_iter_init (Some r) k = Some iter
    /\ iter_char_pos iter = k
    /\ iter_byte_pos iter = rope_char_to_byte (Some r) k
    /\ iter_collect n iter
       = Some (firstn n (skipn (Z.to_nat k) (rope_scalars (Some r))), iter')
    /\ iter_char_pos iter' = Z.max k (Z.min (k + Z.of_nat n) (char_len r))
    /\ iter_byte_pos iter' = rope_char_to_byte (Some r) (iter_char_pos iter')
    /\ (char_len r <= iter_char_pos iter' ->
        rope_iter_next_char iter' = Some (None, iter')).
Proof.
  intros Hreach Hwh Hh Hk.
  pose proof (reachable_whole_wf r Hreach Hwh) as Hwf.
  pose proof (reachable_consistent _ Hreach) as Hok.
  pose proof (reachable_leaves_nonempty _ Hreach) as Hne.
  destruct (whole_rope_length _ Hreach Hwh) as (Hlen & _). simpl in Hlen.
  simpl in Hh, Hne.
  assert (Hdone : forall it, iter_rope it = Some r ->
            char_len r <= iter_char_pos it ->
            rope_iter_next_char it = Some (None, it)).
  { intros it Hr Hge. apply (rope_iter_next_char_end r); assumption. }
  destruct (Z.le_gt_cases (char_len r) k) as [Hend|Hin].
  - destruct (rope_iter_init_end r k Hok Hh Hend) as (iter & E & Hr & Hp & Hb).
    exists iter, iter.
    assert (Ep : rope_char_to_byte (Some r) k = byte_len r).
    { unfold rope_char_to_byte. rewrite Z.geb_leb.
      destruct (Z.leb_spec (char_len r) k); [reflexivity | lia]. }
    split; [exact E|]. split; [exact Hp|]. split; [congruence|].
    split; [|split; [lia | split; [rewrite Hp; congruence | apply Hdone; exact Hr]]].
    rewrite skipn_all2 by lia. rewrite firstn_nil.
    destruct n as [|n]; [reflexivity|].
    cbn [iter_collect]. rewrite (rope_iter_next_char_end r) by (assumption || lia).
    reflexivity.
  - destruct (rope_iter_init_inv r k Hwf Hwh Hne Hh ltac:(lia)) as (iter & E & Hinv & Hp).
    destruct (iter_collect_spec r Hwf Hwh n iter Hinv)
      as (iter' & Ec & Hr' & Hp' & Hb').
    exists iter, iter'.
    pose proof Hinv as (_ & _ & Hbp & _).
    split; [exact E|]. split; [exact Hp|].
    split; [rewrite Hbp, Hp; symmetry; apply rope_char_to_byte_flat; assumption|].
    split; [rewrite Ec, Hp; reflexivity|].
    split; [rewrite Hp'; rewrite Hp; reflexivity|].
    split; [|apply Hdone; exact Hr'].
    rewrite Hb' by lia. symmetry. apply rope_char_to_byte_flat; assumption.
Qed.

(** X18.  Forward iteration.  On a rope built by the public operations
    whose leaves hold whole characters and whose traversal fits the
    64-entry stack, an iterator initialised at character [k] stands at the
    byte offset of that character, and [n] calls of [rope_iter_next_char]
    return the characters [k], [k + 1], ... of the text, in order, until
    the text ends; after that every call returns [false].  The byte
    position of the iterator stays the byte offset of its character
    position. *)
Theorem rope_iter_forward (r : rope_t) (k : Z) (n : nat) :
  reachable any_position (Some r) -> leaves_whole (root r) ->
  rope_stack_need (Some r) <= STACK_SIZE -> size_t k ->
  exists iter iter',
    rope_iter_init (Some r) k = Some iter
    /\ iter_char_pos iter = k
    /\ iter_byte_pos iter = rope_char_to_byte (Some r) k
    /\ iter_collect n iter
       = Some (firstn n (skipn (Z.to_nat k) (rope_scalars (Some r))), iter')
    /\ iter_char_pos iter' = Z.max k (Z.min (k + Z.of_nat n) (char_len r))
    /\ iter_byte_pos iter' = rope_char_to_byte (Some r) (iter_char_pos iter')
    /\ (char_len r <= iter_char_pos iter' ->
        rope_iter_next_char iter' = Some (None, iter')).
Proof.
  intros Hreach Hwh Hh (Hk & _). apply rope_iter_run; assumption.
Qed.

Lemma rope_cafe_nichi_reachable : reachable any_position (Some rope_cafe_nichi).
Proof.
  change (Some rope_cafe_nichi)
    with (rope_concat (Some (rope_new_from_str str_cafe))
                      (Some (rope_new_from_str str_nichi))).
  apply reach_concat; apply reach_new_from_str.
Qed.

Lemma rope_iter_forward_witness :
  exists iter iter',
    rope_iter_init (Some rope_cafe_nichi) 2 = Some iter
    /\ iter_char_pos iter = 2
    /\ iter_byte_pos iter = rope_char_to_byte (Some rope_cafe_nichi) 2
    /\ iter_collect 5 iter
       = Some (firstn 5 (skipn (Z.to_nat 2) (rope_scalars (Some rope_cafe_nichi))),
               iter')
    /\ iter_char_pos iter'
       = Z.max 2 (Z.min (2 + Z.of_nat 5) (char_len rope_cafe_nichi))
    /\ iter_byte_pos iter'
       = rope_char_to_byte (Some rope_cafe_nichi) (iter_char_pos iter')
    /\ (char_len rope_cafe_nichi <= iter_char_pos iter' ->
        rope_iter_next_char iter' = Some (None, iter')).
Proof.
  apply (rope_iter_forward rope_cafe_nichi 2 5).
  - exact rope_cafe_nichi_reachable.
  - vm_compute. split; reflexivity.
  - vm_compute. discriminate.
  - unfold size_t. vm_compute. split; [discriminate | reflexivity].
Defined.

(** ** The iterator, backward *)

Lemma prev_scan_loop_shift (fuel : nat) :
  forall data p scan, 0 <= scan ->
    prev_scan_loop fuel data p scan
    = scan + prev_scan_loop fuel (drop scan data) (p - scan) 0.
Proof.
  induction fuel as [|fuel IH]; intros data p scan Hs; simpl; [lia|].
  destruct (Z.ltb_spec scan (zlen data)) as [Hlt|Hge].
  - rewrite (zlen_drop scan data) by lia.
    destruct (Z.ltb_spec 0 (zlen data - scan)); [|lia].
    destruct (Z.ltb_spec scan p); destruct (Z.ltb_spec 0 (p - scan)); try lia; simpl;
      [|lia].
    rewrite byte_at_drop by lia. rewrite ?Z.add_0_r, ?Z.add_0_l.
    pose proof (utf8_char_len_range (uint8 (byte_at data scan))).
    set (cl := utf8_char_len (uint8 (byte_at data scan))) in *.
    rewrite !Z.gtb_ltb.
    destruct (Z.ltb_spec p (scan + cl)); destruct (Z.ltb_spec (p - scan) cl); try lia.
    rewrite IH by lia. rewrite (IH (drop scan data) (p - scan) cl) by lia.
    rewrite drop_drop by lia.
    replace (p - scan - cl) with (p - (scan + cl)) by lia. lia.
  - rewrite (drop_all scan data) by lia. rewrite zlen_nil.
    rewrite !andb_false_r. lia.
Qed.

Lemma prev_scan_loop_nil (fuel : nat) (p : Z) : prev_scan_loop fuel [] p 0 = 0.
Proof. destruct fuel; simpl; [|rewrite andb_false_r]; reflexivity. Qed.

Lemma prev_scan_loop_step (fuel : nat) (s : list Z) (p : Z) :
  s <> [] ->
  prev_scan_loop (S fuel) s p 0
  = if 0 <? p then
      if lead_len s >? p then 0
      else lead_len s + prev_scan_loop fuel (drop (lead_len s) s) (p - lead_len s) 0
    else 0.
Proof.
  intros Hs. pose proof (nonempty_zlen s Hs). simpl.
  destruct (Z.ltb_spec 0 (zlen s)); [|lia].
  destruct (Z.ltb_spec 0 p); simpl; [|reflexivity].
  fold (lead_len s). rewrite ?Z.add_0_l.
  pose proof (lead_len_range s).
  destruct (_ >? _); [reflexivity|].
  rewrite prev_scan_loop_shift by lia. reflexivity.
Qed.

Lemma prev_scan_loop_fuel (f1 : nat) :
  forall f2 s p, (length s <= f1)%nat -> (length s <= f2)%nat ->
    prev_scan_loop f1 s p 0 = prev_scan_loop f2 s p 0.
Proof.
  induction f1 as [|f1 IH]; intros f2 s p H1 H2.
  - destruct s; [|simpl in H1; lia]. now rewrite !prev_scan_loop_nil.
  - destruct s as [|c s']; [now rewrite !prev_scan_loop_nil|].
    destruct f2 as [|f2]; [simpl in H2; lia|].
    rewrite !prev_scan_loop_step by discriminate.
    destruct (0 <? p); [|reflexivity].
    destruct (_ >? _); [reflexivity|].
    f_equal. pose proof (lead_len_range (c :: s')).
    apply IH; unfold drop; rewrite length_skipn; simpl length in *; lia.
Qed.

(** The scan of [rope_iter_prev_char] runs up to the offset it is given
    when that offset is the start of a character: it stops short of it
    only inside a character. *)
Lemma prev_scan_boundary (s : list Z) :
  forall k, prev_scan_loop (length s) s (utf8_char_to_byte s k) 0
            = utf8_char_to_byte s k.
Proof.
  induction s as [|s Hs IH] using utf8_ind; intros k.
  - reflexivity.
  - destruct s as [|b s']; [congruence|].
    pose proof (lead_len_range (b :: s')) as Hr.
    simpl length. rewrite prev_scan_loop_step by discriminate.
    rewrite (utf8_char_to_byte_step (b :: s')) by discriminate.
    destruct (Z.ltb_spec 0 k); [|reflexivity].
    rewrite Z.gtb_ltb.
    destruct (Z.ltb_spec (zlen (b :: s')) (lead_len (b :: s'))); [reflexivity|].
    destruct (utf8_char_to_byte_props (drop (lead_len (b :: s')) (b :: s')) (k - 1))
      as ((Hp0 & _) & _).
    set (q := utf8_char_to_byte (drop (lead_len (b :: s')) (b :: s')) (k - 1)) in *.
    destruct (Z.ltb_spec 0 (lead_len (b :: s') + q)); [|lia].
    rewrite Z.gtb_ltb.
    destruct (Z.ltb_spec (lead_len (b :: s') + q) (lead_len (b :: s'))); [lia|].
    replace (lead_len (b :: s') + q - lead_len (b :: s')) with q by lia.
    rewrite (prev_scan_loop_fuel (length s')
               (length (drop (lead_len (b :: s')) (b :: s')))).
    + unfold q. rewrite IH. reflexivity.
    + unfold drop. rewrite length_skipn. simpl length. lia.
    + lia.
Qed.

(** X19.  Backward iteration inside one leaf.  On a rope made of one leaf
    of whole characters, an iterator initialised at character [k > 0] and
    moved with [rope_iter_prev_char] gets its character position set to
    [k - 1] and its byte position to the offset of character [k - 1], while
    the code point returned is the one that starts where the iterator
    stood, character [k] (0 at the end of the text), and the offset inside
    the leaf is left where it was: the next [rope_iter_next_char] returns
    character [k] again. *)
Theorem rope_iter_prev_char_in_leaf (str : list Z) (k : Z) :
  utf8_whole str -> 0 < k <= utf8_char_count str ->
  let rope := Some (rope_new_from_str str) in
  exists iter iter',
    rope_iter_init rope k = Some iter
    /\ rope_iter_prev_char iter = Some (Some (rope_char_at rope k), iter')
    /\ iter_char_pos iter' = k - 1
    /\ iter_byte_pos iter' = rope_char_to_byte rope (k - 1)
    /\ internal iter' = internal iter
    /\ (k < utf8_char_count str ->
        exists iter'',
          rope_iter_next_char iter' = Some (Some (rope_char_at rope k), iter'')
          /\ iter_char_pos iter'' = k).
Proof.
  intros Hw Hk rope.
  assert (Hne : str <> []).
  { intros ->. rewrite utf8_char_count_nil in Hk. lia. }
  pose proof (nonempty_zlen str Hne) as Hlen.
  set (leaf := Leaf RB_BLACK (zlen str) (utf8_char_count str) (count_newlines str)
                 str (utf8_char_count str) (count_newlines str)).
  assert (Er : rope_new_from_str str
               = mk_rope leaf (zlen str) (utf8_char_count str) (count_newlines str)).
  { unfold rope_new_from_str. rewrite Z.gtb_ltb.
    destruct (Z.ltb_spec 0 (zlen str)); [reflexivity | lia]. }
  subst rope. rewrite Er. clear Er.
  set (r := mk_rope leaf (zlen str) (utf8_char_count str) (count_newlines str)).
  assert (Ec2b : forall j, rope_char_to_byte (Some r) j = utf8_char_to_byte str j).
  { intros j. unfold rope_char_to_byte, r. cbn [char_len byte_len root].
    rewrite Z.geb_leb. destruct (Z.leb_spec (utf8_char_count str) j).
    - symmetry. apply utf8_char_to_byte_past; assumption.
    - unfold leaf. simpl. lia. }
  destruct (utf8_char_to_byte_props str k) as (Hp & _).
  assert (Hppos : 0 < utf8_char_to_byte str k).
  { rewrite utf8_char_to_byte_step by assumption.
    pose proof (lead_len_range str).
    apply utf8_whole_step in Hw; [|assumption]. destruct Hw as (Hle & _).
    destruct (Z.ltb_spec 0 k); [|lia]. rewrite Z.gtb_ltb.
    destruct (Z.ltb_spec (zlen str) (lead_len str)); [lia|].
    destruct (utf8_char_to_byte_props (drop (lead_len str) str) (k - 1)) as ((? & _) & _).
    lia. }
  pose proof (prev_scan_boundary str k) as Hscan.
  set (p := utf8_char_to_byte str k) in *.
  assert (Einit : rope_iter_init (Some r) k
                  = Some (mk_iter (Some r) p k (Some (mk_iter_state [] leaf p)))).
  { unfold rope_iter_init. rewrite Ec2b. fold p. cbv beta iota zeta.
    change (root r) with leaf. unfold leaf. cbn [is_null seek_leaf].
    rewrite ?Z.add_0_l. reflexivity. }
  assert (Eat : rope_char_at (Some r) k = fst (utf8_decode (drop p str))).
  { unfold rope_char_at. change (char_len r) with (utf8_char_count str).
    change (root r) with leaf.
    rewrite Z.geb_leb. destruct (Z.leb_spec (utf8_char_count str) k).
    - assert (p = zlen str) by (apply utf8_char_to_byte_past; assumption).
      rewrite drop_all by lia. reflexivity.
    - rewrite Ec2b. fold p. unfold leaf. cbn [is_null char_at_walk].
      destruct (utf8_char_to_byte_roundtrip str k ltac:(lia)) as (Hlt & _). fold p in Hlt.
      destruct (Z.ltb_spec p (zlen str)); [reflexivity | lia]. }
  eexists. eexists. split; [exact Einit|].
  assert (Eprev : rope_iter_prev_char (mk_iter (Some r) p k (Some (mk_iter_state [] leaf p)))
                  = Some (Some (rope_char_at (Some r) k),
                          mk_iter (Some r) (rope_char_to_byte (Some r) (k - 1)) (k - 1)
                            (Some (mk_iter_state [] leaf p)))).
  { unfold rope_iter_prev_char. cbn [iter_rope iter_char_pos internal iter_byte_pos].
    destruct (Z.eqb_spec k 0); [lia|].
    cbv beta iota zeta. cbn [current_leaf leaf_byte_pos iter_stack].
    change (is_null leaf) with false. cbn [orb].
    destruct (Z.eqb_spec p 0); [lia|].
    cbn [current_leaf leaf_byte_pos iter_stack].
    change (is_null leaf) with false. change (leaf_data leaf) with str.
    cbv beta iota. rewrite Hscan.
    rewrite Z.gtb_ltb. destruct (Z.ltb_spec (zlen str) p); [lia|].
    rewrite Eat.
    destruct (utf8_decode (drop p str)) as [cp rd]. reflexivity. }
  split; [exact Eprev|].
  split; [reflexivity|]. split; [reflexivity|]. split; [reflexivity|].
  intros Hlt.
  destruct (utf8_char_to_byte_roundtrip str k ltac:(lia)) as (Hplt & _). fold p in Hplt.
  assert (Enext : rope_iter_next_char
                    (mk_iter (Some r) (rope_char_to_byte (Some r) (k - 1)) (k - 1)
                       (Some (mk_iter_state [] leaf p)))
                  = Some (Some (rope_char_at (Some r) k),
                          mk_iter (Some r)
                            (rope_char_to_byte (Some r) (k - 1)
                             + snd (utf8_decode (drop p str))) k
                            (Some (mk_iter_state [] leaf
                                     (p + snd (utf8_decode (drop p str))))))).
  2:{ eexists. split; [exact Enext | reflexivity]. }
  unfold rope_iter_next_char. cbn [iter_rope iter_char_pos internal iter_byte_pos].
  change (char_len r) with (utf8_char_count str).
  rewrite Z.geb_leb. destruct (Z.leb_spec (utf8_char_count str) (k - 1)); [lia|].
  cbn [current_leaf leaf_byte_pos iter_stack].
  change (is_null leaf) with false. change (leaf_data leaf) with str. cbv beta iota.
  rewrite Z.geb_leb. destruct (Z.leb_spec (zlen str) p); [lia|].
  cbv beta iota. cbn [current_leaf leaf_byte_pos iter_stack].
  change (is_null leaf) with false. change (leaf_data leaf) with str. cbv beta iota.
  rewrite Eat.
  destruct (utf8_decode (drop p str)) as [cp rd]. cbn [fst snd].
  replace (k - 1 + 1) with k by lia. reflexivity.
Qed.

Lemma rope_iter_prev_char_in_leaf_witness :
  let rope := Some (rope_new_from_str str_nihon) in
  exists iter iter',
    rope_iter_init rope 3 = Some iter
    /\ rope_iter_prev_char iter = Some (Some (rope_char_at rope 3), iter')
    /\ iter_char_pos iter' = 3 - 1
    /\ iter_byte_pos iter' = rope_char_to_byte rope (3 - 1)
    /\ internal iter' = internal iter
    /\ (3 < utf8_char_count str_nihon ->
        exists iter'',
          rope_iter_next_char iter' = Some (Some (rope_char_at rope 3), iter'')
          /\ iter_char_pos iter'' = 3).
Proof.
  apply (rope_iter_prev_char_in_leaf str_nihon 3).
  - reflexivity.
  - vm_compute. split; [reflexivity | discriminate].
Defined.

(** ** What every sequence of public operations keeps *)

Lemma nonempty_tree_bytes (t : rope_node_t) :
  tree_wf t -> leaves_nonempty t -> t <> NULL -> node_bytes t <> [].
Proof.
  induction t as [|c bw cw nw d cl nl|c bw cw nw l IHl r IHr]; intros Hwf Hne Hn.
  - congruence.
  - exact Hne.
  - simpl in Hwf, Hne |- *. destruct Hwf as (_ & _ & _ & Hl & _ & Hwl & _).
    destruct Hne as (Hnl & _). specialize (IHl Hwl Hnl Hl).
    intros E. apply app_eq_nil in E. tauto.
Qed.

Lemma reachable_empty_iff (r : rope_t) :
  reachable any_position (Some r) -> (root r = NULL <-> byte_len r = 0).
Proof.
  intros Hr.
  pose proof (reachable_consistent _ Hr) as (Hwf & Hb & _).
  pose proof (reachable_leaves_nonempty _ Hr) as Hne. simpl in Hne.
  split.
  - intros E. rewrite Hb, E. reflexivity.
  - intros E. destruct (root r) as [| |] eqn:Eroot; [reflexivity| |];
      exfalso; rewrite Hb in E; apply zlen_zero in E;
      revert E; apply nonempty_tree_bytes; try assumption; discriminate.
Qed.

Lemma reachable_empty_chars (rope : option rope_t) :
  reachable any_position rope -> rope_byte_length rope = 0 ->
  rope_char_length rope = 0.
Proof.
  intros Hr E. destruct rope as [r|]; [|reflexivity]. simpl in E |- *.
  pose proof (reachable_whole_consistent _ Hr) as Hc. simpl in Hc.
  apply (reachable_empty_iff r Hr) in E. rewrite E in Hc.
  rewrite Hc; [reflexivity | exact I].
Qed.

(** X20.  After every sequence of public operations, at any positions: the
    weights of every branch are the totals of its left subtree and the
    totals of every leaf are those of its bytes; the byte total and the
    line count of the handle are those of the text; the character total is
    the character count of the text when the leaves hold whole characters;
    the root is BLACK; no leaf is empty; and the root is null exactly when
    the rope holds no byte. *)
Theorem public_operations_invariants (r : rope_t) :
  reachable any_position (Some r) ->
  tree_wf (root r)
  /\ rope_byte_length (Some r) = zlen (rope_bytes (Some r))
  /\ rope_line_count (Some r) = count_newlines (rope_bytes (Some r)) + 1
  /\ (leaves_whole (root r) ->
      rope_char_length (Some r) = utf8_char_count (rope_bytes (Some r)))
  /\ node_color (root r) = RB_BLACK
  /\ leaves_nonempty (root r)
  /\ (root r = NULL <-> byte_len r = 0).
Proof.
  intros Hr.
  pose proof (reachable_consistent _ Hr) as (Hwf & Hb & Hn & _).
  pose proof (reachable_whole_consistent _ Hr) as Hc. simpl in Hc.
  split; [exact Hwf|]. split; [exact Hb|].
  split; [simpl; rewrite Hn; reflexivity|].
  split.
  { intros Hw. simpl. rewrite (Hc Hw). symmetry. apply leaves_whole_bytes, Hw. }
  split; [exact (reachable_root_black _ _ Hr)|].
  split; [exact (reachable_leaves_nonempty _ Hr)|].
  exact (reachable_empty_iff r Hr).
Qed.

Lemma public_operations_invariants_witness :
  tree_wf (root rope_cafe_nichi)
  /\ rope_byte_length (Some rope_cafe_nichi) = zlen (rope_bytes (Some rope_cafe_nichi))
  /\ rope_line_count (Some rope_cafe_nichi)
     = count_newlines (rope_bytes (Some rope_cafe_nichi)) + 1
  /\ (leaves_whole (root rope_cafe_nichi) ->
      rope_char_length (Some rope_cafe_nichi)
      = utf8_char_count (rope_bytes (Some rope_cafe_nichi)))
  /\ node_color (root rope_cafe_nichi) = RB_BLACK
  /\ leaves_nonempty (root rope_cafe_nichi)
  /\ (root rope_cafe_nichi = NULL <-> byte_len rope_cafe_nichi = 0).
Proof.
  apply (public_operations_invariants rope_cafe_nichi).
  exact rope_cafe_nichi_reachable.
Defined.

(** ** Split and concatenation *)

(** X21.  [rope_split_bytes] of a rope built by the public operations
    returns two ropes, never a null handle: the first holds the first
    [byte_pos] bytes, the second the others (all of them go left when
    [byte_pos] is past the end).  The byte totals and the newline totals
    of the halves add up to those of the rope, and neither half needs a
    deeper traversal stack than the rope did.  A split at 0 or at or past
    the end hands the rope itself back as one half, with a new empty rope
    as the other. *)
Theorem rope_split_bytes_halves (r : rope_t) (p : Z) :
  reachable any_position (Some r) -> size_t p ->
  exists a b,
    rope_split_bytes (Some r) p = (Some a, Some b)
    /\ node_bytes (root a) = take p (node_bytes (root r))
    /\ node_bytes (root b) = drop p (node_bytes (root r))
    /\ byte_len a = Z.min p (byte_len r)
    /\ byte_len a + byte_len b = byte_len r
    /\ newlines a + newlines b = newlines r
    /\ stack_need (root a) <= stack_need (root r)
    /\ stack_need (root b) <= stack_need (root r)
    /\ (p = 0 -> a = rope_new /\ b = r)
    /\ (0 < p -> byte_len r <= p -> a = r /\ b = rope_new).
Proof.
  intros Hr (Hp0 & _).
  pose proof (reachable_consistent _ Hr) as Hok.
  destruct (rope_split_bytes_some r p) as (a & b & E).
  destruct (rope_split_bytes_spec false (Some r) p Hok) as (Ha & Hb & Hbytes).
  destruct (Hbytes Hp0) as (Hba & Hbb). clear Hbytes.
  pose proof (rope_split_bytes_stack_need (Some r) p) as (Hsa & Hsb).
  rewrite E in Ha, Hb, Hba, Hbb, Hsa, Hsb. simpl in Ha, Hb, Hba, Hbb, Hsa, Hsb.
  destruct Hok as (_ & Hlen & Hnl & _).
  destruct Ha as (_ & Hla & Hna & _). destruct Hb as (_ & Hlb & Hnb & _).
  exists a, b. split; [exact E|].
  split; [exact Hba|]. split; [exact Hbb|].
  pose proof (zlen_nonneg (node_bytes (root r))) as Hnn.
  assert (Hza : byte_len a = Z.min p (byte_len r)).
  { rewrite Hla, Hba, Hlen.
    destruct (Z.le_gt_cases p (zlen (node_bytes (root r)))).
    - rewrite zlen_take by lia. lia.
    - rewrite take_all by lia. lia. }
  split; [exact Hza|].
  split.
  { rewrite Hla, Hlb, Hba, Hbb, <- zlen_app, take_drop. symmetry. exact Hlen. }
  split.
  { rewrite Hna, Hnb, Hba, Hbb, <- count_newlines_app, take_drop. symmetry. exact Hnl. }
  split; [exact Hsa|]. split; [exact Hsb|].
  unfold rope_split_bytes in E.
  split.
  - intros ->. simpl in E. inversion E. split; reflexivity.
  - intros Hpos Hge. destruct (Z.eqb_spec p 0); [lia|].
    rewrite Z.geb_leb in E. destruct (Z.leb_spec (byte_len r) p); [|lia].
    inversion E. split; reflexivity.
Qed.

Lemma rope_split_bytes_halves_witness :
  exists a b,
    rope_split_bytes (Some rope_cafe_nichi) 7 = (Some a, Some b)
    /\ node_bytes (root a) = take 7 (node_bytes (root rope_cafe_nichi))
    /\ node_bytes (root b) = drop 7 (node_bytes (root rope_cafe_nichi))
    /\ byte_len a = Z.min 7 (byte_len rope_cafe_nichi)
    /\ byte_len a + byte_len b = byte_len rope_cafe_nichi
    /\ newlines a + newlines b = newlines rope_cafe_nichi
    /\ stack_need (root a) <= stack_need (root rope_cafe_nichi)
    /\ stack_need (root b) <= stack_need (root rope_cafe_nichi)
    /\ (7 = 0 -> a = rope_new /\ b = rope_cafe_nichi)
    /\ (0 < 7 -> byte_len rope_cafe_nichi <= 7 -> a = rope_cafe_nichi /\ b = rope_new).
Proof.
  apply (rope_split_bytes_halves rope_cafe_nichi 7).
  - exact rope_cafe_nichi_reachable.
  - unfold size_t. vm_compute. split; [discriminate | reflexivity].
Defined.

(** X22.  [rope_concat] of two ropes built by the public operations holds
    the bytes of the first followed by the bytes of the second; its byte,
    character and newline totals are the sums of theirs (a null or empty
    operand counts for nothing: the other operand is returned as it is);
    its traversal needs at most one stack entry more than the deeper of
    the two; and its leaves hold whole characters when theirs do. *)
Theorem rope_concat_content (a b : option rope_t) :
  reachable any_position a -> reachable any_position b ->
  let c := rope_concat a b in
  rope_bytes c = rope_bytes a ++ rope_bytes b
  /\ rope_byte_length c = rope_byte_length a + rope_byte_length b
  /\ rope_char_length c = rope_char_length a + rope_char_length b
  /\ rope_line_count c = rope_line_count a + rope_line_count b - 1
  /\ rope_stack_need c <= Z.max (rope_stack_need a) (rope_stack_need b) + 1
  /\ (leaves_whole (rope_root a) -> leaves_whole (rope_root b) ->
      leaves_whole (rope_root c))
  /\ (rope_byte_length a = 0 -> c = b)
  /\ (rope_byte_length a <> 0 -> rope_byte_length b = 0 -> c = a).
Proof.
  intros Ha Hb c.
  pose proof (reachable_consistent _ Ha) as Hoa.
  pose proof (reachable_consistent _ Hb) as Hob.
  destruct (rope_concat_spec false a b Hoa Hob) as (_ & Hbytes).
  split; [exact Hbytes|].
  pose proof (reachable_empty_chars a Ha) as Hca.
  pose proof (reachable_empty_chars b Hb) as Hcb.
  assert (Hna : rope_byte_length a = 0 -> rope_line_count a = 1).
  { destruct a as [l|]; [|reflexivity]. simpl. intros E.
    destruct Hoa as (_ & Hl & Hn & _). rewrite Hl in E. apply zlen_zero in E.
    rewrite Hn, E. reflexivity. }
  assert (Hnb : rope_byte_length b = 0 -> rope_line_count b = 1).
  { destruct b as [l|]; [|reflexivity]. simpl. intros E.
    destruct Hob as (_ & Hl & Hn & _). rewrite Hl in E. apply zlen_zero in E.
    rewrite Hn, E. reflexivity. }
  assert (Hsel : (rope_byte_length a = 0 -> c = b)
                 /\ (rope_byte_length a <> 0 -> rope_byte_length b = 0 -> c = a)
                 /\ (rope_byte_length a <> 0 -> rope_byte_length b <> 0 ->
                     rope_byte_length c = rope_byte_length a + rope_byte_length b
                     /\ rope_char_length c = rope_char_length a + rope_char_length b
                     /\ rope_line_count c
                        = rope_line_count a + rope_line_count b - 1)).
  { unfold c, rope_concat. destruct a as [l|]; simpl.
    2:{ repeat split; intros; congruence. }
    destruct (Z.eqb_spec (byte_len l) 0) as [E|E].
    { repeat split; intros; congruence. }
    destruct b as [r|]; simpl.
    { destruct (Z.eqb_spec (byte_len r) 0) as [E'|E'].
      - repeat split; intros; congruence.
      - split; [intros; congruence|]. split; [intros; congruence|].
        intros _ _. simpl. repeat split; lia. }
    repeat split; intros; congruence. }
  destruct Hsel as (S1 & S2 & S3).
  assert (Htot : rope_byte_length c = rope_byte_length a + rope_byte_length b
                 /\ rope_char_length c = rope_char_length a + rope_char_length b
                 /\ rope_line_count c = rope_line_count a + rope_line_count b - 1).
  { destruct (Z.eq_dec (rope_byte_length a) 0) as [E|E].
    - rewrite (S1 E), E, (Hca E), (Hna E). repeat split; lia.
    - destruct (Z.eq_dec (rope_byte_length b) 0) as [E'|E'].
      + rewrite (S2 E E'), E', (Hcb E'), (Hnb E'). repeat split; lia.
      + exact (S3 E E'). }
  destruct Htot as (T1 & T2 & T3).
  split; [exact T1|]. split; [exact T2|]. split; [exact T3|].
  split; [apply rope_concat_stack_need|].
  split; [intros Hwa Hwb; apply rope_concat_keeps_whole; assumption|].
  split; assumption.
Qed.

Lemma rope_concat_content_witness :
  let a := Some (rope_new_from_str str_cafe) in
  let b := Some (rope_new_from_str str_nichi) in
  let c := rope_concat a b in
  rope_bytes c = rope_bytes a ++ rope_bytes b
  /\ rope_byte_length c = rope_byte_length a + rope_byte_length b
  /\ rope_char_length c = rope_char_length a + rope_char_length b
  /\ rope_line_count c = rope_line_count a + rope_line_count b - 1
  /\ rope_stack_need c <= Z.max (rope_stack_need a) (rope_stack_need b) + 1
  /\ (leaves_whole (rope_root a) -> leaves_whole (rope_root b) ->
      leaves_whole (rope_root c))
  /\ (rope_byte_length a = 0 -> c = b)
  /\ (rope_byte_length a <> 0 -> rope_byte_length b = 0 -> c = a).
Proof.
  apply (rope_concat_content (Some (rope_new_from_str str_cafe))
                             (Some (rope_new_from_str str_nichi)));
    apply reach_new_from_str.
Defined.

(** ** Rebalancing *)



(** ** Construction *)

(** X24.  [rope_new_from_str] followed by [rope_to_string] gives the
    bytes back, whatever they are; the new rope is one BLACK leaf (no
    node at all for an empty string) whose totals are the length, the
    character count and the newline count of the bytes. *)
Theorem rope_new_from_str_to_string (str : list Z) :
  rope_to_string (Some (rope_new_from_str str)) = Some str
  /\ rope_stats (Some (rope_new_from_str str))
     = mk_stats (zlen str) (utf8_char_count str) (count_newlines str)
  /\ root (rope_new_from_str str)
     = match str with
       | [] => NULL
       | _ => Leaf RB_BLACK (zlen str) (utf8_char_count str) (count_newlines str)
                str (utf8_char_count str) (count_newlines str)
       end.
Proof.
  split; [|split].
  - rewrite (rope_to_string_bytes false).
    + rewrite rope_new_from_str_bytes. reflexivity.
    + apply rope_new_from_str_consistent.
    + unfold rope_new_from_str. destruct (zlen str >? 0); vm_compute; discriminate.
  - apply rope_new_from_str_stats.
  - destruct str as [|c s]; [reflexivity|].
    unfold rope_new_from_str. rewrite Z.gtb_ltb.
    pose proof (nonempty_zlen (c :: s) ltac:(discriminate)).
    destruct (Z.ltb_spec 0 (zlen (c :: s))); [reflexivity | lia].
Qed.

(** ** Seeking *)

Lemma byte_to_char_scan_nonneg (s : list Z) :
  forall b, 0 <= byte_to_char_scan s b.
Proof.
  induction s as [|s Hs IH] using utf8_ind; intros b.
  - unfold byte_to_char_scan. simpl. lia.
  - rewrite byte_to_char_scan_step by assumption.
    destruct (0 <? b); [|lia].
    destruct (_ >? _); [lia|]. destruct (_ >? _); [lia|].
    specialize (IH (b - lead_len s)). lia.
Qed.

(** The character a byte offset falls in starts at or before it. *)
Lemma byte_to_char_scan_floor (s : list Z) :
  forall b, 0 <= b -> utf8_char_to_byte s (byte_to_char_scan s b) <= b.
Proof.
  induction s as [|s Hs IH] using utf8_ind; intros b Hb.
  - unfold utf8_char_to_byte. simpl. destruct (byte_to_char_scan [] b); simpl; lia.
  - pose proof (lead_len_range s) as Hr.
    rewrite byte_to_char_scan_step by assumption.
    assert (H0 : utf8_char_to_byte s 0 = 0).
    { rewrite utf8_char_to_byte_step by assumption. reflexivity. }
    destruct (Z.ltb_spec 0 b); [|rewrite H0; lia].
    rewrite !Z.gtb_ltb.
    destruct (Z.ltb_spec (zlen s) (lead_len s)); [rewrite H0; lia|].
    destruct (Z.ltb_spec b (lead_len s)); [rewrite H0; lia|].
    pose proof (byte_to_char_scan_nonneg (drop (lead_len s) s) (b - lead_len s)).
    rewrite utf8_char_to_byte_step by assumption.
    destruct (Z.ltb_spec 0 (1 + byte_to_char_scan (drop (lead_len s) s) (b - lead_len s)));
      [|lia].
    rewrite Z.gtb_ltb. destruct (Z.ltb_spec (zlen s) (lead_len s)); [lia|].
    replace (1 + byte_to_char_scan (drop (lead_len s) s) (b - lead_len s) - 1)
      with (byte_to_char_scan (drop (lead_len s) s) (b - lead_len s)) by lia.
    specialize (IH (b - lead_len s) ltac:(lia)). lia.
Qed.

(** X25.  Seeking by byte.  On a rope built by the public operations
    whose leaves hold whole characters and whose traversal fits the
    64-entry stack, [rope_iter_seek_byte iter b] puts the iterator on the
    character the byte offset [b] falls in: its byte position is the
    start of that character, at or before [b] (and [b] itself when [b]
    is the start of a character), or the end of the text when [b] is at
    or past it; the calls of [rope_iter_next_char] that follow return the
    characters from that one on.  What the iterator held before does not
    matter. *)
Theorem rope_iter_seek_byte_floor (r : rope_t) (iter0 : rope_iter_t) (b : Z) (n : nat) :
  reachable any_position (Some r) -> leaves_whole (root r) ->
  rope_stack_need (Some r) <= STACK_SIZE -> size_t b ->
  iter_rope iter0 = Some r ->
  exists iter iter',
    rope_iter_seek_byte iter0 b = Some iter
    /\ iter_char_pos iter = rope_byte_to_char (Some r) b
    /\ iter_byte_pos iter = rope_char_to_byte (Some r) (iter_char_pos iter)
    /\ iter_byte_pos iter <= b
    /\ (forall k, 0 <= k <= char_len r -> b = rope_char_to_byte (Some r) k ->
        iter_char_pos iter = k /\ iter_byte_pos iter = b)
    /\ (byte_len r <= b ->
        iter_char_pos iter = char_len r /\ iter_byte_pos iter = byte_len r)
    /\ iter_collect n iter
       = Some (firstn n (skipn (Z.to_nat (iter_char_pos iter))
                           (rope_scalars (Some r))), iter').
Proof.
  intros Hreach Hwh Hh (Hb & _) Hrope.
  pose proof (reachable_whole_wf r Hreach Hwh) as Hwf.
  destruct (leaves_whole_bytes _ Hwh) as (Wb & _).
  pose proof (rope_byte_to_char_flat r b Hwf Hwh) as Hflat.
  rewrite (utf8_byte_to_char_scan _ _ Wb) in Hflat.
  pose proof (byte_to_char_scan_nonneg (node_bytes (root r)) b) as Hk.
  rewrite <- Hflat in Hk.
  destruct (rope_iter_run r (rope_byte_to_char (Some r) b) n Hreach Hwh Hh Hk)
    as (iter & iter' & E & Hp & Hbp & Ec & _).
  exists iter, iter'.
  split.
  { unfold rope_iter_seek_byte, rope_iter_seek_char. rewrite Hrope. exact E. }
  split; [exact Hp|]. split; [rewrite Hp; exact Hbp|].
  split.
  { rewrite Hbp, (rope_char_to_byte_flat r _ Hwf Hwh), Hflat.
    apply byte_to_char_scan_floor. exact Hb. }
  split.
  { intros k Hkr ->. rewrite Hp, Hbp.
    rewrite (char_byte_roundtrip r k Hwf Hkr). split; reflexivity. }
  split.
  { intros Hge.
    assert (Ek : rope_byte_to_char (Some r) b = char_len r).
    { unfold rope_byte_to_char. rewrite Z.geb_leb.
      destruct (Z.leb_spec (byte_len r) b); [reflexivity | lia]. }
    rewrite Hp, Hbp, Ek. split; [reflexivity|].
    unfold rope_char_to_byte. rewrite Z.geb_leb.
    destruct (Z.leb_spec (char_len r) (char_len r)); [reflexivity | lia]. }
  rewrite Ec, Hp. reflexivity.
Qed.

Lemma rope_iter_seek_byte_floor_witness :
  let r := rope_cafe_nichi in
  let iter0 := mk_iter (Some r) 0 0 None in
  exists iter iter',
    rope_iter_seek_byte iter0 6 = Some iter
    /\ iter_char_pos iter = rope_byte_to_char (Some r) 6
    /\ iter_byte_pos iter = rope_char_to_byte (Some r) (iter_char_pos iter)
    /\ iter_byte_pos iter <= 6
    /\ (forall k, 0 <= k <= char_len r -> 6 = rope_char_to_byte (Some r) k ->
        iter_char_pos iter = k /\ iter_byte_pos iter = 6)
    /\ (byte_len r <= 6 ->
        iter_char_pos iter = char_len r /\ iter_byte_pos iter = byte_len r)
    /\ iter_collect 2 iter
       = Some (firstn 2 (skipn (Z.to_nat (iter_char_pos iter))
                           (rope_scalars (Some r))), iter').
Proof.
  apply (rope_iter_seek_byte_floor rope_cafe_nichi
           (mk_iter (Some rope_cafe_nichi) 0 0 None) 6 2).
  - exact rope_cafe_nichi_reachable.
  - vm_compute. split; reflexivity.
  - vm_compute. discriminate.
  - unfold size_t. vm_compute. split; [discriminate | reflexivity].
  - reflexivity.
Defined.
